(** * PacificaTrading: the trade-replication core, embedded and verified

    The development follows the source units of the replication engine:

    - [Js]: the fragment of JavaScript's number semantics the code uses
      (IEEE-754 binary64, [Math.floor], [Math.min], truthiness, the text
      of a number: [toString], [toFixed]);
    - [RestClient]: [sortKeys], [sign] and the rate-limited dispatcher
      [processQueue] (src/api/rest-client.ts);
    - [Replication]: [replicateToUser] and [replicateTrade] of the
      coordinator (src/utils/validation.ts);
    - [Feed]: the WebSocket client (connect / reconnect) together with the
      handlers the server installs on it and [updateMasterSubscriptions],
      whose awaited query lets other events in between its guard and its
      loops;
    - [Orders]: the write operations of the execution client
      ([createMarketOrder], [createLimitOrder], [cancelOrder]);
    - [Inbound]: the ['message'] handler of the WebSocket client and
      [handleTradeMessage];
    - [MarketInfo]: [getMarketInfo] and its cache, with calls that
      overlap;
    - [Routes]: the create and PATCH routes of the relationship table.

    The definitions come first; the properties, one module of facts per
    unit, follow them.

    JavaScript numbers are modelled as Rocq's primitive binary64 floats, so
    that every arithmetic step of the sizing pipeline evaluates exactly as
    it does under Node. *)

From Stdlib Require Import ZArith QArith Qround List String Ascii Bool Lia.
From Stdlib Require Import Floats Permutation DecimalString OrderedTypeEx.
From stdpp Require Import base strings gmap sorting.
Import ListNotations.

Set Warnings "-inexact-float,-register-all".
Local Open Scope string_scope.
Local Open Scope list_scope.

(* ===================================================================== *)
(** ** JavaScript values: numbers and errors *)
(* ===================================================================== *)

Module Js.

(** A thrown [Error] (or the rejection of a promise). *)
Inductive exn := Error (message : string).

(** [x !== x] holds of NaN only. *)
Definition is_nan (x : float) : bool := negb (PrimFloat.eqb x x).

(** Truthiness of a number: [0], [-0] and [NaN] are falsy. *)
Definition truthy (x : float) : bool :=
  negb (is_nan x) && negb (PrimFloat.eqb x 0%float).

(** Truthiness of [number | null]. *)
Definition truthy_opt (o : option float) : bool :=
  match o with
  | Some x => truthy x
  | None => false
  end.

(** Does the binary expansion [m * 2^e] (with [e < 0]) have a fractional
    part? *)
Definition has_fraction (m : positive) (e : Z) : bool :=
  negb (Z.eqb (Z.land (Zpos m) (Z.ones (- e))) 0).

(** [Math.floor]: NaN, the infinities and the zeros are returned as they
    are; a finite [±m * 2^e] with [e >= 0] is already an integer; otherwise
    the mantissa is shifted right, and a negative number with a fractional
    part moves one further down.  The integer obtained is below [2^53], so
    its conversion back is exact. *)
Definition Math_floor (x : float) : float :=
  match Prim2SF x with
  | S754_finite s m e =>
      if (0 <=? e)%Z then x
      else
        let n := Z.shiftr (Zpos m) (- e) in
        if s then
          let n' := if has_fraction m e then (n + 1)%Z else n in
          PrimFloat.opp (PrimFloat.of_uint63 (Uint63.of_Z n'))
        else PrimFloat.of_uint63 (Uint63.of_Z n)
  | _ => x
  end.

(** [Math.min] of two arguments: NaN if either is NaN, and [-0] is below
    [+0]. *)
Definition Math_min (a b : float) : float :=
  if is_nan a || is_nan b then PrimFloat.nan
  else if PrimFloat.ltb a b then a
  else if PrimFloat.ltb b a then b
  else if PrimFloat.get_sign a then a else b.

(** *** The text of a number *)

(** The decimal digit [d] as a character. *)
Definition digit (d : Z) : ascii := ascii_of_nat (48 + Z.to_nat d).

(** The last [k] decimal digits of [n], most significant first. *)
Fixpoint digits (k : nat) (n : Z) (acc : string) : string :=
  match k with
  | 0 => acc
  | S k' => digits k' (n / 10) (String (digit (n mod 10)) acc)
  end.

(** The number of decimal digits of [n > 0], found among [1..fuel]. *)
Fixpoint width (fuel : nat) (n : Z) : nat :=
  match fuel with
  | 0 => 0
  | S fuel' => if (n <? 10)%Z then 1 else S (width fuel' (n / 10))
  end.

(** The decimal text of an integer [n >= 0]. *)
Definition decimal (n : Z) : string :=
  digits (width (S (Z.to_nat (Z.log2 n))) n) n "".

Definition zeros (k : nat) : string := digits k 0 "".

(** [2^max(z,0)] and [10^max(z,0)] *)
Definition pow2 (z : Z) : Z := (2 ^ Z.max z 0)%Z.
Definition pow10 (z : Z) : Z := (10 ^ Z.max z 0)%Z.

(** Comparison of [a * 2^e2] with [b * 10^e10], on integers. *)
Definition compare_scaled (a e2 b e10 : Z) : comparison :=
  (a * pow2 e2 * pow10 (- e10) ?= b * pow10 e10 * pow2 (- e2))%Z.

(** The least [n] from [n0] on with [m * 2^e < 10^n]. *)
Fixpoint decade (fuel : nat) (m e n0 : Z) : Z :=
  match fuel with
  | 0 => n0
  | S fuel' =>
      match compare_scaled m e 1 n0 with
      | Lt => n0
      | _ => decade fuel' m e (n0 + 1)
      end
  end.

(** Does the decimal [s * 10^p] convert to the number [m * 2^e]?  It does
    when it lies between the midpoints to the neighbours of the number
    (the lower neighbour is half as far when [m] opens a binade), the
    midpoints included when [m] is even. *)
Definition converts_to (m e s p : Z) : bool :=
  let low := if (m =? 2 ^ 52)%Z && (-1074 <? e)%Z then (4 * m - 1)%Z
             else (4 * m - 2)%Z in
  let high := (4 * m + 2)%Z in
  match compare_scaled low (e - 2) s p, compare_scaled high (e - 2) s p with
  | Lt, Gt => true
  | Eq, _ | _, Eq => Z.even m
  | _, _ => false
  end.

(** Is [s * 10^p] at least as near to [m * 2^e] as [(s + 1) * 10^p]?
    (When both are as near, the even one is taken.) *)
Definition lower_is_nearer (m e s p : Z) : bool :=
  match compare_scaled (2 * m) e (2 * s + 1) p with
  | Lt => true
  | Eq => Z.even s
  | Gt => false
  end.

(** The shortest digits of [m * 2^e > 0]: the least [k] from [k] on, with
    [s] of [k] digits and [n], such that [s * 10^(n-k)] converts to the
    number; of two such [s] the nearer.  [nx] is the least [n] with
    [m * 2^e < 10^n].  Seventeen digits tell any two numbers apart, so the
    search from 1 ends within [fuel = 17]. *)
Fixpoint shortest (fuel : nat) (m e nx : Z) (k : nat) : Z * nat * Z :=
  let p := (nx - Z.of_nat k)%Z in
  let s := ((m * pow2 e * pow10 (- p)) / (pow2 (- e) * pow10 p))%Z in
  let lower := converts_to m e s p in
  let upper := converts_to m e (s + 1) p in
  let pick (s' : Z) :=
    if (s' =? 10 ^ Z.of_nat k)%Z then (1%Z, 1, (nx + 1)%Z) else (s', k, nx) in
  match fuel with
  | 0 => (s, k, nx)
  | S fuel' =>
      if lower && upper
      then if lower_is_nearer m e s p then pick s else pick (s + 1)%Z
      else if lower then pick s
      else if upper then pick (s + 1)%Z
      else shortest fuel' m e nx (S k)
  end.

Definition sign_of (z : Z) : string := if (z <? 0)%Z then "-" else "+".

(** [Number::toString] of a finite [m * 2^e > 0]. *)
Definition positive_toString (m e : Z) : string :=
  let n0 := (((Z.log2 m + e) * 30103) / 100000 - 1)%Z in
  let nx := decade 6 m e n0 in
  let '(s, k, n) := shortest 17 m e nx 1 in
  let d := digits k s "" in
  let kz := Z.of_nat k in
  if (kz <=? n)%Z && (n <=? 21)%Z then (d ++ zeros (Z.to_nat (n - kz)))%string
  else if (0 <? n)%Z && (n <=? 21)%Z
  then (substring 0 (Z.to_nat n) d ++ "."
        ++ substring (Z.to_nat n) (k - Z.to_nat n) d)%string
  else if (-6 <? n)%Z && (n <=? 0)%Z
  then ("0." ++ zeros (Z.to_nat (- n)) ++ d)%string
  else
    let exponent := (sign_of (n - 1) ++ decimal (Z.abs (n - 1)))%string in
    if (k =? 1)%nat then (d ++ "e" ++ exponent)%string
    else (substring 0 1 d ++ "." ++ substring 1 (k - 1) d
          ++ "e" ++ exponent)%string.

(** [Number.prototype.toString()] (radix 10) *)
Definition Number_toString (x : float) : string :=
  match Prim2SF x with
  | S754_nan => "NaN"
  | S754_zero _ => "0"
  | S754_infinity s => if s then "-Infinity" else "Infinity"
  | S754_finite s m e =>
      ((if s then "-" else "") ++ positive_toString (Zpos m) e)%string
  end.

(** The number an integer literal denotes: the integer itself up to
    [2^53]; beyond that the nearest number binary64 holds, the even
    mantissa of two, infinity from [2^1024] on. *)
Definition Number_of_Z (n : Z) : float :=
  let a := Z.abs n in
  if (a =? 0)%Z then 0%float
  else
    let e := Z.max (Z.log2 a - 52) 0 in
    let q := Z.shiftr a e in
    let r := Z.land a (Z.ones e) in
    let half := Z.shiftl 1 (e - 1) in
    let up := (0 <? e)%Z && ((half <? r)%Z || ((r =? half)%Z && Z.odd q)) in
    SF2Prim (S754_finite (n <? 0)%Z (Z.to_pos (if up then q + 1 else q)) e).

(** [Number.prototype.toFixed(f)]: the integer [n] nearest to
    [x * 10^f], the larger of two, written with [f] digits after the point;
    numbers from [10^21] on and those that are not finite are written as
    [toString] writes them; more than 100 digits are a RangeError. *)
Definition toFixed (x : float) (f : nat) : exn + string :=
  if (100 <? f)%nat
  then inl (Error "toFixed() digits argument must be between 0 and 100")
  else
    match Prim2SF x with
    | S754_finite s m e =>
        match compare_scaled (Zpos m) e 1 21 with
        | Lt =>
            let fz := Z.of_nat f in
            let n := ((2 * Zpos m * pow2 e * 10 ^ fz + pow2 (- e))
                      / (2 * pow2 (- e)))%Z in
            let text := if (n =? 0)%Z then "0" else decimal n in
            let text := (zeros (S f - String.length text) ++ text)%string in
            let k := String.length text in
            inr ((if s then "-" else "")
                 ++ if (f =? 0)%nat then text
                    else substring 0 (k - f) text ++ "."
                         ++ substring (k - f) f text)%string
        | _ => inr (Number_toString x)
        end
    | S754_zero _ =>
        inr (if (f =? 0)%nat then "0" else "0." ++ zeros f)%string
    | _ => inr (Number_toString x)
    end.

(** [text.replace(/\.?0+$/, '')]: the zeros that end the text are dropped,
    with the point if it stands right before them. *)
Fixpoint drop_zeros (reversed : list ascii) : list ascii :=
  match reversed with
  | "0"%char :: rest => drop_zeros rest
  | _ => reversed
  end.

Definition strip_zeros (text : string) : string :=
  let reversed := rev (list_ascii_of_string text) in
  match reversed with
  | "0"%char :: _ =>
      string_of_list_ascii
        (rev match drop_zeros reversed with
             | "."%char :: rest => rest
             | rest => rest
             end)
  | _ => text
  end.

(** [text.split('.')[1] || '']: what stands between the first point and
    the next. *)
Fixpoint upto_point (text : string) : string :=
  match text with
  | EmptyString => EmptyString
  | String "."%char _ => EmptyString
  | String c rest => String c (upto_point rest)
  end.

Fixpoint after_point (text : string) : string :=
  match text with
  | EmptyString => EmptyString
  | String "."%char rest => upto_point rest
  | String _ rest => after_point rest
  end.

End Js.

(* ===================================================================== *)
(** ** The signed execution client (src/api/rest-client.ts) *)
(* ===================================================================== *)

Module RestClient.
Import Js.

(** *** Values that are signed *)

(** An object is the list of its own properties in property order; the
    numbers of signed messages (timestamps, windows, order ids) are
    integers, [JNumber n] being the number the literal [n] denotes
    ([Number_of_Z]).  A [string] holds the UTF-8 bytes of a text. *)
Inductive json :=
| JNull
| JBool (b : bool)
| JNumber (n : Z)
| JString (s : string)
| JArray (items : list json)
| JObject (props : list (string * json)).

(** [obj[key]] *)
Fixpoint obj_get (props : list (string * json)) (key : string) : option json :=
  match props with
  | [] => None
  | (k, v) :: rest => if String.eqb k key then Some v else obj_get rest key
  end.

Definition is_digit (c : ascii) : bool :=
  let n := nat_of_ascii c in (48 <=? n)%nat && (n <=? 57)%nat.

Fixpoint digits_value (s : string) (acc : N) : option N :=
  match s with
  | EmptyString => Some acc
  | String c s' =>
      if is_digit c
      then digits_value s' (10 * acc + N.of_nat (nat_of_ascii c - 48))%N
      else None
  end.

(** Array indices among property keys: canonical decimal numerals below
    [2^32 - 1]. *)
Definition array_index (key : string) : option N :=
  match key with
  | EmptyString => None
  | String c rest =>
      if Ascii.eqb c "0" && negb (String.eqb rest EmptyString) then None
      else match digits_value key 0 with
           | Some n => if (n <? 4294967295)%N then Some n else None
           | None => None
           end
  end.

Fixpoint replace_value (key : string) (v : json) (props : list (string * json))
    : list (string * json) :=
  match props with
  | [] => []
  | (k, w) :: rest =>
      if String.eqb k key then (k, v) :: rest
      else (k, w) :: replace_value key v rest
  end.

(** Position of a new index key: before the first property that is not an
    index or is a larger one. *)
Fixpoint insert_index (i : N) (key : string) (v : json)
    (props : list (string * json)) : list (string * json) :=
  match props with
  | [] => [(key, v)]
  | (k, w) :: rest =>
      match array_index k with
      | Some j => if (j <? i)%N then (k, w) :: insert_index i key v rest
                  else (key, v) :: props
      | None => (key, v) :: props
      end
  end.

(** [result[key] = v] on an ordinary object: an existing property keeps its
    place, a new index key goes among the indices in ascending order, any
    other new key goes last; assigning [__proto__] creates no property. *)
Definition obj_set (key : string) (v : json) (props : list (string * json))
    : list (string * json) :=
  if String.eqb key "__proto__" then props
  else match obj_get props key with
       | Some _ => replace_value key v props
       | None =>
           match array_index key with
           | Some i => insert_index i key v props
           | None => props ++ [(key, v)]
           end
       end.

(** [Array.prototype.sort()] without comparator on strings: a merge sort
    ascending by the code units of the UTF-16 form.  On the UTF-8 bytes
    that is the order of the bytes, except that a character beyond the
    basic plane (lead byte F0 to F4; a surrogate pair, D800 to DBFF first,
    in UTF-16) comes before the characters from U+E000 on (lead bytes EE
    and EF).  [unit_rank] moves the lead bytes into that order. *)
Definition unit_rank (c : ascii) : ascii :=
  let n := nat_of_ascii c in
  if (n =? 238)%nat then ascii_of_nat 243
  else if (n =? 239)%nat then ascii_of_nat 244
  else if (240 <=? n)%nat && (n <=? 244)%nat then ascii_of_nat (n - 2)
  else c.

(** The byte of a rank. *)
Definition unit_unrank (c : ascii) : ascii :=
  let n := nat_of_ascii c in
  if (n =? 243)%nat then ascii_of_nat 238
  else if (n =? 244)%nat then ascii_of_nat 239
  else if (238 <=? n)%nat && (n <=? 242)%nat then ascii_of_nat (n + 2)
  else c.

Fixpoint ranked (s : string) : string :=
  match s with
  | EmptyString => EmptyString
  | String c s' => String (unit_rank c) (ranked s')
  end.

Definition str_le (a b : string) : Prop :=
  String.leb (ranked a) (ranked b) = true.

#[export] Instance str_le_dec : RelDecision str_le :=
  fun a b => decide (String.leb (ranked a) (ranked b) = true).

Definition sort (keys : list string) : list string := merge_sort str_le keys.

(** [Object.keys(obj)] *)
Definition keys (props : list (string * json)) : list string := map fst props.

(** The reducer of [sortKeys], given the already sorted property values:
    [result[key] = sortKeys(obj[key])]. *)
Definition assign_sorted (sortedValues : list (string * json))
    (result : list (string * json)) (key : string) : list (string * json) :=
  match obj_get sortedValues key with
  | Some v => obj_set key v result
  | None => result
  end.

(** [sortKeys]: primitives and [null] are returned as they are, arrays are
    mapped, objects are rebuilt from the empty object by assigning the
    sorted keys in order. *)
Fixpoint sortKeys (obj : json) : json :=
  match obj with
  | JArray items => JArray (map sortKeys items)
  | JObject props =>
      let sortedValues := map (fun kv => (fst kv, sortKeys (snd kv))) props in
      JObject (fold_left (assign_sorted sortedValues) (sort (keys props)) [])
  | other => other
  end.

(** *** [JSON.stringify] *)

Definition hex_digit (n : nat) : ascii :=
  if (n <? 10)%nat then ascii_of_nat (48 + n) else ascii_of_nat (87 + n).

Definition quote_char : ascii := "034"%char.
Definition backslash : ascii := "092"%char.

Definition escape_char (c : ascii) : string :=
  let n := nat_of_ascii c in
  if Ascii.eqb c quote_char then String backslash (String quote_char EmptyString)
  else if Ascii.eqb c backslash then String backslash (String backslash EmptyString)
  else if (n =? 8)%nat then String backslash "b"
  else if (n =? 9)%nat then String backslash "t"
  else if (n =? 10)%nat then String backslash "n"
  else if (n =? 12)%nat then String backslash "f"
  else if (n =? 13)%nat then String backslash "r"
  else if (n <? 32)%nat
  then String backslash
         (String.append "u00"
            (String (hex_digit (n / 16)) (String (hex_digit (n mod 16)) EmptyString)))
  else String c EmptyString.

Fixpoint escape (s : string) : string :=
  match s with
  | EmptyString => EmptyString
  | String c s' => String.append (escape_char c) (escape s')
  end.

Definition quote (s : string) : string :=
  String quote_char (String.append (escape s) (String quote_char EmptyString)).

(** The text of a number in [JSON.stringify]: that of [toString], with
    the exponent form from [1e21] on, and [null] for what is not finite. *)
Definition number_to_string (n : Z) : string :=
  match Prim2SF (Number_of_Z n) with
  | S754_infinity _ | S754_nan => "null"
  | _ => Number_toString (Number_of_Z n)
  end.

(** The compact form: no white space, properties in property order. *)
Fixpoint JSON_stringify (v : json) : string :=
  match v with
  | JNull => "null"
  | JBool true => "true"
  | JBool false => "false"
  | JNumber n => number_to_string n
  | JString s => quote s
  | JArray items =>
      String.append "[" (String.append
        (String.concat "," (map JSON_stringify items)) "]")
  | JObject props =>
      String.append "{" (String.append
        (String.concat ","
           (map (fun kv => String.append (quote (fst kv))
                             (String.append ":" (JSON_stringify (snd kv))))
                props)) "}")
  end.

(** *** [sign] *)

Section Signing.
(** [nacl.sign.detached(message, secretKey)] and [bs58.encode] *)
Variable nacl_sign_detached : list Byte.byte -> list Byte.byte -> list Byte.byte.
Variable bs58_encode : list Byte.byte -> string.

Definition sign (privateKey : option (list Byte.byte)) (message : json)
    : exn + string :=
  match privateKey with
  | None => inl (Error "Private key required for signing operations")
  | Some key =>
      let sorted := sortKeys message in
      let compact := JSON_stringify sorted in
      let signature := nacl_sign_detached (list_byte_of_string compact) key in
      inr (bs58_encode signature)
  end.

End Signing.

(** The message [createMarketOrder] signs. *)
Definition marketOrderMessage (timestamp : Z) (symbol amount side slippage : string)
    (reduce_only : bool) : json :=
  JObject [
    ("timestamp", JNumber timestamp);
    ("expiry_window", JNumber 5000);
    ("type", JString "create_market_order");
    ("data", JObject [
       ("symbol", JString symbol);
       ("amount", JString amount);
       ("side", JString side);
       ("slippage_percent", JString slippage);
       ("reduce_only", JBool reduce_only) ]) ].

(** *** The rate-limited dispatcher *)

(** A queued request; [rq_id] is the identity of the request object. *)
Record RateLimitedRequest := {
  rq_id : nat;
  rq_url : string;
  retryCount : nat
}.

Definition maxRequestsPerMinute : nat := 90.

(** Where [processQueue] is suspended. *)
Inductive Suspended :=
| Fetching (request : RateLimitedRequest)   (* [await fetch(...)] *)
| RetryDelay (request : RateLimitedRequest) (* the 1000 ms wait after a 429 *)
| Polling.                                  (* the 100 ms wait *)

Record Client := {
  requestQueue : list RateLimitedRequest;
  requestsPerMinute : nat;
  suspended : Suspended;
  nextId : nat
}.

(** What the event loop delivers to the client. *)
Inductive Input :=
| Enqueue (url : string)       (* a call of [queueRequest] *)
| MinuteTick                   (* the 60000 ms interval of the constructor *)
| TimerFired                   (* the pending [setTimeout] of the dispatcher *)
| Responded (status : nat) (bodyReads : bool)
                               (* [fetch] resolved; can the body be read? *)
| FetchFailed.                 (* [fetch] rejected *)

Inductive Rejection :=
| RateLimitExceededAfterRetry
| HttpError (status : nat)
| Thrown.

(** What the dispatcher does. *)
Inductive Output :=
| Fetch (request : RateLimitedRequest)
| Sleep (ms : nat)
| Resolve (id : nat)
| Reject (id : nat) (reason : Rejection).

(** The client the constructor leaves behind: empty queue, counter at
    zero, [processQueue] in its first 100 ms wait. *)
Definition newClient : Client := {|
  requestQueue := [];
  requestsPerMinute := 0;
  suspended := Polling;
  nextId := 0
|}.

(** [response.ok] *)
Definition ok (status : nat) : bool :=
  (200 <=? status)%nat && (status <=? 299)%nat.

(** One round of [while (true)] from its top to the next [await]: dispatch
    the head of the queue if the budget allows, wait 100 ms otherwise. *)
Definition loopTop (c : Client) : Client * list Output :=
  match requestQueue c with
  | request :: rest =>
      if (requestsPerMinute c <? maxRequestsPerMinute)%nat then
        ({| requestQueue := rest;
            requestsPerMinute := S (requestsPerMinute c);
            suspended := Fetching request;
            nextId := nextId c |},
         [Fetch request])
      else
        ({| requestQueue := requestQueue c;
            requestsPerMinute := requestsPerMinute c;
            suspended := Polling;
            nextId := nextId c |},
         [Sleep 100])
  | [] =>
      ({| requestQueue := requestQueue c;
          requestsPerMinute := requestsPerMinute c;
          suspended := Polling;
          nextId := nextId c |},
       [Sleep 100])
  end.

(** Falling out of the [if] to the 100 ms wait at the bottom of the loop. *)
Definition toPolling (c : Client) : Client := {|
  requestQueue := requestQueue c;
  requestsPerMinute := requestsPerMinute c;
  suspended := Polling;
  nextId := nextId c
|}.

(** [continue]: back to the top, after the outputs [outs]. *)
Definition continue (c : Client) (outs : list Output) : Client * list Output :=
  let '(c', outs') := loopTop c in (c', outs ++ outs').

Definition withRetry (request : RateLimitedRequest) : RateLimitedRequest := {|
  rq_id := rq_id request;
  rq_url := rq_url request;
  retryCount := S (retryCount request)
|}.

(** The reaction of the client to one input.  Inputs that cannot occur
    where the dispatcher is suspended leave it as it is. *)
Definition step (c : Client) (i : Input) : Client * list Output :=
  match i with
  | Enqueue url =>
      ({| requestQueue :=
            requestQueue c ++
            [{| rq_id := nextId c; rq_url := url; retryCount := 0 |}];
          requestsPerMinute := requestsPerMinute c;
          suspended := suspended c;
          nextId := S (nextId c) |}, [])
  | MinuteTick =>
      ({| requestQueue := requestQueue c;
          requestsPerMinute := 0;
          suspended := suspended c;
          nextId := nextId c |}, [])
  | TimerFired =>
      match suspended c with
      | Polling => loopTop c
      | RetryDelay request =>
          (* request.retryCount++; this.requestQueue.unshift(request); continue *)
          continue {| requestQueue := withRetry request :: requestQueue c;
                      requestsPerMinute := requestsPerMinute c;
                      suspended := Polling;
                      nextId := nextId c |} []
      | Fetching _ => (c, [])
      end
  | Responded status bodyReads =>
      match suspended c with
      | Fetching request =>
          if (status =? 429)%nat then
            if (retryCount request <? 1)%nat then
              ({| requestQueue := requestQueue c;
                  requestsPerMinute := requestsPerMinute c;
                  suspended := RetryDelay request;
                  nextId := nextId c |}, [Sleep 1000])
            else
              continue (toPolling c)
                       [Reject (rq_id request) RateLimitExceededAfterRetry]
          else if negb (ok status) then
            if bodyReads
            then continue (toPolling c)
                          [Reject (rq_id request) (HttpError status)]
            else (toPolling c, [Reject (rq_id request) Thrown; Sleep 100])
          else
            if bodyReads
            then (toPolling c, [Resolve (rq_id request); Sleep 100])
            else (toPolling c, [Reject (rq_id request) Thrown; Sleep 100])
      | _ => (c, [])
      end
  | FetchFailed =>
      match suspended c with
      | Fetching request =>
          (toPolling c, [Reject (rq_id request) Thrown; Sleep 100])
      | _ => (c, [])
      end
  end.

(** A run: the client after a sequence of inputs, and all it did. *)
Fixpoint run (c : Client) (inputs : list Input) : Client * list Output :=
  match inputs with
  | [] => (c, [])
  | i :: rest =>
      let '(c1, outs1) := step c i in
      let '(c2, outs2) := run c1 rest in
      (c2, outs1 ++ outs2)
  end.

Definition is_fetch (o : Output) : bool :=
  match o with
  | Fetch _ => true
  | _ => false
  end.

(** The number of dispatches among outputs. *)
Definition dispatches (outs : list Output) : nat :=
  length (List.filter is_fetch outs).

(** The number of dispatches of the request [id]. *)
Definition attempts (id : nat) (outs : list Output) : nat :=
  length (List.filter (fun o => match o with
                           | Fetch r => (rq_id r =? id)%nat
                           | _ => false
                           end) outs).

Definition is_tick (i : Input) : bool :=
  match i with
  | MinuteTick => true
  | _ => false
  end.

(** The client reached from the constructor by [inputs]. *)
Definition after (inputs : list Input) : Client := fst (run newClient inputs).

(** The identities of the queued requests. *)
Definition ids (c : Client) : list nat := map rq_id (requestQueue c).

(** What every reachable client satisfies, given all its outputs so far:
    a queued request has been dispatched as often as its [retryCount]
    says, at most once; the request in flight once more than that; no
    request object is queued twice ([dispatcher_inv] below). *)

Definition queue_ok (c : Client) (outs : list Output) : Prop :=
  forall r, In r (requestQueue c) ->
    rq_id r < nextId c /\ retryCount r <= 1 /\
    attempts (rq_id r) outs = retryCount r.

Definition inflight_ok (c : Client) (outs : list Output) : Prop :=
  match suspended c with
  | Fetching r =>
      rq_id r < nextId c /\ ~ In (rq_id r) (ids c) /\
      retryCount r <= 1 /\ attempts (rq_id r) outs = S (retryCount r)
  | RetryDelay r =>
      rq_id r < nextId c /\ ~ In (rq_id r) (ids c) /\
      retryCount r = 0 /\ attempts (rq_id r) outs = 1
  | Polling => True
  end.

Definition history_ok (c : Client) (outs : list Output) : Prop :=
  (forall i, attempts i outs <= 2) /\
  (forall i, nextId c <= i -> attempts i outs = 0).

Definition dispatcher_inv (c : Client) (outs : list Output) : Prop :=
  queue_ok c outs /\ List.NoDup (ids c) /\
  inflight_ok c outs /\ history_ok c outs.

(** *** Values as nested finite maps *)

(** Objects as JavaScript has them: no key twice, at any depth. *)
Fixpoint wf_json (v : json) : Prop :=
  match v with
  | JArray items => fold_right (fun x P => wf_json x /\ P) True items
  | JObject props =>
      NoDup (keys props) /\
      fold_right (fun kv P => wf_json (snd kv) /\ P) True props
  | _ => True
  end.

(** Equality as nested finite maps: the same atoms, arrays equal position
    by position, objects binding the same keys to equal values whatever
    the order of their properties. *)
Inductive json_equiv : json -> json -> Prop :=
| equiv_null : json_equiv JNull JNull
| equiv_bool b : json_equiv (JBool b) (JBool b)
| equiv_number n : json_equiv (JNumber n) (JNumber n)
| equiv_string s : json_equiv (JString s) (JString s)
| equiv_array l1 l2 :
    Forall2 json_equiv l1 l2 -> json_equiv (JArray l1) (JArray l2)
| equiv_object p1 p2 :
    (forall k, obj_get p1 k = None <-> obj_get p2 k = None) ->
    (forall k v1 v2,
       obj_get p1 k = Some v1 -> obj_get p2 k = Some v2 -> json_equiv v1 v2) ->
    json_equiv (JObject p1) (JObject p2).

End RestClient.

(* ===================================================================== *)
(** ** The replication coordinator (src/utils/validation.ts) *)
(* ===================================================================== *)

Module Replication.
Import Js.

(** *** Data *)

(** [CopyRelationship.sizing_method]; the column is an enumeration of the
    first three, [other_method] stands for anything else reaching the
    [default:] arm of the switch. *)
Inductive SizingMethod :=
| multiplier
| fixed_usd
| balance_percent
| other_method (name : string).

Record CopyRelationship := {
  user_wallet : string;
  encrypted_api_key : string;
  master_wallet : string;
  sizing_method : SizingMethod;
  sizing_value : float;
  max_position_cap : option float;
  symbols : list string;
  is_active : bool;
  custom_leverage : option float;
  max_total_exposure : option float;
  symbol_multipliers : option (gmap string float)
}.

(** The [ParsedTrade] the feed client emits.  [amount] and [price] hold the
    numbers [parseFloat] yields from the decimal texts of the record. *)
Record Trade := {
  symbol : string;
  side : string;
  amount : float;
  price : float;
  trader : string
}.

Inductive OrderSide := bid | ask.

(** A call of [createMarketOrder].  The request carries
    [om_formattedAmount] as its [amount]: the text [formattedAmount].
    [om_amount] records [copierAmount], the number that text was rendered
    from and on which the balance and exposure tests were made; it is not
    part of the request. *)
Record CreateMarketOrderParams := {
  om_symbol : string;
  om_amount : float;
  om_formattedAmount : string;
  om_side : OrderSide;
  om_slippage_percent : string;
  om_reduce_only : bool
}.

(** Body of the account read: [success], and [data] as the coordinator
    reads it.  [ai_data] is [None] when [data] is [undefined] or [null]
    (reading [available_to_spend] from it throws); otherwise it is what
    [parseFloat(data.available_to_spend)] yields, which is NaN when [data]
    has no such field or the field does not start with a number. *)
Record AccountInfo := {
  ai_success : bool;
  ai_data : option float
}.

(** An open position as the exposure sum reads it: the parsed amount and
    the parsed price (first present of entry, mark and plain price).  The
    entries of a list of positions are objects. *)
Record Position := {
  pos_amount : float;
  pos_price : float
}.

(** The [positions] field of a [data] object. *)
Inductive PositionsField :=
| NoPositions                              (* absent, or a falsy value *)
| PositionList (positions : list Position) (* an array *)
| NotAList.                                (* a truthy value without [reduce] *)

(** The [data] of a positions body, when it is truthy: an array of
    positions, which is how the API documentation, the positions route
    and the tests of the repository read it, or an object, given by its
    [positions] field.  (A truthy primitive reads like an empty array.) *)
Inductive PositionsData :=
| PositionsArray (items : list Position)
| PositionsObject (positions : PositionsField).

(** Body of the positions read: [success] and [data], [None] when [data]
    is falsy. *)
Record PositionsResponse := {
  pr_success : bool;
  pr_data : option PositionsData
}.

Record OrderResponse := {
  or_success : bool;
  or_error : option string
}.

(** Everything outside the coordinator that one replication pass consults.
    A result [inl e] is a thrown error or a rejected promise. *)
Record Env := {
  decryptApiKey : string -> exn + string;
  PACIFICA_API_URL : option string;
  (** [bs58.decode] in the constructor of the per-user client *)
  bs58_decode : string -> exn + list Byte.byte;
  (** [getAccountInfo(wallet)]: the n-th read made by the client *)
  getAccountInfo : string -> nat -> exn + AccountInfo;
  (** [getMarketInfo(symbol)]: the parsed [lot_size], [None] for [null] *)
  getMarketInfo : string -> option float;
  (** whether [initializeClients] created the public client *)
  publicRestClient : bool;
  getPositions : string -> exn + PositionsResponse;
  (** outcome of the queued order request *)
  postMarketOrder : string -> CreateMarketOrderParams -> exn + OrderResponse;
  (** [CopyRelationship.findAll]: the rows of the table *)
  findAll : exn + list CopyRelationship
}.

(** What [console.log] / [console.error] report. *)
Inductive LogMsg :=
| SkippedNotInFilter
| InvalidApiKey
| ApiUrlNotConfigured
| FailedBalanceForSizing
| UnknownSizingMethod
| AmountBelowMinimumLot
| FailedToGetBalance
| AppliedLeverageLimit (previousAmount copierAmount : float)
| AmountBelowMinimumAfterLeverage
| InsufficientBalance (cost available : float)
| PublicClientNotAvailable
| SkippedMaxExposure (totalExposure newExposure : float)
| OrderOk
| OrderFailed (error : option string)
| ErrorFor (e : exn)
| MasterTrade
| NoActiveCopiers
| ReplicatingTo (n : nat)
| ReplicationComplete
| ReplicationError (e : exn).

(** Observable steps of a pass, in program order. *)
Inductive Event :=
| EvLog (m : LogMsg)
| EvGetAccountInfo (wallet : string) (n : nat)
| EvGetMarketInfo (symbol : string)
| EvGetPositions (wallet : string)
| EvCreateMarketOrder (wallet : string) (p : CreateMarketOrderParams).

(** *** Control: trace, early [return], exceptions *)

Inductive Res (A : Type) :=
| Val (a : A)
| Return          (* the enclosing function executed [return;] *)
| Throw (e : exn).
Arguments Val {A} a.
Arguments Return {A}.
Arguments Throw {A} e.

Definition M (A : Type) : Type := list Event * Res A.

Definition ret {A} (a : A) : M A := ([], Val a).
Definition bind {A B} (m : M A) (f : A -> M B) : M B :=
  match m with
  | (t, Val a) => let '(t', r) := f a in (t ++ t', r)
  | (t, Return) => (t, Return)
  | (t, Throw e) => (t, Throw e)
  end.
Definition emit (e : Event) : M unit := ([e], Val tt).
Definition log (m : LogMsg) : M unit := emit (EvLog m).
Definition return_ {A} : M A := ([], Return).
Definition throw {A} (e : exn) : M A := ([], Throw e).
Definition lift {A} (r : exn + A) : M A :=
  match r with
  | inl e => throw e
  | inr a => ret a
  end.

(** [try { m } catch (e) { h e }] *)
Definition try_catch {A} (m : M A) (h : exn -> M A) : M A :=
  match m with
  | (t, Throw e) => let '(t', r) := h e in (t ++ t', r)
  | other => other
  end.

(** Completion of a call of an [async] function whose body is [m]: a
    [return;] resolves the promise like falling off the end. *)
Definition call (m : M unit) : M unit :=
  match m with
  | (t, Return) => (t, Val tt)
  | other => other
  end.

Declare Scope js_scope.
Delimit Scope js_scope with js.
Notation "'let!' x ':=' m 'in' k" := (bind m (fun x => k))
  (at level 10, x name, m at level 100, k at level 200) : js_scope.
Notation "m ';;' k" := (bind m (fun _ => k))
  (at level 100, k at level 200, right associativity) : js_scope.
Local Open Scope js_scope.

Definition trace {A} (m : M A) : list Event := fst m.
Definition result {A} (m : M A) : Res A := snd m.


(** *** Helpers of the coordinator *)

(** [String.prototype.toUpperCase] for texts in ASCII, which the market
    symbols of the exchange are: the letters [a] to [z] are raised,
    every other byte is left as it is.  (JavaScript also raises the
    letters outside ASCII; their bytes are not touched here.) *)
Definition upper_ascii (c : ascii) : ascii :=
  let n := nat_of_ascii c in
  if (97 <=? n)%nat && (n <=? 122)%nat then ascii_of_nat (n - 32) else c.

Fixpoint toUpperCase (s : string) : string :=
  match s with
  | EmptyString => EmptyString
  | String c s' => String (upper_ascii c) (toUpperCase s')
  end.

(** [Array.prototype.includes] on strings. *)
Definition includes (l : list string) (s : string) : bool :=
  existsb (String.eqb s) l.

(** [String.prototype.includes]. *)
Definition str_includes (s sub : string) : bool :=
  match String.index 0 sub s with
  | Some _ => true
  | None => false
  end.

(** [getSide]: the order side of a trade-side tag. *)
Definition getSide (tradeSide : string) : exn + OrderSide :=
  if String.eqb tradeSide "open_long" || String.eqb tradeSide "close_short"
  then inr bid
  else if String.eqb tradeSide "close_long" || String.eqb tradeSide "open_short"
  then inr ask
  else inl (Error (String.append "Unknown trade side: " tradeSide)).

(** The fallback lot size used when no market entry is available. *)
Definition default_lot_size : float := 0.00001%float.

(** [Math.floor(copierAmount / lotSize) * lotSize] *)
Definition quantize (copierAmount lotSize : float) : float :=
  (Math_floor (copierAmount / lotSize) * lotSize)%float.

(** [Math.max(0, (lotSize.toString().split('.')[1] || '').length)]: the
    number of characters after the point in the text of the lot size. *)
Definition decimalsOf (lotSize : float) : nat :=
  String.length (after_point (Number_toString lotSize)).

(** [copierAmount.toFixed(decimals).replace(/\.?0+$/, '')] *)
Definition formatAmount (copierAmount : float) (decimals : nat)
    : exn + string :=
  match toFixed copierAmount decimals with
  | inl e => inl e
  | inr text => inr (strip_zeros text)
  end.

(** [relationship.symbol_multipliers?.[symbol]] applied when truthy. *)
Definition applySymbolMultiplier (rel : CopyRelationship) (sym : string)
    (copierAmount : float) : float :=
  match symbol_multipliers rel with
  | Some m =>
      match m !! sym with
      | Some k => if truthy k then (copierAmount * k)%float else copierAmount
      | None => copierAmount
      end
  | None => copierAmount
  end.

(** The optional position cap. *)
Definition applyPositionCap (rel : CopyRelationship) (masterPrice : float)
    (copierAmount : float) : float :=
  match max_position_cap rel with
  | Some cap =>
      if truthy cap then Math_min copierAmount (cap / masterPrice)%float
      else copierAmount
  | None => copierAmount
  end.

(** The exposure sum over the open positions:
    [positions.reduce((sum, p) => sum + amount * price, 0)]. *)
Definition totalExposure (positions : list Position) : float :=
  fold_left (fun sum p => (sum + pos_amount p * pos_price p)%float)
            positions 0%float.

(** A per-user REST client as far as replication uses it. *)
Record UserClient := {
  uc_publicKey : string;
  uc_privateKey : option (list Byte.byte)
}.

Definition nonempty (s : string) : bool := negb (String.eqb s EmptyString).

Definition defined {A} (o : option A) : bool :=
  match o with
  | Some _ => true
  | None => false
  end.

Section WithEnv.
Variable env : Env.

(** [new PacificaRestClient(apiUrl, wallet, apiKey)]: the key is decoded
    when non-empty; decoding may throw. *)
Definition newClient (wallet apiKey : string) : M UserClient :=
  if nonempty apiKey then
    let! key := lift (bs58_decode env apiKey) in
    ret {| uc_publicKey := wallet; uc_privateKey := Some key |}
  else ret {| uc_publicKey := wallet; uc_privateKey := None |}.

(** [client.getAccountInfo(wallet)], awaited; [n] counts the reads. *)
Definition readAccountInfo (wallet : string) (n : nat) : M AccountInfo :=
  emit (EvGetAccountInfo wallet n) ;;
  lift (getAccountInfo env wallet n).

(** [parseFloat(accountInfo.data.available_to_spend)]; a missing [data]
    raises a TypeError. *)
Definition available_to_spend (a : AccountInfo) : M float :=
  match ai_data a with
  | Some x => ret x
  | None =>
      throw (Error
        "Cannot read properties of undefined (reading 'available_to_spend')")
  end.

(** [client.createMarketOrder(params)], awaited: unauthenticated clients
    throw, otherwise the request is queued and its outcome awaited. *)
Definition createMarketOrder (c : UserClient) (p : CreateMarketOrderParams)
    : M OrderResponse :=
  emit (EvCreateMarketOrder (uc_publicKey c) p) ;;
  if nonempty (uc_publicKey c) && defined (uc_privateKey c)
  then lift (postMarketOrder env (uc_publicKey c) p)
  else throw (Error "Authentication required for trading operations").

(** *** [replicateToUser] *)

(** [if (c) { m }] *)
Definition when (c : bool) (m : M unit) : M unit :=
  if c then m else ret tt.

(** The switch on the sizing method: the base amount before any clamp. *)
Definition baseAmount (rel : CopyRelationship) (trade : Trade) : M float :=
  let masterAmount := amount trade in
  let masterPrice := price trade in
  match sizing_method rel with
  | multiplier => ret (masterAmount * sizing_value rel)%float
  | fixed_usd => ret (sizing_value rel / masterPrice)%float
  | balance_percent =>
      let! accountInfo := readAccountInfo (user_wallet rel) 0 in
      if negb (ai_success accountInfo)
      then log FailedBalanceForSizing ;; return_
      else
        let! available := available_to_spend accountInfo in
        let targetValue := ((available * sizing_value rel) / 100)%float in
        ret (targetValue / masterPrice)%float
  | other_method _ => log UnknownSizingMethod ;; return_
  end.

(** Which account read carries the balance used by the checks: the sizing
    of [balance_percent] has already consumed one. *)
Definition balanceReadIndex (rel : CopyRelationship) : nat :=
  match sizing_method rel with
  | balance_percent => 1
  | _ => 0
  end.

(** The balance read that precedes the leverage, balance and exposure
    checks (both arms of the source's [if] perform the same read). *)
Definition readBalance (rel : CopyRelationship) : M float :=
  let! accountInfo := readAccountInfo (user_wallet rel) (balanceReadIndex rel) in
  if negb (ai_success accountInfo)
  then log FailedToGetBalance ;; return_
  else available_to_spend accountInfo.

(** The amount the leverage clamp yields:
    [min(copierAmount, available * leverage / price)], rounded down again. *)
Definition leverageAmount (lev available masterPrice lotSize copierAmount : float)
    : float :=
  let maxSize := ((available * lev) / masterPrice)%float in
  quantize (Math_min copierAmount maxSize) lotSize.

(** The optional leverage limit. *)
Definition applyLeverageLimit (rel : CopyRelationship) (trade : Trade)
    (available lotSize copierAmount : float) : M float :=
  if truthy_opt (custom_leverage rel) then
    let lev := default 0%float (custom_leverage rel) in
    let previousAmount := copierAmount in
    let copierAmount :=
      leverageAmount lev available (price trade) lotSize copierAmount in
    when (copierAmount <? previousAmount)%float
         (log (AppliedLeverageLimit previousAmount copierAmount)) ;;
    if (copierAmount <=? 0)%float
    then log AmountBelowMinimumAfterLeverage ;; return_
    else ret copierAmount
  else ret copierAmount.

(** [positionsResponse.data.positions || []], ready for [reduce]: an
    array has no [positions], so it reads as no position at all. *)
Definition positionsOf (data : PositionsData) : M (list Position) :=
  match data with
  | PositionsArray _ => ret []
  | PositionsObject NoPositions => ret []
  | PositionsObject (PositionList positions) => ret positions
  | PositionsObject NotAList =>
      throw (Error "positions.reduce is not a function")
  end.

(** The optional limit on total exposure. *)
Definition checkExposure (rel : CopyRelationship) (trade : Trade)
    (copierAmount : float) : M unit :=
  if truthy_opt (max_total_exposure rel) then
    let limit := default 0%float (max_total_exposure rel) in
    if negb (publicRestClient env)
    then log PublicClientNotAvailable ;; return_
    else
      let! positionsResponse :=
        (emit (EvGetPositions (user_wallet rel)) ;;
         lift (getPositions env (user_wallet rel))) in
      match pr_success positionsResponse, pr_data positionsResponse with
      | true, Some data =>
          let! positions := positionsOf data in
          let total := totalExposure positions in
          let newExposure := (copierAmount * price trade)%float in
          let totalAfterTrade := (total + newExposure)%float in
          if (limit <? totalAfterTrade)%float
          then log (SkippedMaxExposure total newExposure) ;; return_
          else ret tt
      | _, _ => ret tt
      end
  else ret tt.

Definition replicateToUser_body (rel : CopyRelationship) (trade : Trade)
    : M unit :=
  (* symbol filter *)
  (if (0 <? length (symbols rel))%nat
      && negb (includes (symbols rel) (symbol trade))
   then log SkippedNotInFilter ;; return_
   else ret tt) ;;
  (* credential *)
  let! apiKey :=
    try_catch (lift (decryptApiKey env (encrypted_api_key rel)))
              (fun _ => log InvalidApiKey ;; return_) in
  (match PACIFICA_API_URL env with
   | Some url => if nonempty url then ret tt
                 else log ApiUrlNotConfigured ;; return_
   | None => log ApiUrlNotConfigured ;; return_
   end) ;;
  let! userRestClient := newClient (user_wallet rel) apiKey in
  let sym := toUpperCase (symbol trade) in
  let masterPrice := price trade in
  (* sizing *)
  let! copierAmount := baseAmount rel trade in
  let copierAmount := applySymbolMultiplier rel sym copierAmount in
  let copierAmount := applyPositionCap rel masterPrice copierAmount in
  (* lot size *)
  emit (EvGetMarketInfo sym) ;;
  let lotSize := default default_lot_size (getMarketInfo env sym) in
  let decimals := decimalsOf lotSize in
  let copierAmount := quantize copierAmount lotSize in
  (if (copierAmount <=? 0)%float
   then log AmountBelowMinimumLot ;; return_
   else ret tt) ;;
  (* balance, leverage *)
  let! available := readBalance rel in
  let! copierAmount := applyLeverageLimit rel trade available lotSize copierAmount in
  let! formattedAmount := lift (formatAmount copierAmount decimals) in
  let cost := (copierAmount * price trade)%float in
  (if (available <? cost)%float
   then log (InsufficientBalance cost available) ;; return_
   else ret tt) ;;
  (* exposure *)
  checkExposure rel trade copierAmount ;;
  (* order *)
  let! orderSide := lift (getSide (side trade)) in
  let reduceOnly := str_includes (side trade) "close" in
  let! orderResponse :=
    createMarketOrder userRestClient
      {| om_symbol := symbol trade;
         om_amount := copierAmount;
         om_formattedAmount := formattedAmount;
         om_side := orderSide;
         om_slippage_percent := "0.5";
         om_reduce_only := reduceOnly |} in
  if or_success orderResponse
  then log OrderOk
  else log (OrderFailed (or_error orderResponse)).

(** The whole function: the body inside its [try], the [catch] logging
    the error. *)
Definition replicateToUser (rel : CopyRelationship) (trade : Trade) : M unit :=
  call (try_catch (replicateToUser_body rel trade)
                  (fun e => log (ErrorFor e))).

(** *** [replicateTrade] *)

(** The first rejection among settled promises, if any. *)
Fixpoint first_rejection (rs : list (Res unit)) : Res unit :=
  match rs with
  | [] => Val tt
  | Throw e :: _ => Throw e
  | _ :: rs' => first_rejection rs'
  end.

(** [await Promise.all(ps)]: every promise runs to its end; the
    combination rejects with the first rejection.  The steps of one promise
    are kept together in the trace. *)
Definition Promise_all (ps : list (M unit)) : M unit :=
  (flat_map trace ps, first_rejection (map result ps)).

Definition activeFor (masterWallet : string) (rows : list CopyRelationship)
    : list CopyRelationship :=
  List.filter (fun r => String.eqb (master_wallet r) masterWallet && is_active r)
         rows.

Definition replicateTrade (masterWallet : string) (trade : Trade) : M unit :=
  call (try_catch
    (log MasterTrade ;;
     emit (EvGetMarketInfo (toUpperCase (symbol trade))) ;;
     let! rows := lift (findAll env) in
     let relationships := activeFor masterWallet rows in
     if (length relationships =? 0)%nat
     then log NoActiveCopiers ;; return_
     else
       log (ReplicatingTo (length relationships)) ;;
       Promise_all (map (fun rel => replicateToUser rel trade) relationships) ;;
       log ReplicationComplete)
    (fun e => log (ReplicationError e))).

End WithEnv.

(** The first amount the pipeline rounds: the base amount through the
    symbol multiplier and the position cap, rounded down to the lot size of
    the (upper-cased) symbol. *)
Definition sizedAmount (env : Env) (rel : CopyRelationship) (trade : Trade)
    (base : float) : float :=
  let sym := toUpperCase (symbol trade) in
  quantize
    (applyPositionCap rel (price trade) (applySymbolMultiplier rel sym base))
    (default default_lot_size (getMarketInfo env sym)).

(** The [createMarketOrder] invocations of a trace. *)
Fixpoint orders (t : list Event) : list (string * CreateMarketOrderParams) :=
  match t with
  | [] => []
  | EvCreateMarketOrder w p :: t' => (w, p) :: orders t'
  | _ :: t' => orders t'
  end.

(** The refusals for insufficient balance logged in a trace, each with
    the cost and the balance it names. *)
Fixpoint insufficient (t : list Event) : list (float * float) :=
  match t with
  | [] => []
  | EvLog (InsufficientBalance cost available) :: t' =>
      (cost, available) :: insufficient t'
  | _ :: t' => insufficient t'
  end.

End Replication.

(* ===================================================================== *)
(** ** The feed subscriber and its owner *)
(* ===================================================================== *)

Module Feed.

(** *** The WebSocket client *)

Inductive ReadyState := CONNECTING | OPEN | CLOSED.

Record WsClient := {
  ws : option ReadyState;        (* [this.ws] with its [readyState] *)
  wallet : option string;
  reconnectAttempts : nat;
  shouldReconnect : bool;
  pingInterval : bool            (* is the heartbeat timer set? *)
}.

Definition maxReconnectAttempts : nat := 10.
Definition baseReconnectDelay : Z := 1000.

(** What the client sends on the socket. *)
Inductive Command :=
| Subscribe (source account : string)
| Unsubscribe (source account : string).

(** What the client and its owner do. *)
Inductive Action :=
| OpenSocket                          (* [new WebSocket(wsUrl)] *)
| Send (c : Command)                  (* [ws.send] *)
| EmitConnected
| EmitDisconnected
| EmitError (message : string)
| ScheduleConnect (delay : Z)         (* [setTimeout(connect, delay)] *)
| ConsoleError (message : string)
| Exit (code : nat).                  (* [process.exit] *)

Definition setWs (c : WsClient) (s : option ReadyState) : WsClient := {|
  ws := s;
  wallet := wallet c;
  reconnectAttempts := reconnectAttempts c;
  shouldReconnect := shouldReconnect c;
  pingInterval := pingInterval c
|}.

Definition newWsClient (w : option string) : WsClient := {|
  ws := None;
  wallet := w;
  reconnectAttempts := 0;
  shouldReconnect := true;
  pingInterval := false
|}.

Definition isConnected (c : WsClient) : bool :=
  match ws c with
  | Some OPEN => true
  | _ => false
  end.

(** [connect()]: a new socket, in its connecting state. *)
Definition connect (c : WsClient) : WsClient * list Action :=
  (setWs c (Some CONNECTING), [OpenSocket]).

(** [subscribeToAccount]: sent only on an open socket. *)
Definition subscribeToAccount (c : WsClient) (source account : string)
    : list Action :=
  if isConnected c then [Send (Subscribe source account)]
  else [ConsoleError "Cannot subscribe: connection not open"].

Definition unsubscribeFromAccount (c : WsClient) (source account : string)
    : list Action :=
  if isConnected c then [Send (Unsubscribe source account)]
  else [ConsoleError "Cannot unsubscribe: connection not open"].

(** [cleanup()] *)
Definition cleanup (c : WsClient) : WsClient := {|
  ws := ws c;
  wallet := wallet c;
  reconnectAttempts := reconnectAttempts c;
  shouldReconnect := shouldReconnect c;
  pingInterval := false
|}.

(** [reconnect()] *)
Definition reconnect (c : WsClient) : WsClient * list Action :=
  if (maxReconnectAttempts <=? reconnectAttempts c)%nat then
    (c, [ConsoleError "Max reconnect attempts reached";
         EmitError "Max reconnect attempts reached"])
  else
    let delay :=
      (baseReconnectDelay * 2 ^ Z.of_nat (reconnectAttempts c))%Z in
    ({| ws := ws c;
        wallet := wallet c;
        reconnectAttempts := S (reconnectAttempts c);
        shouldReconnect := shouldReconnect c;
        pingInterval := pingInterval c |},
     [ScheduleConnect delay]).

(** The ['open'] handler of the client, up to the emission of
    ['connected']; what follows it is [afterConnected].  The owner's
    listener starts inside the emission, where it passes its guard and
    sends its query; it runs its loops once the query is answered, after
    the handler has finished. *)
Definition onOpen (c : WsClient) : WsClient := {|
  ws := Some OPEN;
  wallet := wallet c;
  reconnectAttempts := 0;
  shouldReconnect := shouldReconnect c;
  pingInterval := pingInterval c
|}.

(** The rest of the ['open'] handler: the client's own wallet, if it was
    given one, and the heartbeat. *)
Definition afterConnected (c : WsClient) : WsClient * list Action :=
  ({| ws := ws c;
      wallet := wallet c;
      reconnectAttempts := reconnectAttempts c;
      shouldReconnect := shouldReconnect c;
      pingInterval := true |},
   match wallet c with
   | Some w => if String.eqb w EmptyString then []
               else subscribeToAccount c "account_trades" w
   | None => []
   end).

(** The ['close'] handler. *)
Definition onClose (c : WsClient) : WsClient * list Action :=
  let c1 := cleanup (setWs c (Some CLOSED)) in
  if shouldReconnect c1 then
    let '(c2, acts) := reconnect c1 in (c2, EmitDisconnected :: acts)
  else (c1, [EmitDisconnected]).

(** [disconnect()] *)
Definition disconnect (c : WsClient) : WsClient := {|
  ws := None;
  wallet := wallet c;
  reconnectAttempts := reconnectAttempts c;
  shouldReconnect := false;
  pingInterval := false
|}.

(** *** The owner: [initializeClients], [updateMasterSubscriptions] *)

(** The server process as far as the feed is concerned.
    [activeSubscriptions] is the module-level [Set], in insertion order;
    [awaited] counts the calls of [updateMasterSubscriptions] that have
    passed the guard and are suspended at [await CopyRelationship.findAll]. *)
Record Server := {
  wsClient : WsClient;
  activeSubscriptions : list string;
  connectTimer : bool;           (* is a [setTimeout(connect)] pending? *)
  exited : option nat;
  awaited : nat
}.

Definition has (set : list string) (x : string) : bool :=
  existsb (String.eqb x) set.

(** [new Set(list)]: the distinct elements in order of first occurrence. *)
Fixpoint toSet (seen l : list string) : list string :=
  match l with
  | [] => seen
  | x :: l' => if has seen x then toSet seen l' else toSet (seen ++ [x]) l'
  end.

(** The first loop: subscribe to the masters not yet in the set. *)
Fixpoint subscribeNew (c : WsClient) (subs : list string)
    (activeMasters : list string) : list string * list Action :=
  match activeMasters with
  | [] => (subs, [])
  | master :: rest =>
      if has subs master then subscribeNew c subs rest
      else
        let '(subs', acts) := subscribeNew c (subs ++ [master]) rest in
        (subs', subscribeToAccount c "account_trades" master ++ acts)
  end.

(** The second loop: unsubscribe from the masters no longer active. *)
Fixpoint unsubscribeGone (c : WsClient) (activeMasters : list string)
    (subs : list string) : list string * list Action :=
  match subs with
  | [] => ([], [])
  | master :: rest =>
      let '(kept, acts) := unsubscribeGone c activeMasters rest in
      if has activeMasters master then (master :: kept, acts)
      else (kept, unsubscribeFromAccount c "account_trades" master ++ acts)
  end.

(** [updateMasterSubscriptions()] is an [async] function in three parts:
    the guard on [isConnected()], the awaited query for the master wallets
    of the active relationships, and the two loops.  Whatever reaches the
    server while the query is awaited is handled in between. *)

Definition setAwaited (s : Server) (n : nat) : Server := {|
  wsClient := wsClient s;
  activeSubscriptions := activeSubscriptions s;
  connectTimer := connectTimer s;
  exited := exited s;
  awaited := n
|}.

(** The call up to its [await]: past the guard, the query is sent. *)
Definition beginUpdate (s : Server) : Server :=
  if isConnected (wsClient s) then setAwaited s (S (awaited s)) else s.

(** The two loops, run when the query has answered [masters], on the
    socket as it is by then: [subscribeToAccount] and
    [unsubscribeFromAccount] send on an open socket only, the set is
    updated either way. *)
Definition reconcile (s : Server) (masters : list string)
    : Server * list Action :=
  let activeMasters := toSet [] masters in
  let '(subs1, acts1) :=
    subscribeNew (wsClient s) (activeSubscriptions s) activeMasters in
  let '(subs2, acts2) := unsubscribeGone (wsClient s) activeMasters subs1 in
  ({| wsClient := wsClient s;
      activeSubscriptions := subs2;
      connectTimer := connectTimer s;
      exited := exited s;
      awaited := awaited s |}, acts1 ++ acts2).

(** The rest of a suspended call, when its query settles: the loops, or
    the [catch] if the query was rejected. *)
Definition endUpdate (s : Server) (answer : Js.exn + list string)
    : Server * list Action :=
  match awaited s with
  | 0 => (s, [])
  | S n =>
      match answer with
      | inr masters => reconcile (setAwaited s n) masters
      | inl _ =>
          (setAwaited s n, [ConsoleError "Failed to update subscriptions"])
      end
  end.

(** A call of [updateMasterSubscriptions()] whose query answers [masters]
    before anything else reaches the server: the guard, the query sent,
    and its answer at once. *)
Definition updateMasterSubscriptions (s : Server) (masters : list string)
    : Server * list Action :=
  if negb (isConnected (wsClient s)) then (s, [])
  else endUpdate (setAwaited s (S (awaited s))) (inr masters).

Definition setClient (s : Server) (c : WsClient) (timer : bool) : Server := {|
  wsClient := c;
  activeSubscriptions := activeSubscriptions s;
  connectTimer := timer;
  exited := exited s;
  awaited := awaited s
|}.

(** The listener [initializeClients] installs on ['error']: it logs. *)
Definition onError (message : string) : list Action :=
  [ConsoleError (String.append "[Server] WebSocket error: " message)].

(** The actions of the client as the owner sees them: every ['error']
    emitted is followed by the run of the owner's listener. *)
Definition deliver (acts : list Action) : list Action :=
  flat_map (fun a => match a with
                     | EmitError m => a :: onError m
                     | _ => [a]
                     end) acts.

(** The reconnections scheduled among actions, and the commands sent. *)
Fixpoint scheduled (acts : list Action) : list Z :=
  match acts with
  | [] => []
  | ScheduleConnect d :: rest => d :: scheduled rest
  | _ :: rest => scheduled rest
  end.

Fixpoint subscribed (acts : list Action) : list string :=
  match acts with
  | [] => []
  | Send (Subscribe _ account) :: rest => account :: subscribed rest
  | _ :: rest => subscribed rest
  end.

Definition is_nil {A} (l : list A) : bool :=
  match l with
  | [] => true
  | _ => false
  end.

(** What reaches the server.  An event that cannot occur in the state of
    the server (an opening or a closing without a live socket, a timer
    that was not set, anything after the process exited) leaves it as it
    is. *)
Inductive Event :=
| SocketOpened (masters : list string)
     (* ['open'], the query of the ['connected'] listener answering
        [masters] before anything else happens *)
| SocketClosed                       (* ['close'] *)
| ReconnectTimer                     (* the scheduled [connect] fires *)
| Refresh (masters : list string)
     (* a call of [updateMasterSubscriptions] (the 60 s interval, or a
        relationship was created, changed or deleted), its query
        answering [masters] before anything else happens *)
| Sigint
| Opened
     (* ['open']; the query of the ['connected'] listener is awaited *)
| UpdateStarted
     (* a call of [updateMasterSubscriptions] reaches its [await] *)
| QueryAnswered (answer : Js.exn + list string).
     (* an awaited query settles *)

(** The server right after [initializeClients]: the client created
    without a wallet and connecting. *)
Definition initialServer : Server := {|
  wsClient := fst (connect (newWsClient None));
  activeSubscriptions := [];
  connectTimer := false;
  exited := None;
  awaited := 0
|}.

Definition react (s : Server) (e : Event) : Server * list Action :=
  match exited s with
  | Some _ => (s, [])
  | None =>
      match e with
      | SocketOpened masters =>
          match ws (wsClient s) with
          | Some CONNECTING =>
              let '(c1, acts1) := afterConnected (onOpen (wsClient s)) in
              let '(s2, acts2) :=
                updateMasterSubscriptions (setClient s c1 (connectTimer s))
                                          masters in
              (s2, EmitConnected :: acts1 ++ acts2)
          | _ => (s, [])
          end
      | SocketClosed =>
          match ws (wsClient s) with
          | Some CONNECTING | Some OPEN =>
              let '(c1, acts) := onClose (wsClient s) in
              (setClient s c1
                 (connectTimer s || negb (is_nil (scheduled acts))),
               deliver acts)
          | _ => (s, [])
          end
      | ReconnectTimer =>
          if connectTimer s then
            let '(c1, acts) := connect (wsClient s) in
            (setClient s c1 false, acts)
          else (s, [])
      | Refresh masters => updateMasterSubscriptions s masters
      | Sigint =>
          ({| wsClient := disconnect (wsClient s);
              activeSubscriptions := activeSubscriptions s;
              connectTimer := connectTimer s;
              exited := Some 0;
              awaited := awaited s |}, [Exit 0])
      | Opened =>
          match ws (wsClient s) with
          | Some CONNECTING =>
              let '(c1, acts1) := afterConnected (onOpen (wsClient s)) in
              (beginUpdate (setClient s c1 (connectTimer s)),
               EmitConnected :: acts1)
          | _ => (s, [])
          end
      | UpdateStarted => (beginUpdate s, [])
      | QueryAnswered answer => endUpdate s answer
      end
  end.

Fixpoint run (s : Server) (events : list Event) : Server * list Action :=
  match events with
  | [] => (s, [])
  | e :: rest =>
      let '(s1, acts1) := react s e in
      let '(s2, acts2) := run s1 rest in
      (s2, acts1 ++ acts2)
  end.

(** One failed connection: the socket closes, and the scheduled
    reconnection, if any, fires. *)
Definition failure : list Event := [SocketClosed; ReconnectTimer].

Fixpoint failures (n : nat) : list Event :=
  match n with
  | 0 => []
  | S n' => failure ++ failures n'
  end.

(** The socket actions that start a connection. *)
Definition connects (a : Action) : bool :=
  match a with
  | OpenSocket | ScheduleConnect _ => true
  | _ => false
  end.

(** The delays of [n] consecutive failures starting at [a] attempts. *)
Fixpoint backoff (a n : nat) : list Z :=
  match n with
  | 0 => []
  | S n' => (1000 * 2 ^ Z.of_nat a)%Z :: backoff (S a) n'
  end.

(** A server whose feed is down for good: no socket, no timer. *)
Definition dead (s : Server) : Prop :=
  connectTimer s = false /\
  (ws (wsClient s) = Some CLOSED \/ ws (wsClient s) = None).

(** A server whose feed is up or coming up and will reconnect. *)
Definition live (s : Server) : Prop :=
  exited s = None /\
  shouldReconnect (wsClient s) = true /\
  connectTimer s = false /\
  (ws (wsClient s) = Some CONNECTING \/ ws (wsClient s) = Some OPEN).

(** The end of reconnection in the words of the specification: after the
    eleventh consecutive failure nothing reconnects any more and the
    owning process is brought down. *)
Definition terminal_as_specified (s : Server) : Prop :=
  let s11 := fst (run s (failures 10 ++ [SocketClosed])) in
  connectTimer s11 = false /\ exited s11 <> None.

End Feed.

(* ===================================================================== *)
(** ** Concrete fills, relationships and exchanges *)
(* ===================================================================== *)

Module Scenarios.
Import Js Replication.

(** An exchange that answers every balance read with [available] and the
    positions read with [positions]; market data lists SOL only, with lot
    size 0.01; the credential ["corrupt"] does not decrypt; the
    relationship table holds [rows]. *)
Definition exchange (available : float)
    (positions : exn + PositionsResponse) (rows : list CopyRelationship)
    : Env := {|
  decryptApiKey := fun ct =>
    if String.eqb ct "corrupt"
    then inl (Error "Failed to decrypt API key")
    else inr "secret";
  PACIFICA_API_URL := Some "https://api.example";
  bs58_decode := fun _ => inr [];
  getAccountInfo := fun _ _ =>
    inr {| ai_success := true; ai_data := Some available |};
  getMarketInfo := fun s =>
    if String.eqb s "SOL" then Some 0.01%float else None;
  publicRestClient := true;
  getPositions := fun _ => positions;
  postMarketOrder := fun _ _ => inr {| or_success := true; or_error := None |};
  findAll := inr rows
|}.

Definition no_positions : exn + PositionsResponse :=
  inr {| pr_success := true; pr_data := Some (PositionsArray []) |}.

(** One open position of 0.1 at 50000, worth 5000. *)
Definition held : Position :=
  {| pos_amount := 0.1%float; pos_price := 50000%float |}.

(** A positions body in the documented shape, [data] being the array of
    positions, that lists [held]. *)
Definition open_positions : exn + PositionsResponse :=
  inr {| pr_success := true; pr_data := Some (PositionsArray [held]) |}.

(** The same position under a [positions] field of a [data] object. *)
Definition wrapped_positions : exn + PositionsResponse :=
  inr {| pr_success := true;
         pr_data := Some (PositionsObject (PositionList [held])) |}.

(** An active relationship of [wallet] on master ["M"]. *)
Definition copier (wallet credential : string) (method : SizingMethod)
    (value : float) (leverage limit : option float) : CopyRelationship := {|
  user_wallet := wallet;
  encrypted_api_key := credential;
  master_wallet := "M";
  sizing_method := method;
  sizing_value := value;
  max_position_cap := None;
  symbols := [];
  is_active := true;
  custom_leverage := leverage;
  max_total_exposure := limit;
  symbol_multipliers := None
|}.

(** Copier ["U"] without any limit. *)
Definition plain (method : SizingMethod) (value : float) : CopyRelationship :=
  copier "U" "iv:tag:data" method value None None.

(** Fill{BTC, open_long, amount=0.002, price=50000} *)
Definition fillBTC : Trade := {|
  symbol := "BTC"; side := "open_long";
  amount := 0.002%float; price := 50000%float; trader := "M"
|}.

(** Fill{SOL, close_long, amount=76.25, price=2} *)
Definition fillSOL : Trade := {|
  symbol := "SOL"; side := "close_long";
  amount := 76.25%float; price := 2%float; trader := "M"
|}.

(** A fill whose trade-side tag [getSide] does not know. *)
Definition fillOdd : Trade := {|
  symbol := "BTC"; side := "liquidated";
  amount := 0.002%float; price := 50000%float; trader := "M"
|}.

(** Copier ["U"] with a leverage cap of 10 and nothing else. *)
Definition levered (method : SizingMethod) (value : float) : CopyRelationship :=
  copier "U" "iv:tag:data" method value (Some 10%float) None.

(** Copier ["U"] with a position cap of 40 USD. *)
Definition capped (method : SizingMethod) (value : float) : CopyRelationship := {|
  user_wallet := "U";
  encrypted_api_key := "iv:tag:data";
  master_wallet := "M";
  sizing_method := method;
  sizing_value := value;
  max_position_cap := Some 40%float;
  symbols := [];
  is_active := true;
  custom_leverage := None;
  max_total_exposure := None;
  symbol_multipliers := None
|}.

(** Fill{BTC, close_long, amount=0.001, price=51000} *)
Definition fillClose : Trade := {|
  symbol := "BTC"; side := "close_long";
  amount := 0.001%float; price := 51000%float; trader := "M"
|}.

End Scenarios.

(* ===================================================================== *)
(** ** The quantization over exact numbers *)
(* ===================================================================== *)

Module Exact.

(** The amount quantization as the specification writes it,
    [floor(x / lotSize) * lotSize], over the rationals; to be compared with
    [Replication.quantize], which the code evaluates in binary64. *)
Definition quantize_exact (x lotSize : Q) : Q :=
  (inject_Z (Qfloor (x / lotSize)) * lotSize)%Q.

End Exact.

(* ===================================================================== *)
(** ** Two renderings of one message *)
(* ===================================================================== *)

Module Messages.
Import RestClient.

Definition order_message : json :=
  JObject [
    ("type", JString "create_market_order");
    ("data", JObject [
       ("symbol", JString "BTC");
       ("amount", JString "0.001");
       ("legs", JArray [ JObject [("b", JNumber 2); ("a", JNumber 1)] ]) ]) ].

(** The same bindings with the keys of every object in another order. *)
Definition order_message_shuffled : json :=
  JObject [
    ("data", JObject [
       ("legs", JArray [ JObject [("a", JNumber 1); ("b", JNumber 2)] ]);
       ("amount", JString "0.001");
       ("symbol", JString "BTC") ]);
    ("type", JString "create_market_order") ].

(** Stand-ins for the signature primitive and the text encoding. *)
Definition toy_signature (message key : list Byte.byte) : list Byte.byte :=
  key ++ message.
Definition toy_encode (bytes : list Byte.byte) : string :=
  string_of_list_byte bytes.

End Messages.

(* ===================================================================== *)
(** ** Sample runs of the dispatcher *)
(* ===================================================================== *)

Module Runs.
Import RestClient.

(** 95 requests are queued; every dispatch is answered 404 at once. *)
Definition busy_window : list Input :=
  repeat (Enqueue "/account") 95 ++
  TimerFired :: repeat (Responded 404 true) 100.

(** The same, then a tick, and the remaining requests answered 404. *)
Definition across_tick : list Input :=
  busy_window ++ [MinuteTick; TimerFired] ++ repeat (Responded 404 true) 100.

(** One request, dispatched and awaiting its response. *)
Definition first_attempt : Client := after [Enqueue "/orders"; TimerFired].

(** The same request after a 429, in its retry delay. *)
Definition delayed : Client :=
  after [Enqueue "/orders"; TimerFired; Responded 429 true].

(** The same request, retried and awaiting its second response. *)
Definition second_attempt : Client :=
  after [Enqueue "/orders"; TimerFired; Responded 429 true; TimerFired].

Definition the_request : RateLimitedRequest :=
  {| rq_id := 0; rq_url := "/orders"; retryCount := 0 |}.

End Runs.

(* ===================================================================== *)
(** ** Further relationships and exchanges *)
(* ===================================================================== *)

Module Cases.
Import Js Replication.

(** Copier ["U"] restricted to BTC and ETH. *)
Definition filtered : CopyRelationship := {|
  user_wallet := "U";
  encrypted_api_key := "iv:tag:data";
  master_wallet := "M";
  sizing_method := multiplier;
  sizing_value := 0.5%float;
  max_position_cap := None;
  symbols := ["BTC"; "ETH"];
  is_active := true;
  custom_leverage := None;
  max_total_exposure := None;
  symbol_multipliers := None
|}.

(** An exchange like [Scenarios.exchange] except for its account reads,
    answered by [account], and for the public client, present or not. *)
Definition exchangeWith (account : string -> nat -> exn + AccountInfo)
    (public : bool) (positions : exn + PositionsResponse)
    (rows : list CopyRelationship) : Env := {|
  decryptApiKey := fun _ => inr "secret";
  PACIFICA_API_URL := Some "https://api.example";
  bs58_decode := fun _ => inr [];
  getAccountInfo := account;
  getMarketInfo := fun s =>
    if String.eqb s "SOL" then Some 0.01%float else None;
  publicRestClient := public;
  getPositions := fun _ => positions;
  postMarketOrder := fun _ _ => inr {| or_success := true; or_error := None |};
  findAll := inr rows
|}.

(** Every account read reports [success: false]. *)
Definition refused : string -> nat -> exn + AccountInfo :=
  fun _ _ => inr {| ai_success := false; ai_data := None |}.

(** Every account read succeeds with 1000. *)
Definition funded : string -> nat -> exn + AccountInfo :=
  fun _ _ => inr {| ai_success := true; ai_data := Some 1000%float |}.

(** The first account read finds 1000, the later ones 40. *)
Definition drained : string -> nat -> exn + AccountInfo :=
  fun _ n =>
    inr {| ai_success := true;
           ai_data := Some (if (n =? 0)%nat then 1000%float else 40%float) |}.

(** A relationship of [wallet] on [master], active or not. *)
Definition follower (wallet master : string) (active : bool)
    : CopyRelationship := {|
  user_wallet := wallet;
  encrypted_api_key := "iv:tag:data";
  master_wallet := master;
  sizing_method := multiplier;
  sizing_value := 0.5%float;
  max_position_cap := None;
  symbols := [];
  is_active := active;
  custom_leverage := None;
  max_total_exposure := None;
  symbol_multipliers := None
|}.

(** Every account read succeeds with a [data] that has no usable
    [available_to_spend]. *)
Definition unreadable : string -> nat -> exn + AccountInfo :=
  fun _ _ => inr {| ai_success := true; ai_data := Some PrimFloat.nan |}.

(** An exchange like [Scenarios.exchange] whose market data gives every
    symbol the lot size [lotSize]. *)
Definition exchangeLot (lotSize available : float) : Env := {|
  decryptApiKey := fun _ => inr "secret";
  PACIFICA_API_URL := Some "https://api.example";
  bs58_decode := fun _ => inr [];
  getAccountInfo := fun _ _ =>
    inr {| ai_success := true; ai_data := Some available |};
  getMarketInfo := fun _ => Some lotSize;
  publicRestClient := true;
  getPositions := fun _ => Scenarios.no_positions;
  postMarketOrder := fun _ _ => inr {| or_success := true; or_error := None |};
  findAll := inr []
|}.

(** Fill{WIF, open_long, amount=0.6, price=100} *)
Definition fillWIF : Trade := {|
  symbol := "WIF"; side := "open_long";
  amount := 0.6%float; price := 100%float; trader := "M"
|}.

(** Fill{ETH, open_short, amount=1, price=2000} *)
Definition fillETH : Trade := {|
  symbol := "ETH"; side := "open_short";
  amount := 1%float; price := 2000%float; trader := "M"
|}.

(** Fill{BTC, close_short, amount=0.002, price=50000} *)
Definition fillCover : Trade := {|
  symbol := "BTC"; side := "close_short";
  amount := 0.002%float; price := 50000%float; trader := "M"
|}.

End Cases.

(* ===================================================================== *)
(** ** Commands of a reconciliation *)
(* ===================================================================== *)

Module Commands.
Import Feed.

(** The wallets unsubscribed among actions. *)
Fixpoint unsubscribed (acts : list Action) : list string :=
  match acts with
  | [] => []
  | Send (Unsubscribe _ account) :: rest => account :: unsubscribed rest
  | _ :: rest => unsubscribed rest
  end.

(** The server with its socket open and [subs] as its subscription set. *)
Definition serving (subs : list string) : Server := {|
  wsClient := fst (afterConnected (onOpen (wsClient initialServer)));
  activeSubscriptions := subs;
  connectTimer := false;
  exited := None;
  awaited := 0
|}.

End Commands.

(* ===================================================================== *)
(** ** Messages without a [__proto__] key *)
(* ===================================================================== *)

Module Canonical.
Import RestClient.

(** No object of the value, at any depth, has the key [__proto__] (the
    one key whose assignment [result[key] = ...] creates no property). *)
Fixpoint proto_free (v : json) : bool :=
  match v with
  | JArray items => forallb proto_free items
  | JObject props =>
      forallb (fun kv => negb (String.eqb (fst kv) "__proto__")
                         && proto_free (snd kv)) props
  | _ => true
  end.

(** The reducer of [sortKeys] for the object [props], run over the keys
    [l] from the partial result [acc]. *)
Definition rebuild (props : list (string * json)) (l : list string)
    (acc : list (string * json)) : list (string * json) :=
  fold_left (fun result key =>
               match obj_get props key with
               | Some v => obj_set key (sortKeys v) result
               | None => result
               end) l acc.

End Canonical.

(* ===================================================================== *)
(** ** Accounting of the dispatcher's requests *)
(* ===================================================================== *)

Module Accounting.
Import RestClient.

(** Does the output settle the promise of request [id]? *)
Definition settles (id : nat) (o : Output) : bool :=
  match o with
  | Resolve i => (i =? id)%nat
  | Reject i _ => (i =? id)%nat
  | _ => false
  end.

(** How often the promise of request [id] was settled. *)
Definition settlements (id : nat) (outs : list Output) : nat :=
  length (List.filter (settles id) outs).

(** The request the dispatcher holds outside the queue, if any. *)
Definition inflight (c : Client) : list RateLimitedRequest :=
  match suspended c with
  | Fetching r => [r]
  | RetryDelay r => [r]
  | Polling => []
  end.

(** How often request [id] is waiting: in the queue or held by the
    dispatcher. *)
Definition waiting (id : nat) (c : Client) : nat :=
  length (List.filter (fun r => (rq_id r =? id)%nat)
                      (inflight c ++ requestQueue c)).

(** The requests dispatched for the first time, in order of dispatch. *)
Definition first_attempts (outs : list Output) : list nat :=
  flat_map (fun o => match o with
                     | Fetch r => if (retryCount r =? 0)%nat then [rq_id r]
                                  else []
                     | _ => []
                     end) outs.

(** The requests dispatched, in order of dispatch. *)
Definition fetched (outs : list Output) : list RateLimitedRequest :=
  flat_map (fun o => match o with
                     | Fetch r => [r]
                     | _ => []
                     end) outs.

(** The queued requests not yet dispatched. *)
Definition fresh (c : Client) : list nat :=
  map rq_id (List.filter (fun r => (retryCount r =? 0)%nat) (requestQueue c)).

(** How often request [id] occurs in a list of requests. *)
Definition count (id : nat) (l : list RateLimitedRequest) : nat :=
  length (List.filter (fun r => (rq_id r =? id)%nat) l).

(** The books of a client: a request issued is waiting or settled, once
    in all; an identifier not yet issued is neither. *)
Definition balanced (c : Client) (outs : list Output) : Prop :=
  forall id,
    settlements id outs + waiting id c =
    if (id <? nextId c)%nat then 1 else 0.

(** The requests dispatched for the first time so far are the first [k]
    issued, in order, and the queue holds the others, in order. *)
Definition fifo (c : Client) (outs : list Output) : Prop :=
  exists k,
    first_attempts outs = seq 0 k /\
    fresh c = seq k (nextId c - k) /\
    k <= nextId c.

(** The request [r] is due for its retry: the dispatcher is in its delay,
    or waits with the request back at the head of the queue. *)
Definition due (r : RateLimitedRequest) (c : Client) : Prop :=
  suspended c = RetryDelay r \/
  (suspended c = Polling /\ exists rest, requestQueue c = withRetry r :: rest).

(** A long session: three requests, the first answered 429 twice, the
    second 200, the third 500. *)
Definition session : list Input :=
  [Enqueue "/a"; Enqueue "/b"; TimerFired; Responded 429 true;
   Enqueue "/c"; TimerFired; Responded 429 true;
   Responded 200 true; TimerFired; Responded 500 true].

End Accounting.

(* ===================================================================== *)
(** ** The write operations of the execution client *)
(* ===================================================================== *)

Module Orders.
Import Js RestClient.

(** The fields of the client set by its constructor. *)
Record Credentials := {
  apiUrl : string;
  publicKey : option string;
  privateKey : option (list Byte.byte)
}.

(** [!!(this.publicKey && this.privateKey)] *)
Definition requiresAuth (c : Credentials) : bool :=
  match publicKey c, privateKey c with
  | Some pk, Some _ => negb (String.eqb pk EmptyString)
  | _, _ => false
  end.

Record MarketOrderParams := {
  mo_symbol : string;
  mo_amount : string;
  mo_side : string;
  mo_slippage_percent : option string;
  mo_reduce_only : option bool
}.

Record LimitOrderParams := {
  lo_symbol : string;
  lo_amount : string;
  lo_side : string;
  lo_price : string;
  lo_post_only : option bool;
  lo_reduce_only : option bool
}.

(** [s || fallback] on an optional string: the empty string is falsy. *)
Definition or_string (s : option string) (fallback : string) : string :=
  match s with
  | Some x => if String.eqb x EmptyString then fallback else x
  | None => fallback
  end.

(** [b || false] on an optional boolean. *)
Definition or_false (b : option bool) : bool :=
  match b with
  | Some x => x
  | None => false
  end.

(** What is handed to [queueRequest]. *)
Record Request := {
  r_url : string;
  r_method : string;
  r_body : option string
}.

Definition limitOrderMessage (timestamp : Z) (p : LimitOrderParams) : json :=
  JObject [
    ("timestamp", JNumber timestamp);
    ("expiry_window", JNumber 5000);
    ("type", JString "create_limit_order");
    ("data", JObject [
       ("symbol", JString (lo_symbol p));
       ("amount", JString (lo_amount p));
       ("side", JString (lo_side p));
       ("price", JString (lo_price p));
       ("post_only", JBool (or_false (lo_post_only p)));
       ("reduce_only", JBool (or_false (lo_reduce_only p))) ]) ].

Definition cancelOrderMessage (timestamp : Z) (orderId : string) : json :=
  JObject [
    ("timestamp", JNumber timestamp);
    ("expiry_window", JNumber 5000);
    ("type", JString "cancel_order");
    ("data", JObject [ ("order_id", JString orderId) ]) ].

Definition marketOrderBody (account agent signature : string) (timestamp : Z)
    (p : MarketOrderParams) : json :=
  JObject [
    ("account", JString account);
    ("agent_wallet", JString agent);
    ("signature", JString signature);
    ("timestamp", JNumber timestamp);
    ("expiry_window", JNumber 5000);
    ("symbol", JString (mo_symbol p));
    ("amount", JString (mo_amount p));
    ("side", JString (mo_side p));
    ("slippage_percent", JString (or_string (mo_slippage_percent p) "0.5"));
    ("reduce_only", JBool (or_false (mo_reduce_only p))) ].

Definition limitOrderBody (account agent signature : string) (timestamp : Z)
    (p : LimitOrderParams) : json :=
  JObject [
    ("account", JString account);
    ("agent_wallet", JString agent);
    ("signature", JString signature);
    ("timestamp", JNumber timestamp);
    ("expiry_window", JNumber 5000);
    ("symbol", JString (lo_symbol p));
    ("amount", JString (lo_amount p));
    ("side", JString (lo_side p));
    ("price", JString (lo_price p));
    ("post_only", JBool (or_false (lo_post_only p)));
    ("reduce_only", JBool (or_false (lo_reduce_only p))) ].

Definition cancelOrderBody (account agent signature : string) (timestamp : Z)
    (orderId : string) : json :=
  JObject [
    ("account", JString account);
    ("agent_wallet", JString agent);
    ("signature", JString signature);
    ("timestamp", JNumber timestamp);
    ("expiry_window", JNumber 5000);
    ("order_id", JString orderId) ].

Section Methods.
(** [nacl.sign.detached], [bs58.encode] and
    [nacl.sign.keyPair.fromSecretKey(key).publicKey] *)
Variable nacl_sign_detached : list Byte.byte -> list Byte.byte -> list Byte.byte.
Variable bs58_encode : list Byte.byte -> string.
Variable publicKeyOf : list Byte.byte -> list Byte.byte.

Variable c : Credentials.
(** [Date.now()] at the call *)
Variable timestamp : Z.

Definition unauthenticated {A} : exn + A :=
  inl (Error "Authentication required for trading operations").

(** The common frame of the three writes: the check, the agent key, the
    signature of [message], and the POST of the body built from them.
    [this.publicKey!] and [this.privateKey!] are defined once the check
    has passed. *)
Definition post (path : string) (message : json)
    (body : string -> string -> string -> json) : exn + Request :=
  if negb (requiresAuth c) then unauthenticated
  else
    match publicKey c, privateKey c with
    | Some account, Some key =>
        let agentPublicKey := bs58_encode (publicKeyOf key) in
        match sign nacl_sign_detached bs58_encode (privateKey c) message with
        | inl e => inl e
        | inr signature =>
            inr {| r_url := String.append (apiUrl c) path;
                   r_method := "POST";
                   r_body :=
                     Some (JSON_stringify
                             (body account agentPublicKey signature)) |}
        end
    | _, _ => unauthenticated
    end.

Definition createMarketOrder (p : MarketOrderParams) : exn + Request :=
  post "/orders/create_market"
       (marketOrderMessage timestamp (mo_symbol p) (mo_amount p) (mo_side p)
          (or_string (mo_slippage_percent p) "0.5")
          (or_false (mo_reduce_only p)))
       (fun account agent signature =>
          marketOrderBody account agent signature timestamp p).

Definition createLimitOrder (p : LimitOrderParams) : exn + Request :=
  post "/orders/create"
       (limitOrderMessage timestamp p)
       (fun account agent signature =>
          limitOrderBody account agent signature timestamp p).

Definition cancelOrder (orderId : string) : exn + Request :=
  post "/orders/cancel"
       (cancelOrderMessage timestamp orderId)
       (fun account agent signature =>
          cancelOrderBody account agent signature timestamp orderId).

(** The reads carry no signature. *)
Definition get (path : string) : Request :=
  {| r_url := String.append (apiUrl c) path;
     r_method := "GET";
     r_body := None |}.

Definition getAccountInfo (wallet : string) : Request :=
  get (String.append "/account?account=" wallet).

Definition getPositions (wallet : string) : Request :=
  get (String.append "/positions?account=" wallet).

Definition getOpenOrders (wallet : string) : Request :=
  get (String.append "/orders?account="
         (String.append wallet "&status=open")).

End Methods.

(** The fields of a request body cover a signed message: the body repeats
    the timestamp and the expiry window of the message and every field of
    its [data]. *)
Definition covers (body message : json) : Prop :=
  match body, message with
  | JObject b, JObject m =>
      obj_get b "timestamp" = obj_get m "timestamp" /\
      obj_get b "expiry_window" = obj_get m "expiry_window" /\
      match obj_get m "data" with
      | Some (JObject data) =>
          forall k v, obj_get data k = Some v -> obj_get b k = Some v
      | _ => False
      end
  | _, _ => False
  end.

(** Credentials with both keys. *)
Definition trader : Credentials := {|
  apiUrl := "https://api.example";
  publicKey := Some "W";
  privateKey := Some [Byte.x01; Byte.x02]
|}.

Definition sampleOrder : MarketOrderParams := {|
  mo_symbol := "BTC"; mo_amount := "0.001"; mo_side := "bid";
  mo_slippage_percent := None; mo_reduce_only := None
|}.

End Orders.

(* ===================================================================== *)
(** ** The messages of the feed (the ['message'] handler) *)
(* ===================================================================== *)

Module Inbound.
Import Js RestClient.

(** [v.key] for the names the handler reads ([channel], [data], [te], [s],
    [ts], [a], [p], [u]) on a value that is not [null]: a primitive or an
    array has none of them. *)
Definition get (v : json) (key : string) : option json :=
  match v with
  | JObject props => obj_get props key
  | _ => None
  end.

(** [v === s] *)
Definition equals (v : option json) (s : string) : bool :=
  match v with
  | Some (JString t) => String.eqb t s
  | _ => false
  end.

(** Truthiness of a parsed value or [undefined]. *)
Definition truthy_value (v : option json) : bool :=
  match v with
  | None => false
  | Some JNull => false
  | Some (JBool b) => b
  | Some (JNumber n) => negb (Z.eqb n 0)
  | Some (JString s) => negb (String.eqb s EmptyString)
  | Some (JArray _) => true
  | Some (JObject _) => true
  end.

Record ParsedTrade := {
  pt_symbol : option json;
  pt_side : option json;
  pt_amount : option json;
  pt_price : option json;
  pt_eventType : option json;
  pt_trader : option json;
  pt_timestamp : Z
}.

(** What the client emits while handling a message. *)
Inductive Emission :=
| EmitTrade (t : ParsedTrade)
| EmitError (e : exn).

(** The TypeError of reading the property [name] of [null]. *)
Definition nullRead (name : string) : exn :=
  Error (String.append "Cannot read properties of null (reading '"
           (String.append name "')")).
Definition notAFunction : exn := Error "message.data.forEach is not a function".

(** [trade.te === 'fulfill_maker' || trade.te === 'fulfill_taker'] *)
Definition isFill (trade : json) : bool :=
  equals (get trade "te") "fulfill_maker" || equals (get trade "te") "fulfill_taker".

Section Handler.
(** [Date.now()] when the i-th record of a message is handled *)
Variable Date_now : nat -> Z.

Definition parsedTrade (i : nat) (trade : json) : ParsedTrade := {|
  pt_symbol := get trade "s";
  pt_side := get trade "ts";
  pt_amount := get trade "a";
  pt_price := get trade "p";
  pt_eventType := get trade "te";
  pt_trader := get trade "u";
  pt_timestamp := Date_now i
|}.

(** The callback of [forEach] over the records from position [i] on: what
    was emitted, and the error that ended the loop, if any.  Reading [te]
    of a [null] record throws. *)
Fixpoint forEach (i : nat) (data : list json)
    : list Emission * option exn :=
  match data with
  | [] => ([], None)
  | JNull :: _ => ([], Some (nullRead "te"))
  | trade :: rest =>
      let '(emitted, thrown) := forEach (S i) rest in
      if isFill trade
      then (EmitTrade (parsedTrade i trade) :: emitted, thrown)
      else (emitted, thrown)
  end.

(** [handleTradeMessage]: [message.data.forEach(...)] exists on arrays
    only. *)
Definition handleTradeMessage (data : option json)
    : list Emission * option exn :=
  match data with
  | Some (JArray items) => forEach 0 items
  | _ => ([], Some notAFunction)
  end.

(** The ['message'] handler: [parsed] is the outcome of [JSON.parse]; any
    error thrown inside the [try] is emitted as ['error']. *)
Definition onMessage (parsed : exn + json) : list Emission :=
  match parsed with
  | inl e => [EmitError e]
  | inr JNull => [EmitError (nullRead "channel")]
  | inr message =>
      if equals (get message "channel") "pong" then []
      else if equals (get message "channel") "account_trades"
              && truthy_value (get message "data")
      then
        let '(emitted, thrown) := handleTradeMessage (get message "data") in
        emitted ++ match thrown with
                   | Some e => [EmitError e]
                   | None => []
                   end
      else []
  end.

End Handler.

(** The trades and the errors among emissions. *)
Fixpoint trades (out : list Emission) : list ParsedTrade :=
  match out with
  | [] => []
  | EmitTrade t :: rest => t :: trades rest
  | _ :: rest => trades rest
  end.

Fixpoint errors (out : list Emission) : list exn :=
  match out with
  | [] => []
  | EmitError e :: rest => e :: errors rest
  | _ :: rest => errors rest
  end.

(** The fields of a parsed trade that come from the record. *)
Definition content (t : ParsedTrade)
    : list (option json) :=
  [pt_symbol t; pt_side t; pt_amount t; pt_price t; pt_eventType t;
   pt_trader t].

Definition recordContent (trade : json) : list (option json) :=
  [get trade "s"; get trade "ts"; get trade "a"; get trade "p";
   get trade "te"; get trade "u"].

Definition notNull (v : json) : bool :=
  match v with
  | JNull => false
  | _ => true
  end.

(** An [account_trades] message carrying [records]. *)
Definition tradesMessage (records : list json) : json :=
  JObject [("channel", JString "account_trades"); ("data", JArray records)].

(** A record of the feed. *)
Definition record (te s ts a p u : string) : json :=
  JObject [("te", JString te); ("s", JString s); ("ts", JString ts);
           ("a", JString a); ("p", JString p); ("u", JString u)].

Definition clock : nat -> Z := fun i => (1700000000000 + Z.of_nat i)%Z.

End Inbound.

(* ===================================================================== *)
(** ** Market data and its cache ([getMarketInfo]) *)
(* ===================================================================== *)

Module MarketInfo.
Import Js RestClient Inbound.

(** The outcome of [fetch]: the status and what [response.json()] gives. *)
Record Response := {
  status : nat;
  body : exn + json
}.

Inductive Log :=
| Fetching
| ApiReturned (status : nat)
| ExpectedArray
| Fetched (markets : nat)
| LotSize (symbol : string) (lot_size : option json)
| FailedToFetch (e : exn).

(** [result?.data ?? result] *)
Definition unwrap (result : json) : json :=
  match get result "data" with
  | Some JNull => result
  | Some data => data
  | None => result
  end.

(** [markets.find(m => m.symbol === symbol)]; reading [symbol] of a
    [null] entry throws. *)
Fixpoint find (markets : list json) (symbol : string) : exn + option json :=
  match markets with
  | [] => inr None
  | JNull :: _ => inl (nullRead "symbol")
  | m :: rest =>
      if equals (get m "symbol") symbol then inr (Some m)
      else find rest symbol
  end.

(** [getMarketInfo(symbol)] is an [async] function in two parts: the test
    of [marketInfoCache], which answers at once on a hit, and, after the
    awaited [fetch] and [response.json()], the search of the answer and the
    write into the cache.  Other calls can start and end in between. *)

(** The second part of a call for [symbol], on the cache as it is when the
    request has settled with [fetched]: the market or [null], the cache
    afterwards, and what was logged.  The write does not look at the
    cache: an entry another call stored meanwhile is replaced. *)
Definition complete (cache : gmap string json) (fetched : exn + Response)
    (symbol : string) : option json * gmap string json * list Log :=
  match fetched with
  | inl e => (None, cache, [FailedToFetch e])
  | inr response =>
      if negb (RestClient.ok (status response))
      then (None, cache, [ApiReturned (status response)])
      else
        match body response with
        | inl e => (None, cache, [FailedToFetch e])
        | inr result =>
            match unwrap result with
            | JArray markets =>
                match find markets symbol with
                | inl e =>
                    (None, cache, [Fetched (length markets); FailedToFetch e])
                | inr (Some market) =>
                    if truthy_value (Some market)
                    then (Some market, <[symbol := market]> cache,
                          [Fetched (length markets);
                           LotSize symbol (get market "lot_size")])
                    else (None, cache, [Fetched (length markets)])
                | inr None => (None, cache, [Fetched (length markets)])
                end
            | _ => (None, cache, [ExpectedArray])
            end
        end
  end.

(** A call that runs to its end before any other call starts: a hit, or a
    miss whose request answers [fetched].  The result is the market or
    [null], with the cache afterwards and what was logged. *)
Definition getMarketInfo (cache : gmap string json) (fetched : exn + Response)
    (symbol : string) : option json * gmap string json * list Log :=
  match cache !! symbol with
  | Some market => (Some market, cache, [])
  | None =>
      let '(market, cache', logs) := complete cache fetched symbol in
      (market, cache', Fetching :: logs)
  end.

(** Calls that overlap: the cache, and the symbols of the calls that are
    suspended at their request, oldest first. *)
Record Session := {
  marketInfoCache : gmap string json;
  inflight : list string
}.

Inductive Step :=
| Call (symbol : string)
     (* a call starts: the test of the cache *)
| Settle (i : nat) (fetched : exn + Response).
     (* the request of the [i]-th suspended call settles *)

Inductive Outcome :=
| Hit (market : json)        (* answered from the cache, nothing asked *)
| Asked                      (* a miss: the request is sent *)
| Returned (symbol : string) (market : option json)
                             (* a suspended call returns *)
| NoSuchCall.

Definition step (s : Session) (x : Step) : Session * Outcome :=
  match x with
  | Call symbol =>
      match marketInfoCache s !! symbol with
      | Some market => (s, Hit market)
      | None =>
          ({| marketInfoCache := marketInfoCache s;
              inflight := inflight s ++ [symbol] |}, Asked)
      end
  | Settle i fetched =>
      match inflight s !! i with
      | Some symbol =>
          ({| marketInfoCache :=
                (complete (marketInfoCache s) fetched symbol).1.2;
              inflight := delete i (inflight s) |},
           Returned symbol (complete (marketInfoCache s) fetched symbol).1.1)
      | None => (s, NoSuchCall)
      end
  end.

Fixpoint steps (s : Session) (l : list Step) : Session * list Outcome :=
  match l with
  | [] => (s, [])
  | x :: rest =>
      let '(s1, o) := step s x in
      let '(s2, os) := steps s1 rest in
      (s2, o :: os)
  end.

(** The server at start-up: nothing cached, nothing asked. *)
Definition fresh : Session := {| marketInfoCache := ∅; inflight := [] |}.

(** A sequence of calls, each with the answer the API would give. *)
Fixpoint calls (cache : gmap string json) (l : list (string * (exn + Response)))
    : gmap string json * list (option json * list Log) :=
  match l with
  | [] => (cache, [])
  | (symbol, fetched) :: rest =>
      let '(market, cache1, logs) := getMarketInfo cache fetched symbol in
      let '(cache2, results) := calls cache1 rest in
      (cache2, (market, logs) :: results)
  end.

(** Every entry of the cache is a market of the symbol it is stored
    under. *)
Definition keyed (cache : gmap string json) : Prop :=
  forall k v, cache !! k = Some v -> get v "symbol" = Some (JString k).

(** An [/info] answer listing SOL and BTC. *)
Definition listing : exn + Response :=
  inr {| status := 200;
         body := inr (JObject [("success", JBool true);
                   ("data", JArray [
                      JObject [("symbol", JString "SOL");
                               ("lot_size", JString "0.01")];
                      JObject [("symbol", JString "BTC");
                               ("lot_size", JString "0.00001")] ])]) |}.

Definition outage : exn + Response :=
  inr {| status := 503; body := inl (Error "Unexpected token") |}.

(** A later [/info] answer in which the lot size of SOL has changed. *)
Definition relisting : exn + Response :=
  inr {| status := 200;
         body := inr (JArray [
                   JObject [("symbol", JString "SOL");
                            ("lot_size", JString "0.1")] ]) |}.

Definition sol (lot_size : string) : json :=
  JObject [("symbol", JString "SOL"); ("lot_size", JString lot_size)].

End MarketInfo.

(* ===================================================================== *)
(** ** The relationship routes ([/api/copy/create], PATCH) *)
(* ===================================================================== *)

Module Routes.
Import Js Replication.

(** A value of the [symbol_multipliers] object of a request, as
    [express.json()] hands it over: a number, a string, or anything else
    ([true], [false], [null], an array, an object), given by the text
    [String] makes of it. *)
Inductive RawValue :=
| RawNumber (x : float)
| RawString (s : string)
| RawOther (text : string).

(** The [symbol_multipliers] of a request body: a primitive or an array,
    or an object, given by its entries (the keys are distinct). *)
Inductive Multipliers :=
| NotAnObject
| Entries (l : list (string * RawValue)).

(** The body of [POST /api/copy/create].  A wallet, key or method is a
    string, or [None] when absent; [cb_sizing_value] is [None] for
    [undefined] and otherwise what [parseFloat] yields; the optional
    numbers are [None] for [undefined] and [null] and otherwise what
    [parseFloat] (for the leverage: [parseInt]) yields, NaN included.
    These are the numbers the route checks and the numbers it stores.  The
    symbol multipliers are kept as the request carries them: the route
    checks what [parseFloat] yields for each and stores the object
    itself. *)
Record CreateBody := {
  cb_user_wallet : option string;
  cb_api_key : option string;
  cb_master_wallet : option string;
  cb_sizing_method : option string;
  cb_sizing_value : option float;
  cb_max_position_cap : option float;
  cb_symbols : option (list string);
  cb_custom_leverage : option float;
  cb_max_total_exposure : option float;
  cb_symbol_multipliers : option Multipliers
}.

(** A row of the relationship table as the routes write it: the columns
    of a [CopyRelationship], the symbol multipliers being the entries of
    the stored object with the values the request gave them. *)
Record Row := {
  row_user_wallet : string;
  row_encrypted_api_key : string;
  row_master_wallet : string;
  row_sizing_method : SizingMethod;
  row_sizing_value : float;
  row_max_position_cap : option float;
  row_symbols : list string;
  row_is_active : bool;
  row_custom_leverage : option float;
  row_max_total_exposure : option float;
  row_symbol_multipliers : option (list (string * RawValue))
}.

Inductive Reply :=
| Created (row : Row)                (* 201 *)
| Updated (row : Row)                (* 200 *)
| BadRequest (error : string)        (* 400 *)
| Forbidden                          (* 403 *)
| NotFound                           (* 404 *)
| ServerError.                       (* 500 *)

(** [!s] on an optional string *)
Definition missing (s : option string) : bool :=
  match s with
  | Some x => String.eqb x EmptyString
  | None => true
  end.

(** The method named by a string of [validMethods]. *)
Definition methodOf (method : string) : option SizingMethod :=
  if String.eqb method "multiplier" then Some multiplier
  else if String.eqb method "fixed_usd" then Some fixed_usd
  else if String.eqb method "balance_percent" then Some balance_percent
  else None.

(** The switch that validates [sizing_value] against the method. *)
Definition sizingError (method : SizingMethod) (value : float)
    : option string :=
  match method with
  | multiplier =>
      if (value <? 0.01)%float || (2.0 <? value)%float
      then Some "sizing_value for multiplier method must be between 0.01 and 2.0"
      else None
  | fixed_usd =>
      if (value <? 10)%float
      then Some "sizing_value for fixed_usd method must be at least $10"
      else None
  | balance_percent =>
      if (value <? 1)%float || (100 <? value)%float
      then Some "sizing_value for balance_percent method must be between 1 and 100"
      else None
  | other_method _ => None
  end.

(** [isNaN(x) || x <= 0] *)
Definition notPositive (x : float) : bool :=
  is_nan x || (x <=? 0)%float.

(** [isNaN(x) || x < lo || x > hi] *)
Definition outside (lo hi x : float) : bool :=
  is_nan x || (x <? lo)%float || (hi <? x)%float.

Definition multiplierError (symbol : string) : string :=
  String.append "Symbol multiplier for "
    (String.append symbol " must be between 0.01 and 1.0").

Section Parsing.
(** [parseFloat] on a text: the number its leading characters spell, NaN
    when they spell none. *)
Variable parseFloat : string -> float.

(** [parseFloat(mult as string)]: the argument is turned into its text and
    the text is parsed.  The text of a number spells that number, [-0]
    being written ["0"]. *)
Definition parsed (mult : RawValue) : float :=
  match mult with
  | RawNumber x => if (x =? 0)%float then 0%float else x
  | RawString s => parseFloat s
  | RawOther text => parseFloat text
  end.

(** The loop over [Object.entries(symbol_multipliers)]: the first symbol
    whose multiplier does not parse to a number within [0.01, 1.0]. *)
Fixpoint badMultiplier (l : list (string * RawValue)) : option string :=
  match l with
  | [] => None
  | (symbol, mult) :: rest =>
      if outside 0.01 1.0 (parsed mult) then Some symbol
      else badMultiplier rest
  end.

Definition multipliersError (m : option Multipliers) : option Reply :=
  match m with
  | Some NotAnObject =>
      Some (BadRequest
        "symbol_multipliers must be an object with symbol keys and multiplier values")
  | Some (Entries l) =>
      match badMultiplier l with
      | Some symbol => Some (BadRequest (multiplierError symbol))
      | None => None
      end
  | None => None
  end.

End Parsing.

(** [symbol_multipliers || null]: the object of the request, as it is. *)
Definition storedMultipliers (m : option Multipliers)
    : option (list (string * RawValue)) :=
  match m with
  | Some (Entries l) => Some l
  | _ => None
  end.

Section Services.
Variable parseFloat : string -> float.
(** [String.prototype.trim] and [bs58.decode] *)
Variable trim : string -> string.
Variable bs58_decode : string -> exn + list Byte.byte.
(** [Trader.findOne]: [is_approved] of the row of the wallet, if any *)
Variable findOne : string -> exn + option bool.
Variable encryptApiKey : string -> exn + string.
(** [CopyRelationship.create]: does it succeed? *)
Variable create : Row -> exn + unit.

Definition isValidBase58 (str : string) : bool :=
  match bs58_decode str with
  | inr _ => true
  | inl _ => false
  end.

Definition isValidSolanaPrivateKey (str : string) : bool :=
  if String.eqb str EmptyString then false
  else
    let str := trim str in
    if negb (isValidBase58 str) then false
    else match bs58_decode str with
         | inr decoded => (length decoded =? 64)%nat
         | inl _ => false
         end.

(** The checks of the optional controls, shared by the two routes in
    their wording: the reply of the first that fails. *)
Definition capError (cap : option float) : option Reply :=
  match cap with
  | Some c => if notPositive c
              then Some (BadRequest "max_position_cap must be greater than 0")
              else None
  | None => None
  end.

Definition leverageError (leverage : option float) : option Reply :=
  match leverage with
  | Some l => if outside 1 50 l
              then Some (BadRequest "custom_leverage must be between 1 and 50")
              else None
  | None => None
  end.

Definition exposureError (exposure : option float) : option Reply :=
  match exposure with
  | Some e => if notPositive e
              then Some (BadRequest "max_total_exposure must be greater than 0")
              else None
  | None => None
  end.

(** [POST /api/copy/create] *)
Definition createRelationship (body : CreateBody) : Reply :=
  if missing (cb_user_wallet body) || missing (cb_api_key body)
     || missing (cb_master_wallet body)
  then BadRequest "user_wallet, api_key, and master_wallet are required"
  else
    let user_wallet := default EmptyString (cb_user_wallet body) in
    let api_key := default EmptyString (cb_api_key body) in
    let master_wallet := default EmptyString (cb_master_wallet body) in
    let method :=
      if missing (cb_sizing_method body) then "multiplier"
      else default EmptyString (cb_sizing_method body) in
    match methodOf method with
    | None =>
        BadRequest
          "sizing_method must be one of: multiplier, fixed_usd, balance_percent"
    | Some method =>
    let value := default 0.5%float (cb_sizing_value body) in
    match sizingError method value with
    | Some error => BadRequest error
    | None =>
    match capError (cb_max_position_cap body) with
    | Some reply => reply
    | None =>
    if negb (isValidSolanaPrivateKey api_key)
    then BadRequest
      "Invalid API agent key format. Must be a valid base58-encoded Solana private key (64 bytes)."
    else
    match leverageError (cb_custom_leverage body) with
    | Some reply => reply
    | None =>
    match exposureError (cb_max_total_exposure body) with
    | Some reply => reply
    | None =>
    match multipliersError parseFloat (cb_symbol_multipliers body) with
    | Some reply => reply
    | None =>
    match findOne user_wallet with
    | inl _ => ServerError
    | inr None => Forbidden
    | inr (Some false) => Forbidden
    | inr (Some true) =>
    match encryptApiKey api_key with
    | inl _ => ServerError
    | inr encrypted =>
        let row := {|
          row_user_wallet := user_wallet;
          row_encrypted_api_key := encrypted;
          row_master_wallet := master_wallet;
          row_sizing_method := method;
          row_sizing_value := value;
          row_max_position_cap := cb_max_position_cap body;
          row_symbols := default [] (cb_symbols body);
          row_is_active := true;
          row_custom_leverage := cb_custom_leverage body;
          row_max_total_exposure := cb_max_total_exposure body;
          row_symbol_multipliers :=
            storedMultipliers (cb_symbol_multipliers body)
        |} in
        match create row with
        | inl _ => ServerError
        | inr _ => Created row
        end
    end end end end end end end end.

End Services.

(** A field of the PATCH body that tells [null] from [undefined]. *)
Inductive Field (A : Type) :=
| Undefined
| Null
| Given (a : A).
Arguments Undefined {A}.
Arguments Null {A}.
Arguments Given {A} a.

(** The body of [PATCH /api/copy/relationships/:id]; [None] stands for
    [undefined], the numbers are what [parseFloat] / [parseInt] yield, the
    symbol multipliers are as the request carries them. *)
Record PatchBody := {
  pb_is_active : option bool;
  pb_sizing_method : option string;
  pb_sizing_value : option float;
  pb_max_position_cap : Field float;
  pb_symbols : option (list string);
  pb_custom_leverage : Field float;
  pb_max_total_exposure : Field float;
  pb_symbol_multipliers : Field Multipliers
}.

(** Assignments to the fields of the loaded relationship. *)
Definition set_is_active (r : Row) (b : bool) : Row :=
  {| row_user_wallet := row_user_wallet r;
     row_encrypted_api_key := row_encrypted_api_key r;
     row_master_wallet := row_master_wallet r;
     row_sizing_method := row_sizing_method r;
     row_sizing_value := row_sizing_value r;
     row_max_position_cap := row_max_position_cap r;
     row_symbols := row_symbols r; row_is_active := b;
     row_custom_leverage := row_custom_leverage r;
     row_max_total_exposure := row_max_total_exposure r;
     row_symbol_multipliers := row_symbol_multipliers r |}.

Definition set_sizing_method (r : Row) (m : SizingMethod) : Row :=
  {| row_user_wallet := row_user_wallet r;
     row_encrypted_api_key := row_encrypted_api_key r;
     row_master_wallet := row_master_wallet r;
     row_sizing_method := m;
     row_sizing_value := row_sizing_value r;
     row_max_position_cap := row_max_position_cap r;
     row_symbols := row_symbols r; row_is_active := row_is_active r;
     row_custom_leverage := row_custom_leverage r;
     row_max_total_exposure := row_max_total_exposure r;
     row_symbol_multipliers := row_symbol_multipliers r |}.

Definition set_sizing_value (r : Row) (v : float) : Row :=
  {| row_user_wallet := row_user_wallet r;
     row_encrypted_api_key := row_encrypted_api_key r;
     row_master_wallet := row_master_wallet r;
     row_sizing_method := row_sizing_method r;
     row_sizing_value := v;
     row_max_position_cap := row_max_position_cap r;
     row_symbols := row_symbols r; row_is_active := row_is_active r;
     row_custom_leverage := row_custom_leverage r;
     row_max_total_exposure := row_max_total_exposure r;
     row_symbol_multipliers := row_symbol_multipliers r |}.

Definition set_max_position_cap (r : Row) (c : option float) : Row :=
  {| row_user_wallet := row_user_wallet r;
     row_encrypted_api_key := row_encrypted_api_key r;
     row_master_wallet := row_master_wallet r;
     row_sizing_method := row_sizing_method r;
     row_sizing_value := row_sizing_value r;
     row_max_position_cap := c;
     row_symbols := row_symbols r; row_is_active := row_is_active r;
     row_custom_leverage := row_custom_leverage r;
     row_max_total_exposure := row_max_total_exposure r;
     row_symbol_multipliers := row_symbol_multipliers r |}.

Definition set_symbols (r : Row) (l : list string) : Row :=
  {| row_user_wallet := row_user_wallet r;
     row_encrypted_api_key := row_encrypted_api_key r;
     row_master_wallet := row_master_wallet r;
     row_sizing_method := row_sizing_method r;
     row_sizing_value := row_sizing_value r;
     row_max_position_cap := row_max_position_cap r;
     row_symbols := l; row_is_active := row_is_active r;
     row_custom_leverage := row_custom_leverage r;
     row_max_total_exposure := row_max_total_exposure r;
     row_symbol_multipliers := row_symbol_multipliers r |}.

Definition set_custom_leverage (r : Row) (l : option float) : Row :=
  {| row_user_wallet := row_user_wallet r;
     row_encrypted_api_key := row_encrypted_api_key r;
     row_master_wallet := row_master_wallet r;
     row_sizing_method := row_sizing_method r;
     row_sizing_value := row_sizing_value r;
     row_max_position_cap := row_max_position_cap r;
     row_symbols := row_symbols r; row_is_active := row_is_active r;
     row_custom_leverage := l;
     row_max_total_exposure := row_max_total_exposure r;
     row_symbol_multipliers := row_symbol_multipliers r |}.

Definition set_max_total_exposure (r : Row) (e : option float) : Row :=
  {| row_user_wallet := row_user_wallet r;
     row_encrypted_api_key := row_encrypted_api_key r;
     row_master_wallet := row_master_wallet r;
     row_sizing_method := row_sizing_method r;
     row_sizing_value := row_sizing_value r;
     row_max_position_cap := row_max_position_cap r;
     row_symbols := row_symbols r; row_is_active := row_is_active r;
     row_custom_leverage := row_custom_leverage r;
     row_max_total_exposure := e;
     row_symbol_multipliers := row_symbol_multipliers r |}.

Definition set_symbol_multipliers (r : Row)
    (m : option (list (string * RawValue))) : Row :=
  {| row_user_wallet := row_user_wallet r;
     row_encrypted_api_key := row_encrypted_api_key r;
     row_master_wallet := row_master_wallet r;
     row_sizing_method := row_sizing_method r;
     row_sizing_value := row_sizing_value r;
     row_max_position_cap := row_max_position_cap r;
     row_symbols := row_symbols r; row_is_active := row_is_active r;
     row_custom_leverage := row_custom_leverage r;
     row_max_total_exposure := row_max_total_exposure r;
     row_symbol_multipliers := m |}.

(** One optional number of the PATCH body: kept when [undefined], cleared
    by [null], validated and assigned otherwise. *)
Definition patchNumber (field : Field float) (bad : float -> bool)
    (error : string) (assign : Row -> option float -> Row)
    (r : Row) : Reply + Row :=
  match field with
  | Undefined => inr r
  | Null => inr (assign r None)
  | Given x => if bad x then inl (BadRequest error) else inr (assign r (Some x))
  end.

(** The stages of the PATCH handler that can refuse the request. *)
Definition patchMethod (name : option string) (r : Row) : Reply + Row :=
  match name with
  | Some name =>
      match methodOf name with
      | Some m => inr (set_sizing_method r m)
      | None =>
          inl (BadRequest
            "sizing_method must be one of: multiplier, fixed_usd, balance_percent")
      end
  | None => inr r
  end.

(** The value is checked against the method the row has by now. *)
Definition patchValue (value : option float) (r : Row) : Reply + Row :=
  match value with
  | Some value =>
      match sizingError (row_sizing_method r) value with
      | Some error => inl (BadRequest error)
      | None => inr (set_sizing_value r value)
      end
  | None => inr r
  end.

Section Patch.
Variable parseFloat : string -> float.
(** [relationship.save()]: does it succeed? *)
Variable save : Row -> exn + unit.

(** The multipliers are checked as parsed and assigned as given. *)
Definition patchMultipliers (field : Field Multipliers) (r : Row)
    : Reply + Row :=
  match field with
  | Undefined => inr r
  | Null => inr (set_symbol_multipliers r None)
  | Given NotAnObject =>
      inl (BadRequest
        "symbol_multipliers must be an object with symbol keys and multiplier values")
  | Given (Entries l) =>
      match badMultiplier parseFloat l with
      | Some symbol => inl (BadRequest (multiplierError symbol))
      | None => inr (set_symbol_multipliers r (Some l))
      end
  end.

(** [PATCH /api/copy/relationships/:id]; [found] is the outcome of
    [CopyRelationship.findByPk(id)].  The fields are assigned on the loaded
    row one after the other; a failed check returns before [save]. *)
Definition patchRelationship (found : exn + option Row)
    (body : PatchBody) : Reply :=
  match found with
  | inl _ => ServerError
  | inr None => NotFound
  | inr (Some relationship) =>
    let r :=
      match pb_is_active body with
      | Some b => set_is_active relationship b
      | None => relationship
      end in
    match patchMethod (pb_sizing_method body) r with
    | inl reply => reply
    | inr r =>
    match patchValue (pb_sizing_value body) r with
    | inl reply => reply
    | inr r =>
    match patchNumber (pb_max_position_cap body) notPositive
            "max_position_cap must be greater than 0" set_max_position_cap r
    with
    | inl reply => reply
    | inr r =>
    let r :=
      match pb_symbols body with
      | Some l => set_symbols r l
      | None => r
      end in
    match patchNumber (pb_custom_leverage body) (outside 1 50)
            "custom_leverage must be between 1 and 50" set_custom_leverage r
    with
    | inl reply => reply
    | inr r =>
    match patchNumber (pb_max_total_exposure body) notPositive
            "max_total_exposure must be greater than 0"
            set_max_total_exposure r
    with
    | inl reply => reply
    | inr r =>
    match patchMultipliers (pb_symbol_multipliers body) r with
    | inl reply => reply
    | inr r =>
        match save r with
        | inl _ => ServerError
        | inr _ => Updated r
        end
    end end end end end end
  end.

End Patch.

(** The fields the later stages of PATCH leave alone. *)
Definition core (r : Row)
    : string * string * string * SizingMethod * float :=
  (row_user_wallet r, row_encrypted_api_key r, row_master_wallet r,
   row_sizing_method r, row_sizing_value r).

(** The ranges as the API documents them. *)
Definition within (lo hi x : float) : bool :=
  (lo <=? x)%float && (x <=? hi)%float.

Definition in_range (method : SizingMethod) (value : float) : bool :=
  match method with
  | multiplier => within 0.01 2 value
  | fixed_usd => (10 <=? value)%float
  | balance_percent => within 1 100 value
  | other_method _ => true
  end.

(** The optional limits of a relationship are in their ranges: a cap and
    an exposure limit above zero, a leverage within [1, 50], every symbol
    multiplier within [0.01, 1]. *)
Definition limits_valid (r : CopyRelationship) : Prop :=
  (forall c, max_position_cap r = Some c -> (0 <? c)%float = true) /\
  (forall l, custom_leverage r = Some l -> within 1 50 l = true) /\
  (forall e, max_total_exposure r = Some e -> (0 <? e)%float = true) /\
  (forall m k x, symbol_multipliers r = Some m -> m !! k = Some x ->
                 within 0.01 1 x = true).

(** The same of a stored row, as far as the routes see to it: the numbers
    are in their ranges, and every symbol multiplier, whatever it is,
    parses to a number within [0.01, 1]. *)
Definition row_limits_checked (parseFloat : string -> float) (r : Row)
    : Prop :=
  (forall c, row_max_position_cap r = Some c -> (0 <? c)%float = true) /\
  (forall l, row_custom_leverage r = Some l -> within 1 50 l = true) /\
  (forall e, row_max_total_exposure r = Some e -> (0 <? e)%float = true) /\
  (forall l k mult, row_symbol_multipliers r = Some l -> In (k, mult) l ->
                    within 0.01 1 (parsed parseFloat mult) = true).

(** The sizing value passed the check of its method. *)
Definition sizing_checked (r : Row) : Prop :=
  sizingError (row_sizing_method r) (row_sizing_value r) = None.

(** The entries of an object whose values are all numbers. *)
Fixpoint numbers (l : list (string * RawValue))
    : option (list (string * float)) :=
  match l with
  | [] => Some []
  | (k, RawNumber x) :: rest =>
      match numbers rest with
      | Some rest' => Some ((k, x) :: rest')
      | None => None
      end
  | _ => None
  end.

(** The relationship the replication reads from a row: defined when the
    stored multipliers are numbers, as the type of the column has them. *)
Definition relationshipOf (r : Row) : option CopyRelationship :=
  match
    match row_symbol_multipliers r with
    | Some l =>
        match numbers l with
        | Some l' => Some (Some (list_to_map l' : gmap string float))
        | None => None
        end
    | None => Some None
    end
  with
  | Some multipliers =>
      Some {| user_wallet := row_user_wallet r;
              encrypted_api_key := row_encrypted_api_key r;
              master_wallet := row_master_wallet r;
              sizing_method := row_sizing_method r;
              sizing_value := row_sizing_value r;
              max_position_cap := row_max_position_cap r;
              symbols := row_symbols r;
              is_active := row_is_active r;
              custom_leverage := row_custom_leverage r;
              max_total_exposure := row_max_total_exposure r;
              symbol_multipliers := multipliers |}
  | None => None
  end.

(** A row of copier ["U"] on master ["M"] without any limit. *)
Definition plainRow (method : SizingMethod) (value : float) : Row := {|
  row_user_wallet := "U";
  row_encrypted_api_key := "iv:tag:data";
  row_master_wallet := "M";
  row_sizing_method := method;
  row_sizing_value := value;
  row_max_position_cap := None;
  row_symbols := [];
  row_is_active := true;
  row_custom_leverage := None;
  row_max_total_exposure := None;
  row_symbol_multipliers := None
|}.

(** A body that names a sizing method and nothing else. *)
Definition switchTo (method : string) : PatchBody := {|
  pb_is_active := None; pb_sizing_method := Some method;
  pb_sizing_value := None;
  pb_max_position_cap := Undefined; pb_symbols := None;
  pb_custom_leverage := Undefined; pb_max_total_exposure := Undefined;
  pb_symbol_multipliers := Undefined
|}.

(** A body that gives a sizing value, a position cap and symbol
    multipliers. *)
Definition resize (value : float) (cap : Field float)
    (multipliers : Field Multipliers) : PatchBody := {|
  pb_is_active := None; pb_sizing_method := None;
  pb_sizing_value := Some value;
  pb_max_position_cap := cap; pb_symbols := None;
  pb_custom_leverage := Undefined; pb_max_total_exposure := Undefined;
  pb_symbol_multipliers := multipliers
|}.

(** A complete body for the create route. *)
Definition request (method : string) (value : float) (cap leverage
    exposure : option float) (multipliers : list (string * RawValue))
    : CreateBody := {|
  cb_user_wallet := Some "U";
  cb_api_key := Some "key";
  cb_master_wallet := Some "M";
  cb_sizing_method := Some method;
  cb_sizing_value := Some value;
  cb_max_position_cap := cap;
  cb_symbols := None;
  cb_custom_leverage := leverage;
  cb_max_total_exposure := exposure;
  cb_symbol_multipliers := Some (Entries multipliers)
|}.

(** Services that accept every key, know every trader as approved and
    never fail. *)
Definition decode64 : string -> exn + list Byte.byte :=
  fun _ => inr (repeat Byte.x00 64).
Definition approved : string -> exn + option bool := fun _ => inr (Some true).
Definition sealed : string -> exn + string := fun _ => inr "iv:tag:data".
Definition accepted : Row -> exn + unit := fun _ => inr tt.

(** What [parseFloat] yields for the texts of the examples: ["0.5x"]
    starts with 0.5, the others with no number. *)
Definition leading : string -> float :=
  fun text => if String.eqb text "0.5x" then 0.5%float else PrimFloat.nan.

End Routes.

(* ===================================================================== *)
(** * Properties *)
(* ===================================================================== *)

Module JsFacts.
Import Js.

Example Math_floor_pos : Math_floor 2.75%float = 2%float.
Proof. reflexivity. Qed.
Example Math_floor_neg : Math_floor (-2.25)%float = (-3)%float.
Proof. reflexivity. Qed.
Example Math_floor_small : Math_floor 0.5%float = 0%float.
Proof. reflexivity. Qed.
Example Math_floor_big : Math_floor 1e300%float = 1e300%float.
Proof. reflexivity. Qed.
Example Math_min_nan :
  is_nan (Math_min 1%float PrimFloat.nan) = true.
Proof. reflexivity. Qed.


(** *** Comparisons of binary64 values *)

Lemma SFcompare_antisym (x y : spec_float) (c : comparison) :
  SFcompare x y = Some c -> SFcompare y x = Some (CompOpp c).
Proof.
  destruct x as [sx|sx| |sx mx ex], y as [sy|sy| |sy my ey]; simpl;
    intros H; try discriminate H; injection H as <-;
    try (destruct sx; reflexivity); try (destruct sy; reflexivity);
    try (destruct sx, sy; reflexivity).
  destruct sx, sy; try reflexivity;
    rewrite (Z.compare_antisym ex ey);
    destruct (ex ?= ey)%Z; simpl; try reflexivity;
    change Eq with (CompOpp Eq) at 1;
    rewrite <- (Pos.compare_cont_antisym mx my Eq);
    rewrite ?CompOpp_involutive; reflexivity.
Qed.

Lemma SFcompare_None (x y : spec_float) :
  SFcompare x y = None -> x = S754_nan \/ y = S754_nan.
Proof.
  destruct x as [sx|sx| |sx mx ex], y as [sy|sy| |sy my ey]; simpl;
    intros H; try discriminate H; auto.
Qed.

Lemma is_nan_false (x : float) :
  is_nan x = false -> Prim2SF x <> S754_nan.
Proof.
  unfold is_nan. rewrite FloatAxioms.eqb_spec. intros H E. rewrite E in H.
  discriminate H.
Qed.

(** On numbers, [!(a < b)] is [b <= a]. *)
Lemma not_ltb_leb (a b : float) :
  is_nan a = false -> is_nan b = false ->
  PrimFloat.ltb a b = false -> PrimFloat.leb b a = true.
Proof.
  intros Ha Hb. rewrite FloatAxioms.ltb_spec, FloatAxioms.leb_spec.
  unfold SFltb, SFleb.
  destruct (SFcompare (Prim2SF a) (Prim2SF b)) as [c|] eqn:E.
  - rewrite (SFcompare_antisym _ _ _ E).
    destruct c; simpl; intros H; try reflexivity; discriminate H.
  - apply SFcompare_None in E as [E|E];
      [apply is_nan_false in Ha | apply is_nan_false in Hb]; contradiction.
Qed.

End JsFacts.

Module ReplicationFacts.
Import Js JsFacts Replication.
Local Open Scope js_scope.

(** *** Laws of the control structure *)

Lemma trace_bind {A B} (m : M A) (f : A -> M B) :
  trace (bind m f) =
  trace m ++ match result m with
             | Val a => trace (f a)
             | _ => []
             end.
Proof.
  destruct m as [t [a| |e]]; simpl; rewrite ?app_nil_r; try reflexivity.
  destruct (f a); reflexivity.
Qed.

Lemma result_bind {A B} (m : M A) (f : A -> M B) :
  result (bind m f) =
  match result m with
  | Val a => result (f a)
  | Return => Return
  | Throw e => Throw e
  end.
Proof.
  destruct m as [t [a| |e]]; simpl; try reflexivity.
  destruct (f a); reflexivity.
Qed.

Lemma orders_app (t1 t2 : list Event) :
  orders (t1 ++ t2) = orders t1 ++ orders t2.
Proof.
  induction t1 as [|e t1 IH]; simpl; [reflexivity|].
  destruct e; simpl; rewrite IH; reflexivity.
Qed.

Lemma orders_bind {A B} (m : M A) (f : A -> M B) :
  orders (trace m) = [] ->
  orders (trace (bind m f)) =
  match result m with
  | Val a => orders (trace (f a))
  | _ => []
  end.
Proof.
  intros H. rewrite trace_bind, orders_app, H. simpl.
  destruct (result m); reflexivity.
Qed.

Lemma trace_call (m : M unit) : trace (call m) = trace m.
Proof. destruct m as [t [[]| |e]]; reflexivity. Qed.

Lemma trace_try_catch {A} (m : M A) (h : exn -> M A) :
  trace (try_catch m h) =
  trace m ++ match result m with
             | Throw e => trace (h e)
             | _ => []
             end.
Proof.
  destruct m as [t [a| |e]]; simpl; rewrite ?app_nil_r; try reflexivity.
  destruct (h e); reflexivity.
Qed.

Lemma result_try_catch {A} (m : M A) (h : exn -> M A) :
  result (try_catch m h) =
  match result m with
  | Throw e => result (h e)
  | r => r
  end.
Proof.
  destruct m as [t [a| |e]]; simpl; try reflexivity.
  destruct (h e); reflexivity.
Qed.

Lemma result_call (m : M unit) :
  result (call m) =
  match result m with
  | Return => Val tt
  | r => r
  end.
Proof. destruct m as [t [[]| |e]]; reflexivity. Qed.

Lemma M_eta {A} (m : M A) : m = (trace m, result m).
Proof. destruct m; reflexivity. Qed.

(** *** Stages that never reach the execution client *)

Section Stages.
Variable env : Env.

Lemma when_log_orders (c : bool) (m : LogMsg) :
  orders (trace (when c (log m))) = [].
Proof. destruct c; reflexivity. Qed.

Lemma lift_trace {A} (r : exn + A) : trace (lift r) = [].
Proof. destruct r; reflexivity. Qed.

Lemma baseAmount_orders rel trade :
  orders (trace (baseAmount env rel trade)) = [].
Proof.
  unfold baseAmount, readAccountInfo.
  destruct (sizing_method rel); try reflexivity.
  destruct (getAccountInfo env (user_wallet rel) 0) as [e|[[] [x|]]];
    reflexivity.
Qed.

Lemma readBalance_orders rel :
  orders (trace (readBalance env rel)) = [].
Proof.
  unfold readBalance, readAccountInfo.
  destruct (getAccountInfo env (user_wallet rel) (balanceReadIndex rel))
    as [e|[[] [x|]]]; reflexivity.
Qed.

Lemma applyLeverageLimit_orders rel trade available lotSize a :
  orders (trace (applyLeverageLimit rel trade available lotSize a)) = [].
Proof.
  unfold applyLeverageLimit.
  destruct (truthy_opt (custom_leverage rel)); [|reflexivity].
  rewrite orders_bind by apply when_log_orders.
  destruct (result (when _ _)); try reflexivity.
  destruct (_ <=? _)%float; reflexivity.
Qed.

Lemma checkExposure_orders rel trade a :
  orders (trace (checkExposure env rel trade a)) = [].
Proof.
  unfold checkExposure.
  destruct (truthy_opt (max_total_exposure rel)); [|reflexivity].
  destruct (publicRestClient env); [|reflexivity].
  destruct (getPositions env (user_wallet rel))
    as [e|[[] [[items|[|ps|]]|]]]; try reflexivity;
    simpl; destruct (_ <? _)%float; reflexivity.
Qed.

Lemma formatAmount_orders (a : float) (decimals : nat) :
  orders (trace (lift (formatAmount a decimals))) = [].
Proof. rewrite lift_trace. reflexivity. Qed.

Lemma newClient_orders wallet apiKey :
  orders (trace (newClient env wallet apiKey)) = [].
Proof.
  unfold newClient. destruct (nonempty apiKey); [|reflexivity].
  destruct (bs58_decode env apiKey); reflexivity.
Qed.

Lemma createMarketOrder_orders c p :
  orders (trace (createMarketOrder env c p)) = [(uc_publicKey c, p)].
Proof.
  unfold createMarketOrder. rewrite trace_bind, orders_app. simpl.
  destruct (_ && _); [rewrite lift_trace|]; reflexivity.
Qed.

End Stages.

(** *** What a submitted order implies *)

Lemma order_bind_inv {A B} (m : M A) (f : A -> M B) x :
  orders (trace m) = [] ->
  In x (orders (trace (bind m f))) ->
  exists a, result m = Val a /\ In x (orders (trace (f a))).
Proof.
  intros H Hin. rewrite orders_bind in Hin by exact H.
  destruct (result m); [eauto | destruct Hin | destruct Hin].
Qed.

Lemma replicateToUser_orders env rel trade :
  orders (trace (replicateToUser env rel trade)) =
  orders (trace (replicateToUser_body env rel trade)).
Proof.
  unfold replicateToUser.
  rewrite trace_call, trace_try_catch, orders_app.
  destruct (result (replicateToUser_body env rel trade));
    simpl; rewrite app_nil_r; reflexivity.
Qed.

(** Every order that reaches the execution client went through all the
    gates of the pipeline, in order. *)
Lemma submit_inv env rel trade w p :
  In (w, p) (orders (trace (replicateToUser env rel trade))) ->
  exists base available,
    result (baseAmount env rel trade) = Val base /\
    (sizedAmount env rel trade base <=? 0)%float = false /\
    result (readBalance env rel) = Val available /\
    result (applyLeverageLimit rel trade available
              (default default_lot_size
                 (getMarketInfo env (toUpperCase (symbol trade))))
              (sizedAmount env rel trade base)) = Val (om_amount p) /\
    formatAmount (om_amount p)
      (decimalsOf (default default_lot_size
                     (getMarketInfo env (toUpperCase (symbol trade)))))
      = inr (om_formattedAmount p) /\
    (available <? om_amount p * price trade)%float = false /\
    result (checkExposure env rel trade (om_amount p)) = Val tt /\
    w = user_wallet rel /\
    om_symbol p = symbol trade /\
    getSide (side trade) = inr (om_side p) /\
    om_reduce_only p = str_includes (side trade) "close".
Proof.
  rewrite replicateToUser_orders. unfold replicateToUser_body. intros H.
  apply order_bind_inv in H as (_ & _ & H);
    [|destruct (_ && _); reflexivity].
  apply order_bind_inv in H as (apiKey & _ & H);
    [|destruct (decryptApiKey env _); reflexivity].
  apply order_bind_inv in H as (_ & _ & H);
    [|destruct (PACIFICA_API_URL env) as [u|];
      [destruct (nonempty u)|]; reflexivity].
  apply order_bind_inv in H as (client & Hclient & H);
    [|apply newClient_orders].
  apply order_bind_inv in H as (base & Hbase & H);
    [|apply baseAmount_orders].
  apply order_bind_inv in H as (_ & _ & H); [|reflexivity].
  apply order_bind_inv in H as (u1 & Hq & H);
    [|destruct (_ <=? _)%float; reflexivity].
  apply order_bind_inv in H as (available & Hav & H);
    [|apply readBalance_orders].
  apply order_bind_inv in H as (amt & Hlev & H);
    [|apply applyLeverageLimit_orders].
  apply order_bind_inv in H as (text & Htext & H);
    [|apply formatAmount_orders].
  apply order_bind_inv in H as (u2 & Hcost & H);
    [|destruct (_ <? _)%float; reflexivity].
  apply order_bind_inv in H as ([] & Hexp & H);
    [|apply checkExposure_orders].
  apply order_bind_inv in H as (orderSide & Hside & H);
    [|rewrite lift_trace; reflexivity].
  exists base, available.
  fold (sizedAmount env rel trade base) in *.
  assert (Hw : uc_publicKey client = user_wallet rel).
  { unfold newClient in Hclient. destruct (nonempty apiKey).
    - destruct (bs58_decode env apiKey); simpl in Hclient;
        [discriminate|]. injection Hclient as <-. reflexivity.
    - injection Hclient as <-. reflexivity. }
  rewrite trace_bind, orders_app, createMarketOrder_orders in H.
  assert (Hp : (w, p) = (uc_publicKey client,
                  {| om_symbol := symbol trade; om_amount := amt;
                     om_formattedAmount := text;
                     om_side := orderSide; om_slippage_percent := "0.5";
                     om_reduce_only := str_includes (side trade) "close" |})).
  { destruct H as [H|H]; [symmetry; exact H|].
    destruct (result (createMarketOrder env client _)) as [a| |e];
      simpl in H; [|destruct H..].
    destruct (or_success a); destruct H. }
  injection Hp as -> ->. simpl.
  repeat split; try assumption.
  - destruct (sizedAmount env rel trade base <=? 0)%float;
      [discriminate Hq | reflexivity].
  - destruct (formatAmount amt _); [discriminate Htext|].
    injection Htext as ->. reflexivity.
  - destruct (available <? amt * price trade)%float;
      [discriminate Hcost | reflexivity].
  - destruct (getSide (side trade)); [discriminate Hside|].
    injection Hside as ->. reflexivity.
Qed.

(** *** The scenarios of the specification *)

(** Scenario A: multiplier 0.5 on Fill{BTC, open_long, 0.002 @ 50000}. *)
Example scenario_A :
  replicateToUser (Scenarios.exchange 1000%float Scenarios.no_positions [])
                  (Scenarios.plain multiplier 0.5%float) Scenarios.fillBTC =
  ([EvGetMarketInfo "BTC"; EvGetAccountInfo "U" 0;
    EvCreateMarketOrder "U"
      {| om_symbol := "BTC"; om_amount := 0.001%float;
         om_formattedAmount := "0.001"; om_side := bid;
         om_slippage_percent := "0.5"; om_reduce_only := false |};
    EvLog OrderOk], Val tt).
Proof. reflexivity. Qed.

(** Scenario C: a [close_long] fill is sold, reduce-only. *)
Example scenario_C :
  orders (trace (replicateToUser
                   (Scenarios.exchange 1000%float Scenarios.no_positions [])
                   (Scenarios.plain multiplier 1%float) Scenarios.fillClose)) =
  [("U", {| om_symbol := "BTC"; om_amount := 0.001%float;
            om_formattedAmount := "0.001"; om_side := ask;
            om_slippage_percent := "0.5"; om_reduce_only := true |})].
Proof. reflexivity. Qed.

(** Scenario D: under a position cap of 40 at price 50000 the order is
    0.0008 BTC, whatever the sizing asks for. *)
Example scenario_D :
  let env := Scenarios.exchange 1000%float Scenarios.no_positions [] in
  map (fun o => om_amount (snd o))
      (orders (trace (replicateToUser env
                        (Scenarios.capped multiplier 2%float)
                        Scenarios.fillBTC))) = [0.0008%float] /\
  map (fun o => om_amount (snd o))
      (orders (trace (replicateToUser env
                        (Scenarios.capped fixed_usd 500%float)
                        Scenarios.fillBTC))) = [0.0008%float].
Proof. split; reflexivity. Qed.

(** Scenario E: a balance of 10 against an order worth about 62. *)
Example scenario_E :
  replicateToUser (Scenarios.exchange 10%float Scenarios.no_positions [])
                  (Scenarios.plain fixed_usd 62%float) Scenarios.fillBTC =
  ([EvGetMarketInfo "BTC"; EvGetAccountInfo "U" 0;
    EvLog (InsufficientBalance
             (quantize (62 / 50000) default_lot_size * 50000) 10)], Val tt).
Proof. reflexivity. Qed.

(** *** Sizing *)

(** C3: the pre-clamp base amount is [fillAmount * sizing_value] under
    [multiplier], [sizing_value / fillPrice] under [fixed_usd], and
    [(availableBalance * sizing_value / 100) / fillPrice] under
    [balance_percent]; in the last case the amount is produced exactly
    when a balance read, performed first, succeeds. *)
Theorem base_amount_by_method (env : Env) (rel : CopyRelationship)
    (trade : Trade) :
  (sizing_method rel = multiplier ->
     baseAmount env rel trade =
     ([], Val (amount trade * sizing_value rel)%float)) /\
  (sizing_method rel = fixed_usd ->
     baseAmount env rel trade =
     ([], Val (sizing_value rel / price trade)%float)) /\
  (sizing_method rel = balance_percent ->
     (forall available,
        getAccountInfo env (user_wallet rel) 0 =
          inr {| ai_success := true; ai_data := Some available |} ->
        baseAmount env rel trade =
        ([EvGetAccountInfo (user_wallet rel) 0],
         Val ((available * sizing_value rel / 100) / price trade)%float)) /\
     (forall t base,
        baseAmount env rel trade = (t, Val base) ->
        t = [EvGetAccountInfo (user_wallet rel) 0] /\
        exists available,
          getAccountInfo env (user_wallet rel) 0 =
            inr {| ai_success := true; ai_data := Some available |} /\
          base = ((available * sizing_value rel / 100) / price trade)%float)).
Proof.
  unfold baseAmount, readAccountInfo.
  split; [|split].
  - intros ->. reflexivity.
  - intros ->. reflexivity.
  - intros ->. split.
    + intros available ->. reflexivity.
    + intros t base.
      destruct (getAccountInfo env (user_wallet rel) 0)
        as [e|[[] [x|]]]; simpl; intros H; try discriminate H.
      injection H as <- <-. split; [reflexivity|].
      exists x. split; reflexivity.
Qed.

Lemma base_amount_by_method_witness :
  let env := Scenarios.exchange 1000%float Scenarios.no_positions [] in
  baseAmount env (Scenarios.plain multiplier 0.5%float) Scenarios.fillBTC
    = ([], Val 0.001%float) /\
  baseAmount env (Scenarios.plain fixed_usd 100%float) Scenarios.fillBTC
    = ([], Val 0.002%float) /\
  baseAmount env (Scenarios.plain balance_percent 10%float) Scenarios.fillBTC
    = ([EvGetAccountInfo "U" 0], Val 0.002%float).
Proof.
  intros env.
  pose proof (base_amount_by_method env
                (Scenarios.plain multiplier 0.5%float) Scenarios.fillBTC)
    as (Hm & _ & _).
  pose proof (base_amount_by_method env
                (Scenarios.plain fixed_usd 100%float) Scenarios.fillBTC)
    as (_ & Hf & _).
  pose proof (base_amount_by_method env
                (Scenarios.plain balance_percent 10%float) Scenarios.fillBTC)
    as (_ & _ & Hb).
  split; [exact (Hm eq_refl)|].
  split; [exact (Hf eq_refl)|].
  exact (proj1 (Hb eq_refl) 1000%float eq_refl).
Defined.

(** *** Results of the gates *)

Lemma replicateToUser_resolves env rel trade :
  result (replicateToUser env rel trade) = Val tt.
Proof.
  unfold replicateToUser. rewrite result_call, result_try_catch.
  destruct (result (replicateToUser_body env rel trade)) as [[]| |e];
    reflexivity.
Qed.

Lemma applyLeverageLimit_result rel trade available lotSize a a' :
  result (applyLeverageLimit rel trade available lotSize a) = Val a' ->
  match custom_leverage rel with
  | Some lev =>
      if truthy lev
      then a' = leverageAmount lev available (price trade) lotSize a /\
           (a' <=? 0)%float = false
      else a' = a
  | None => a' = a
  end.
Proof.
  unfold applyLeverageLimit, truthy_opt.
  destruct (custom_leverage rel) as [lev|]; simpl;
    [|intros H; injection H as <-; reflexivity].
  destruct (truthy lev); [|intros H; injection H as <-; reflexivity].
  rewrite result_bind.
  destruct (_ <? _)%float; simpl;
    destruct (_ <=? _)%float eqn:E; simpl; intros H;
    try discriminate H; injection H as <-; split; auto.
Qed.

Lemma checkExposure_result env rel trade a limit data positions :
  result (checkExposure env rel trade a) = Val tt ->
  max_total_exposure rel = Some limit ->
  truthy limit = true ->
  getPositions env (user_wallet rel) =
    inr {| pr_success := true; pr_data := Some data |} ->
  result (positionsOf data) = Val positions ->
  (limit <? totalExposure positions + a * price trade)%float = false.
Proof.
  unfold checkExposure, truthy_opt. intros H Hl Ht Hp Hd.
  rewrite Hl in H. simpl in H. rewrite Ht, Hp in H.
  destruct (publicRestClient env); simpl in H; [|discriminate H].
  rewrite (M_eta (positionsOf data)), Hd in H.
  assert (Ht0 : trace (positionsOf data) = [])
    by (destruct data as [items|[|ps|]]; reflexivity).
  rewrite Ht0 in H. simpl in H.
  destruct (_ <? _)%float; [discriminate H | reflexivity].
Qed.

Lemma nil_or_in {A} (l : list A) : l = [] \/ exists x, In x l.
Proof. destruct l as [|x l]; [left; reflexivity | right; exists x; left; reflexivity]. Qed.

(** *** Amounts that round to nothing *)

(** C8: when the sized amount rounds down to an amount [<= 0], at the first
    quantization or at the one that follows the leverage clamp, the pass
    for that relationship ends normally without any call of
    [createMarketOrder]. *)
Theorem zero_amount_never_submitted (env : Env) (rel : CopyRelationship)
    (trade : Trade) (base : float) :
  result (baseAmount env rel trade) = Val base ->
  let lotSize :=
    default default_lot_size (getMarketInfo env (toUpperCase (symbol trade))) in
  let sized := sizedAmount env rel trade base in
  ((sized <=? 0)%float = true ->
     orders (trace (replicateToUser env rel trade)) = [] /\
     result (replicateToUser env rel trade) = Val tt) /\
  (forall available lev,
     result (readBalance env rel) = Val available ->
     custom_leverage rel = Some lev ->
     truthy lev = true ->
     (leverageAmount lev available (price trade) lotSize sized <=? 0)%float
       = true ->
     orders (trace (replicateToUser env rel trade)) = [] /\
     result (replicateToUser env rel trade) = Val tt).
Proof.
  intros Hbase lotSize sized. split.
  - intros Hz. split; [|apply replicateToUser_resolves].
    destruct (nil_or_in (orders (trace (replicateToUser env rel trade))))
      as [E|[[w p] Hin]]; [exact E|].
    apply submit_inv in Hin as (base' & av & Hb & Hq & _).
    rewrite Hbase in Hb. injection Hb as <-.
    fold sized in Hq. rewrite Hz in Hq. discriminate Hq.
  - intros available lev Hav Hlev Ht Hz.
    split; [|apply replicateToUser_resolves].
    destruct (nil_or_in (orders (trace (replicateToUser env rel trade))))
      as [E|[[w p] Hin]]; [exact E|].
    apply submit_inv in Hin as (base' & av & Hb & _ & Hav' & Hl & _).
    rewrite Hbase in Hb. injection Hb as <-.
    rewrite Hav in Hav'. injection Hav' as <-.
    apply applyLeverageLimit_result in Hl.
    rewrite Hlev, Ht in Hl. destruct Hl as [-> Hpos].
    fold sized lotSize in Hpos. rewrite Hz in Hpos. discriminate Hpos.
Qed.

Lemma zero_amount_never_submitted_witness :
  let dust := Scenarios.plain multiplier 0.001%float in
  let broke :=
    Scenarios.copier "U" "iv:tag:data" multiplier 0.5%float
                     (Some 10%float) None in
  let rich := Scenarios.exchange 1000%float Scenarios.no_positions [] in
  let empty := Scenarios.exchange 0%float Scenarios.no_positions [] in
  ((sizedAmount rich dust Scenarios.fillBTC 0.000002 <=? 0)%float = true /\
   orders (trace (replicateToUser rich dust Scenarios.fillBTC)) = []) /\
  ((sizedAmount empty broke Scenarios.fillBTC 0.001 <=? 0)%float = false /\
   orders (trace (replicateToUser empty broke Scenarios.fillBTC)) = []).
Proof.
  intros dust broke rich empty. split.
  - split; [reflexivity|].
    apply (zero_amount_never_submitted rich dust Scenarios.fillBTC
             0.000002%float eq_refl).
    reflexivity.
  - split; [reflexivity|].
    apply (proj2 (zero_amount_never_submitted empty broke Scenarios.fillBTC
                    0.001%float eq_refl) 0%float 10%float);
      reflexivity.
Defined.

(** *** Balance and exposure gates *)

Lemma truthy_not_nan (x : float) : truthy x = true -> is_nan x = false.
Proof.
  unfold truthy. destruct (is_nan x); [intros H; discriminate H | reflexivity].
Qed.

(** The tests an order has passed, as the code makes them: the balance is
    compared with the cost of [copierAmount], not of the amount sent, and
    the limit with the sum over the positions found under
    [data.positions], which are none when [data] is the array. *)
Lemma order_passed_the_tests (env : Env) (rel : CopyRelationship)
    (trade : Trade) (w : string) (p : CreateMarketOrderParams) :
  In (w, p) (orders (trace (replicateToUser env rel trade))) ->
  let cost := (om_amount p * price trade)%float in
  exists available,
    result (readBalance env rel) = Val available /\
    (available <? cost)%float = false /\
    (forall limit data positions,
       max_total_exposure rel = Some limit ->
       truthy limit = true ->
       getPositions env (user_wallet rel) =
         inr {| pr_success := true; pr_data := Some data |} ->
       result (positionsOf data) = Val positions ->
       (limit <? totalExposure positions + cost)%float = false).
Proof.
  intros Hin cost.
  apply submit_inv in Hin
    as (base & available & _ & _ & Hav & _ & _ & Hcost & Hexp & _).
  exists available. split; [exact Hav|]. split; [exact Hcost|].
  intros limit data positions Hl Ht Hp Hd.
  exact (checkExposure_result _ _ _ _ _ _ _ Hexp Hl Ht Hp Hd).
Qed.

(** C1: neither gate holds of what is submitted.

    The exposure limit.  With a limit of 100 and a positions body in the
    documented shape, listing one open position worth 5000, an order worth
    50 is submitted: [data.positions] of an array is [undefined], so the
    sum is formed over no position at all.  The same position under a
    [positions] field stops the order.

    The balance.  The cost that is compared with the balance is that of
    [copierAmount]; the amount sent is its text with [decimals] digits.
    For the lot size 1e-7, whose text ["1e-7"] has no point, [decimals] is
    0: with a balance of 70 and a fill of 0.6 at 100, the amount 0.6 costs
    60 and passes, and the amount sent is ["1"], which costs 100. *)
Theorem order_beyond_exposure_and_balance :
  (let rel := Scenarios.copier "U" "iv:tag:data" multiplier 0.5%float
                               None (Some 100%float) in
   replicateToUser (Scenarios.exchange 1000%float Scenarios.open_positions [])
                   rel Scenarios.fillBTC =
   ([EvGetMarketInfo "BTC"; EvGetAccountInfo "U" 0; EvGetPositions "U";
     EvCreateMarketOrder "U"
       {| om_symbol := "BTC"; om_amount := 0.001%float;
          om_formattedAmount := "0.001"; om_side := bid;
          om_slippage_percent := "0.5"; om_reduce_only := false |};
     EvLog OrderOk], Val tt) /\
   totalExposure [Scenarios.held] = 5000%float /\
   (100 <? 5000 + 0.001 * 50000)%float = true /\
   replicateToUser
     (Scenarios.exchange 1000%float Scenarios.wrapped_positions [])
     rel Scenarios.fillBTC =
   ([EvGetMarketInfo "BTC"; EvGetAccountInfo "U" 0; EvGetPositions "U";
     EvLog (SkippedMaxExposure 5000 50)], Val tt)) /\
  (let env := Cases.exchangeLot 1e-7%float 70%float in
   let copierAmount := quantize 0.6 1e-7 in
   Number_toString 1e-7 = "1e-7" /\
   decimalsOf 1e-7 = 0 /\
   orders (trace (replicateToUser env (Scenarios.plain multiplier 1%float)
                                  Cases.fillWIF)) =
   [("U", {| om_symbol := "WIF"; om_amount := copierAmount;
             om_formattedAmount := "1"; om_side := bid;
             om_slippage_percent := "0.5"; om_reduce_only := false |})] /\
   (70 <? copierAmount * 100)%float = false /\
   (copierAmount * 100 <=? 60)%float = true /\
   Number_toString 1 = "1" /\
   (70 <? 1 * 100)%float = true).
Proof.
  split.
  - cbv zeta. repeat split; vm_compute; reflexivity.
  - cbv zeta. repeat split; vm_compute; reflexivity.
Qed.

(** *** Isolation of failures *)

Lemma first_rejection_resolved (ps : list (M unit)) :
  (forall m, In m ps -> result m = Val tt) ->
  first_rejection (map result ps) = Val tt.
Proof.
  induction ps as [|m ps IH]; intros H; simpl; [reflexivity|].
  rewrite (H m (or_introl eq_refl)). apply IH.
  intros m' Hm'. apply H. right. exact Hm'.
Qed.

Lemma Promise_all_replicate env trade (rels : list CopyRelationship) :
  Promise_all (map (fun rel => replicateToUser env rel trade) rels) =
  (flat_map (fun rel => trace (replicateToUser env rel trade)) rels, Val tt).
Proof.
  unfold Promise_all. f_equal.
  - induction rels as [|r rels IH]; simpl; [reflexivity|].
    rewrite IH. reflexivity.
  - apply first_rejection_resolved. intros m Hm.
    apply in_map_iff in Hm as (rel & <- & _).
    apply replicateToUser_resolves.
Qed.

(** C9: whatever is raised while replicating to one relationship is caught
    inside [replicateToUser]: the call always resolves, a raised error only
    appends its log line to that relationship's own steps, a credential
    that does not decrypt ends that relationship without an order, and the
    pass over a Fill is the plain succession of the relationships' own
    steps, each as if it ran alone, followed by normal completion. *)
Theorem relationship_errors_isolated (env : Env) (masterWallet : string)
    (trade : Trade) :
  (forall rel, result (replicateToUser env rel trade) = Val tt) /\
  (forall rel e,
     result (replicateToUser_body env rel trade) = Throw e ->
     replicateToUser env rel trade =
     (trace (replicateToUser_body env rel trade) ++ [EvLog (ErrorFor e)],
      Val tt)) /\
  (forall rel e,
     decryptApiKey env (encrypted_api_key rel) = inl e ->
     includes (symbols rel) (symbol trade) = true \/ symbols rel = [] ->
     replicateToUser env rel trade = ([EvLog InvalidApiKey], Val tt)) /\
  (forall rows,
     findAll env = inr rows ->
     activeFor masterWallet rows <> [] ->
     replicateTrade env masterWallet trade =
     ([EvLog MasterTrade;
       EvGetMarketInfo (toUpperCase (symbol trade));
       EvLog (ReplicatingTo (length (activeFor masterWallet rows)))]
      ++ flat_map (fun rel => trace (replicateToUser env rel trade))
                  (activeFor masterWallet rows)
      ++ [EvLog ReplicationComplete],
      Val tt)).
Proof.
  split; [intros rel; apply replicateToUser_resolves|].
  split; [|split].
  - intros rel e H. unfold replicateToUser.
    rewrite (M_eta (replicateToUser_body env rel trade)), H. reflexivity.
  - intros rel e Hd Hfilter.
    unfold replicateToUser, replicateToUser_body.
    assert (Hf : (0 <? length (symbols rel))%nat
                 && negb (includes (symbols rel) (symbol trade)) = false).
    { destruct Hfilter as [->| ->]; [apply andb_false_r | reflexivity]. }
    rewrite Hf, Hd. reflexivity.
  - intros rows Hrows Hne. unfold replicateTrade. rewrite Hrows.
    unfold log, emit, lift, ret. cbn [bind].
    rewrite Promise_all_replicate.
    destruct (activeFor masterWallet rows) as [|r rels];
      [contradiction|].
    reflexivity.
Qed.

Lemma relationship_errors_isolated_witness :
  let bad := Scenarios.copier "A" "corrupt" multiplier 0.5%float None None in
  let good :=
    Scenarios.copier "B" "iv:tag:data" multiplier 0.5%float None None in
  let env :=
    Scenarios.exchange 1000%float Scenarios.no_positions [bad; good] in
  (result (replicateToUser_body env good Scenarios.fillOdd)
     = Throw (Error "Unknown trade side: liquidated") /\
   replicateToUser env good Scenarios.fillOdd =
     ([EvGetMarketInfo "BTC"; EvGetAccountInfo "B" 0;
       EvLog (ErrorFor (Error "Unknown trade side: liquidated"))], Val tt)) /\
  (decryptApiKey env (encrypted_api_key bad)
     = inl (Error "Failed to decrypt API key") /\
   replicateToUser env bad Scenarios.fillBTC = ([EvLog InvalidApiKey], Val tt)) /\
  (activeFor "M" [bad; good] <> [] /\
   replicateTrade env "M" Scenarios.fillBTC =
   ([EvLog MasterTrade; EvGetMarketInfo "BTC"; EvLog (ReplicatingTo 2);
     EvLog InvalidApiKey;
     EvGetMarketInfo "BTC"; EvGetAccountInfo "B" 0;
     EvCreateMarketOrder "B"
       {| om_symbol := "BTC"; om_amount := 0.001%float;
          om_formattedAmount := "0.001"; om_side := bid;
          om_slippage_percent := "0.5"; om_reduce_only := false |};
     EvLog OrderOk;
     EvLog ReplicationComplete], Val tt)).
Proof.
  intros bad good env.
  destruct (relationship_errors_isolated env "M" Scenarios.fillBTC)
    as (_ & _ & Hdecrypt & Hall).
  destruct (relationship_errors_isolated env "M" Scenarios.fillOdd)
    as (_ & Hthrow & _).
  split; [|split].
  - split; [reflexivity|].
    exact (Hthrow good (Error "Unknown trade side: liquidated") eq_refl).
  - split; [reflexivity|].
    exact (Hdecrypt bad (Error "Failed to decrypt API key") eq_refl
             (or_intror eq_refl)).
  - assert (Hne : activeFor "M" [bad; good] <> []) by discriminate.
    split; [exact Hne|].
    exact (Hall [bad; good] eq_refl Hne).
Defined.

(** *** Quantization *)

(** Over exact numbers the quantization is idempotent and never exceeds
    its argument. *)
Lemma quantize_exact_idempotent (x lotSize : Q) :
  (0 < lotSize)%Q ->
  (Exact.quantize_exact (Exact.quantize_exact x lotSize) lotSize
   == Exact.quantize_exact x lotSize)%Q.
Proof.
  intros Hlot. unfold Exact.quantize_exact.
  assert (Hne : ~ (lotSize == 0)%Q).
  { intros E. rewrite E in Hlot. discriminate Hlot. }
  assert (E : (inject_Z (Qfloor (x / lotSize)) * lotSize / lotSize
               == inject_Z (Qfloor (x / lotSize)))%Q)
    by (field; exact Hne).
  rewrite E, Qfloor_Z. reflexivity.
Qed.

Lemma quantize_exact_le (x lotSize : Q) :
  (0 < lotSize)%Q -> (Exact.quantize_exact x lotSize <= x)%Q.
Proof.
  intros Hlot. unfold Exact.quantize_exact.
  assert (Hne : ~ (lotSize == 0)%Q).
  { intros E. rewrite E in Hlot. discriminate Hlot. }
  assert (E : (x == (x / lotSize) * lotSize)%Q) by (field; exact Hne).
  rewrite E at 2.
  apply Qmult_le_compat_r; [apply Qfloor_le | apply Qlt_le_weak, Hlot].
Qed.

(** C7: evaluated in binary64, as the code does, the quantization is not
    idempotent and can exceed its argument: 0.291 rounds to 0.29 and that
    to 0.28 at lot size 0.01, and 0.35 rounds to 0.35000000000000003.  In
    the pipeline, a leverage cap far from binding lowers the SOL order of
    38.12 to 38.11 by rounding it a second time. *)
Theorem quantize_binary64_not_idempotent :
  (quantize 0.291 0.01 = 0.29 /\
   quantize 0.29 0.01 = 0.28 /\
   quantize (quantize 0.291 0.01) 0.01 <> quantize 0.291 0.01)%float /\
  (quantize 0.35 0.01 = 0.35000000000000003 /\
   (0.35 <? quantize 0.35 0.01) = true)%float /\
  (let env := Scenarios.exchange 1000%float Scenarios.no_positions [] in
   map (fun o => om_amount (snd o))
       (orders (trace (replicateToUser env
                         (Scenarios.plain multiplier 0.5%float)
                         Scenarios.fillSOL))) = [38.12%float] /\
   map (fun o => om_amount (snd o))
       (orders (trace (replicateToUser env
                         (Scenarios.levered multiplier 0.5%float)
                         Scenarios.fillSOL))) = [38.11%float] /\
   (38.12 <? 1000 * 10 / 2)%float = true).
Proof.
  split; [|split].
  - split; [reflexivity|]. split; [reflexivity|].
    intros H.
    apply (f_equal (fun z => PrimFloat.eqb z (quantize 0.291 0.01))) in H.
    vm_compute in H. discriminate H.
  - split; reflexivity.
  - repeat split; reflexivity.
Qed.

End ReplicationFacts.

Module RestClientFacts.
Import Js RestClient.

(** *** The order on keys *)

Lemma leb_cases (a b : string) :
  String.leb a b = true <-> String_as_OT.lt a b \/ a = b.
Proof.
  unfold String.leb. split.
  - destruct (String.compare a b) eqn:E; intros H; try discriminate H.
    + right. apply String.compare_eq_iff, E.
    + left. apply String_as_OT.cmp_lt, E.
  - intros [H| ->].
    + apply String_as_OT.cmp_lt in H. unfold String_as_OT.cmp in H.
      rewrite H. reflexivity.
    + destruct (String.compare b b) eqn:E; try reflexivity.
      pose proof (String.compare_antisym b b) as H.
      rewrite E in H. discriminate H.
Qed.

(** The ranks are the bytes in another order. *)
Lemma unit_rank_inv (c : ascii) : unit_unrank (unit_rank c) = c.
Proof. destruct c as [[] [] [] [] [] [] [] []]; reflexivity. Qed.

Lemma ranked_inj (a b : string) : ranked a = ranked b -> a = b.
Proof.
  revert b. induction a as [|c a IH]; intros [|d b] H; simpl in H;
    try discriminate H; [reflexivity|].
  injection H as Hc Hab. f_equal; [|exact (IH b Hab)].
  rewrite <- (unit_rank_inv c), <- (unit_rank_inv d), Hc. reflexivity.
Qed.

#[export] Instance str_le_total : Total str_le.
Proof. intros a b. apply String.leb_total. Qed.

#[export] Instance str_le_antisym : AntiSymm (=) str_le.
Proof.
  intros a b Hab Hba. apply ranked_inj.
  exact (String.leb_antisym _ _ Hab Hba).
Qed.

#[export] Instance str_le_trans : Transitive str_le.
Proof.
  unfold str_le. intros a b c Hab Hbc.
  apply leb_cases in Hab as [Hab|Hab]; [|rewrite Hab; exact Hbc].
  apply leb_cases in Hbc as [Hbc|Hbc]; apply leb_cases; left;
    [exact (String_as_OT.lt_trans _ _ _ Hab Hbc) | rewrite <- Hbc; exact Hab].
Qed.

(** Sorting forgets the order the keys came in. *)
Lemma sort_permutation (l1 l2 : list string) :
  Permutation l1 l2 -> sort l1 = sort l2.
Proof.
  intros H. unfold sort.
  apply (Sorted_unique str_le); try apply Sorted_merge_sort; try apply _.
  rewrite !merge_sort_Permutation. exact H.
Qed.

(** *** Induction on signed values *)

Section JsonInduction.
Variable P : json -> Prop.
Hypothesis Hnull : P JNull.
Hypothesis Hbool : forall b, P (JBool b).
Hypothesis Hnumber : forall n, P (JNumber n).
Hypothesis Hstring : forall s, P (JString s).
Hypothesis Harray : forall items, Forall P items -> P (JArray items).
Hypothesis Hobject :
  forall props, Forall (fun kv => P (snd kv)) props -> P (JObject props).

Lemma json_induction (v : json) : P v.
Proof.
  revert v. fix IH 1. intros [ |b|n|s|items|props].
  - exact Hnull.
  - apply Hbool.
  - apply Hnumber.
  - apply Hstring.
  - apply Harray.
    induction items as [|x items IHitems];
      [apply List.Forall_nil | apply List.Forall_cons; [apply IH | exact IHitems]].
  - apply Hobject.
    induction props as [|[k x] props IHprops];
      [apply List.Forall_nil | apply List.Forall_cons; [apply IH | exact IHprops]].
Qed.

End JsonInduction.

(** *** Properties of objects *)

Lemma obj_get_None (props : list (string * json)) (k : string) :
  obj_get props k = None <-> ~ In k (keys props).
Proof.
  induction props as [|[k' v] props IH]; simpl; [tauto|].
  destruct (String.eqb_spec k' k) as [->|Hne].
  - split; [intros H; discriminate H | intros H; exfalso; apply H; auto].
  - rewrite IH. tauto.
Qed.

Lemma obj_get_defined (props : list (string * json)) (k : string) :
  In k (keys props) <-> obj_get props k <> None.
Proof.
  rewrite obj_get_None.
  destruct (in_dec string_dec k (keys props)); tauto.
Qed.

Lemma obj_get_In (props : list (string * json)) (k : string) (v : json) :
  obj_get props k = Some v -> In (k, v) props.
Proof.
  induction props as [|[k' w] props IH]; simpl; [intros H; discriminate H|].
  destruct (String.eqb_spec k' k) as [->|Hne].
  - intros H. injection H as ->. auto.
  - auto.
Qed.

Lemma obj_get_map (f : json -> json) (props : list (string * json))
    (k : string) :
  obj_get (map (fun kv => (fst kv, f (snd kv))) props) k =
  option_map f (obj_get props k).
Proof.
  induction props as [|[k' w] props IH]; simpl; [reflexivity|].
  destruct (String.eqb k' k); [reflexivity | exact IH].
Qed.

Lemma wf_object_value (props : list (string * json)) (k : string) (v : json) :
  wf_json (JObject props) -> In (k, v) props -> wf_json v.
Proof.
  intros [_ H]. induction props as [|kv props IH]; simpl;
    [intros []|].
  destruct H as [Hv Hrest]. intros [->|Hin]; [exact Hv | auto].
Qed.

Lemma fold_left_pointwise {A B} (f g : A -> B -> A) (l : list B) (a : A) :
  (forall x y, f x y = g x y) -> fold_left f l a = fold_left g l a.
Proof.
  intros H. revert a. induction l as [|y l IH]; intros a; simpl;
    [reflexivity|]. rewrite H. apply IH.
Qed.

(** *** Canonical form *)

(** [sortKeys] on an object, as the source has it: over the sorted keys,
    [result[key] = sortKeys(obj[key])], starting from the empty object. *)
Lemma sortKeys_object (props : list (string * json)) :
  sortKeys (JObject props) =
  JObject (fold_left
             (fun result key =>
                match obj_get props key with
                | Some v => obj_set key (sortKeys v) result
                | None => result
                end)
             (sort (keys props)) []).
Proof.
  simpl. f_equal. apply fold_left_pointwise. intros result key.
  unfold assign_sorted. rewrite obj_get_map.
  destruct (obj_get props key); reflexivity.
Qed.

Example marketOrderMessage_sorted :
  match sortKeys (marketOrderMessage 1700000000000 "BTC" "0.001" "bid" "0.5"
                                     false) with
  | JObject props =>
      keys props = ["data"; "expiry_window"; "timestamp"; "type"] /\
      match obj_get props "data" with
      | Some (JObject data) =>
          keys data =
          ["amount"; "reduce_only"; "side"; "slippage_percent"; "symbol"]
      | _ => False
      end
  | _ => False
  end.
Proof. vm_compute. split; reflexivity. Qed.

(** Values equal as nested finite maps have the same [sortKeys] image. *)
Lemma sortKeys_equiv (a : json) :
  forall a', wf_json a -> wf_json a' -> json_equiv a a' ->
             sortKeys a = sortKeys a'.
Proof.
  induction a as [ | | | |items IH|props IH] using json_induction;
    intros a' Wa Wb E; inversion E; subst; try reflexivity.
  - (* arrays *)
    simpl. f_equal.
    match goal with H : Forall2 json_equiv _ _ |- _ => rename H into HF end.
    clear E. revert Wa Wb IH.
    induction HF as [|x y l1 l2 Hxy HF IHF]; simpl; [reflexivity|].
    intros [Wx Wl1] [Wy Wl2] IH.
    apply Forall_cons_1 in IH as [IHx IHl]. f_equal; auto.
  - (* objects *)
    match goal with
    | Hd : forall k, obj_get _ k = None <-> obj_get _ k = None,
      Hv : forall k v1 v2, _ -> _ -> json_equiv v1 v2 |- _ =>
        rename Hd into Hdom; rename Hv into Hval
    end.
    simpl. f_equal.
    assert (Hsort : sort (keys props) = sort (keys p2)).
    { apply sort_permutation.
      apply NoDup_Permutation;
        [exact (proj1 Wa) | exact (proj1 Wb)|].
      intros k. rewrite !list_elem_of_In, !obj_get_defined, Hdom.
      reflexivity. }
    rewrite Hsort. apply fold_left_pointwise.
    intros result k. unfold assign_sorted. rewrite !obj_get_map.
    destruct (obj_get props k) as [v1|] eqn:E1,
             (obj_get p2 k) as [v2|] eqn:E2; simpl.
    + assert (Hin1 := obj_get_In _ _ _ E1).
      assert (Hin2 := obj_get_In _ _ _ E2).
      rewrite List.Forall_forall in IH.
      f_equal. apply (IH (k, v1) Hin1 v2).
      * exact (wf_object_value _ _ _ Wa Hin1).
      * exact (wf_object_value _ _ _ Wb Hin2).
      * exact (Hval k v1 v2 E1 E2).
    + apply Hdom in E2. rewrite E2 in E1. discriminate E1.
    + apply Hdom in E1. rewrite E1 in E2. discriminate E2.
    + reflexivity.
Qed.

(** C10: two messages that are equal as nested finite maps, whatever the
    order of their keys and with arrays compared position by position, are
    serialized to the same compact text after [sortKeys], so [sign] yields
    the same result for both under the same private key. *)
Theorem sign_key_order_independent
    (nacl_sign_detached : list Byte.byte -> list Byte.byte -> list Byte.byte)
    (bs58_encode : list Byte.byte -> string)
    (privateKey : option (list Byte.byte)) (a b : json) :
  wf_json a -> wf_json b -> json_equiv a b ->
  JSON_stringify (sortKeys a) = JSON_stringify (sortKeys b) /\
  sign nacl_sign_detached bs58_encode privateKey a =
  sign nacl_sign_detached bs58_encode privateKey b.
Proof.
  intros Wa Wb E. unfold sign.
  rewrite (sortKeys_equiv a b Wa Wb E). split; reflexivity.
Qed.

(** Deciding the clauses of [json_equiv] on literal objects. *)
Ltac same_keys :=
  intros ?k; cbn [obj_get];
  repeat match goal with
         | |- context [String.eqb ?s ?k] => destruct (String.eqb s k)
         end;
  split; intros ?H; first [reflexivity | discriminate].

Ltac literal_equiv :=
  lazymatch goal with
  | |- json_equiv (JArray _) (JArray _) =>
      apply equiv_array;
      repeat (apply List.Forall2_cons; [literal_equiv|]); apply List.Forall2_nil
  | |- json_equiv (JObject _) (JObject _) =>
      apply equiv_object;
      [ same_keys
      | let k := fresh "k" in
        let v1 := fresh "v" in
        let v2 := fresh "v" in
        let H1 := fresh "H" in
        let H2 := fresh "H" in
        intros k v1 v2; cbn [obj_get];
        repeat match goal with
               | |- context [String.eqb ?s k] =>
                   destruct (String.eqb_spec s k)
               end;
        intros H1 H2; subst; try discriminate;
        injection H1 as <-; injection H2 as <-; literal_equiv ]
  | |- json_equiv _ _ => constructor
  end.

Lemma order_messages_equiv :
  json_equiv Messages.order_message Messages.order_message_shuffled.
Proof. unfold Messages.order_message, Messages.order_message_shuffled. literal_equiv. Qed.

Lemma order_messages_wf :
  wf_json Messages.order_message /\ wf_json Messages.order_message_shuffled.
Proof.
  split; simpl; repeat split; repeat constructor;
    rewrite ?list_elem_of_In; simpl; intuition discriminate.
Qed.

Lemma sign_key_order_independent_witness :
  let key := Some [Byte.x01; Byte.x02] in
  (wf_json Messages.order_message /\
   wf_json Messages.order_message_shuffled /\
   json_equiv Messages.order_message Messages.order_message_shuffled /\
   JSON_stringify Messages.order_message
     <> JSON_stringify Messages.order_message_shuffled) /\
  JSON_stringify (sortKeys Messages.order_message) =
  JSON_stringify (sortKeys Messages.order_message_shuffled) /\
  sign Messages.toy_signature Messages.toy_encode key Messages.order_message =
  sign Messages.toy_signature Messages.toy_encode key
       Messages.order_message_shuffled.
Proof.
  intros key.
  split.
  - split; [apply order_messages_wf|].
    split; [apply order_messages_wf|].
    split; [apply order_messages_equiv|].
    vm_compute. intros H. discriminate H.
  - exact (sign_key_order_independent Messages.toy_signature
             Messages.toy_encode key _ _
             (proj1 order_messages_wf) (proj2 order_messages_wf)
             order_messages_equiv).
Defined.

(** *** The dispatch budget *)

Lemma dispatches_app (o1 o2 : list Output) :
  dispatches (o1 ++ o2) = dispatches o1 + dispatches o2.
Proof. unfold dispatches. rewrite List.filter_app, length_app. reflexivity. Qed.

(** A round of the loop counts what it dispatches and stays within the
    budget. *)
Lemma loopTop_budget (c : Client) :
  requestsPerMinute c <= maxRequestsPerMinute ->
  requestsPerMinute (fst (loopTop c)) =
    requestsPerMinute c + dispatches (snd (loopTop c)) /\
  requestsPerMinute (fst (loopTop c)) <= maxRequestsPerMinute.
Proof.
  intros H. unfold loopTop, dispatches.
  destruct (requestQueue c) as [|r rest]; simpl; [lia|].
  destruct (Nat.ltb_spec (requestsPerMinute c) maxRequestsPerMinute);
    simpl; lia.
Qed.

Lemma continue_budget (c0 c : Client) (outs : list Output) :
  requestsPerMinute c0 = requestsPerMinute c ->
  requestsPerMinute c <= maxRequestsPerMinute ->
  dispatches outs = 0 ->
  requestsPerMinute (fst (continue c0 outs)) =
    requestsPerMinute c + dispatches (snd (continue c0 outs)) /\
  requestsPerMinute (fst (continue c0 outs)) <= maxRequestsPerMinute.
Proof.
  intros E0 H H0. unfold continue. rewrite <- E0 in *.
  pose proof (loopTop_budget c0 H) as [E L].
  destruct (loopTop c0) as [c' outs']. simpl in *.
  rewrite dispatches_app, H0. simpl. split; assumption.
Qed.

Lemma step_budget (c : Client) (i : Input) :
  is_tick i = false ->
  requestsPerMinute c <= maxRequestsPerMinute ->
  requestsPerMinute (fst (step c i)) =
    requestsPerMinute c + dispatches (snd (step c i)) /\
  requestsPerMinute (fst (step c i)) <= maxRequestsPerMinute.
Proof.
  intros Hi H. unfold step.
  destruct i; try discriminate Hi;
    repeat match goal with
           | |- context [match suspended c with _ => _ end] =>
               destruct (suspended c)
           | |- context [if ?b then _ else _] => destruct b
           end;
    first [ apply continue_budget; [reflexivity | exact H | reflexivity]
          | apply loopTop_budget; exact H
          | unfold dispatches; simpl; lia ].
Qed.

Lemma step_tick (c : Client) :
  step c MinuteTick =
  ({| requestQueue := requestQueue c; requestsPerMinute := 0;
      suspended := suspended c; nextId := nextId c |}, []).
Proof. reflexivity. Qed.

Lemma run_app (c : Client) (i1 i2 : list Input) :
  run c (i1 ++ i2) =
  (fst (run (fst (run c i1)) i2),
   snd (run c i1) ++ snd (run (fst (run c i1)) i2)).
Proof.
  revert c. induction i1 as [|i i1 IH]; intros c; simpl.
  - destruct (run c i2); reflexivity.
  - destruct (step c i) as [c1 o1]. rewrite IH.
    destruct (run c1 i1) as [c2 o2]. simpl.
    rewrite app_assoc. reflexivity.
Qed.

(** Between two resets the counter is the number of dispatches. *)
Lemma run_budget (window : list Input) (c : Client) :
  existsb is_tick window = false ->
  requestsPerMinute c <= maxRequestsPerMinute ->
  requestsPerMinute (fst (run c window)) =
    requestsPerMinute c + dispatches (snd (run c window)) /\
  requestsPerMinute (fst (run c window)) <= maxRequestsPerMinute.
Proof.
  revert c. induction window as [|i window IH]; intros c Ht H; simpl.
  - unfold dispatches. simpl. lia.
  - simpl in Ht. apply orb_false_elim in Ht as [Hi Ht].
    pose proof (step_budget c i Hi H) as [E L].
    destruct (step c i) as [c1 o1]. simpl in E, L.
    pose proof (IH c1 Ht L) as [E' L'].
    destruct (run c1 window) as [c2 o2]. simpl in *.
    rewrite dispatches_app. lia.
Qed.

(** C4: in every window of inputs between two consecutive resets of the
    rate counter (and in the one before the first reset) the dispatcher
    takes at most 90 requests off its queue; the counter is set back to
    zero by the tick itself, whatever happened before, so that a span of
    inputs that contains a tick can see more than 90 dispatches (95 in
    [Runs.across_tick]): the window is fixed, not sliding. *)
Theorem dispatches_per_window_bounded (before window : list Input) :
  (existsb is_tick window = false ->
   dispatches (snd (run newClient window)) <= 90 /\
   requestsPerMinute (after (before ++ [MinuteTick])) = 0 /\
   dispatches (snd (run (after (before ++ [MinuteTick])) window)) <= 90) /\
  dispatches (snd (run newClient Runs.across_tick)) = 95.
Proof.
  split; [|vm_compute; reflexivity].
  intros Ht.
  assert (Hreset : requestsPerMinute (after (before ++ [MinuteTick])) = 0).
  { unfold after. rewrite run_app. simpl. reflexivity. }
  split; [|split; [exact Hreset|]].
  - pose proof (run_budget window newClient Ht) as [E L];
      [simpl; unfold maxRequestsPerMinute; lia|].
    simpl in E. unfold maxRequestsPerMinute in L. lia.
  - pose proof (run_budget window (after (before ++ [MinuteTick])) Ht)
      as [E L]; [rewrite Hreset; lia|].
    rewrite Hreset in E. unfold maxRequestsPerMinute in L. lia.
Qed.

(** *** Retries *)

Lemma attempts_app (i : nat) (o1 o2 : list Output) :
  attempts i (o1 ++ o2) = attempts i o1 + attempts i o2.
Proof. unfold attempts. rewrite List.filter_app, length_app. reflexivity. Qed.

Lemma attempts_fetch (i : nat) (r : RateLimitedRequest) :
  attempts i [Fetch r] = if (rq_id r =? i)%nat then 1 else 0.
Proof. unfold attempts. simpl. destruct (rq_id r =? i)%nat; reflexivity. Qed.

Lemma attempts_no_fetch (i : nat) (outs : list Output) :
  dispatches outs = 0 -> attempts i outs = 0.
Proof.
  unfold dispatches, attempts.
  induction outs as [|o outs IH]; simpl; [reflexivity|].
  destruct o; simpl; try exact IH. intros H. discriminate H.
Qed.

(** Outputs without a dispatch leave the invariant alone. *)
Lemma inv_quiet (c : Client) (outs quiet : list Output) :
  dispatches quiet = 0 ->
  dispatcher_inv c outs -> dispatcher_inv c (outs ++ quiet).
Proof.
  intros Hq (Hqueue & Hnd & Hfl & Hmax & Hfresh).
  assert (E : forall i, attempts i (outs ++ quiet) = attempts i outs).
  { intros i. rewrite attempts_app, (attempts_no_fetch i quiet Hq). lia. }
  repeat split.
  - apply Hqueue, H.
  - apply Hqueue, H.
  - rewrite E. apply Hqueue, H.
  - exact Hnd.
  - unfold inflight_ok in *. destruct (suspended c); rewrite ?E; exact Hfl.
  - intros i. rewrite E. apply Hmax.
  - intros i Hi. rewrite E. apply Hfresh, Hi.
Qed.

(** A client waiting in [Polling] with the queue of [c]. *)
Lemma inv_polling (c c' : Client) (outs : list Output) :
  requestQueue c' = requestQueue c -> nextId c' = nextId c ->
  suspended c' = Polling ->
  queue_ok c outs -> List.NoDup (ids c) -> history_ok c outs ->
  dispatcher_inv c' outs.
Proof.
  intros Eq En Es Hq Hnd Hh.
  unfold dispatcher_inv, queue_ok, inflight_ok, history_ok, ids in *.
  rewrite Eq, En, Es. auto.
Qed.

(** A round of the loop keeps the invariant. *)
Lemma loopTop_inv (c : Client) (outs : list Output) :
  queue_ok c outs -> List.NoDup (ids c) -> history_ok c outs ->
  dispatcher_inv (fst (loopTop c)) (outs ++ snd (loopTop c)).
Proof.
  intros Hqueue Hnd Hhist. unfold loopTop.
  destruct (requestQueue c) as [|r rest] eqn:Q.
  - apply inv_quiet; [reflexivity|].
    apply (inv_polling c); auto.
  - destruct (requestsPerMinute c <? maxRequestsPerMinute)%nat;
      [|apply inv_quiet; [reflexivity|]; apply (inv_polling c); auto].
    destruct Hhist as [Hmax Hfresh].
    assert (Hids : ids c = rq_id r :: map rq_id rest)
      by (unfold ids; rewrite Q; reflexivity).
    rewrite Hids in Hnd. apply List.NoDup_cons_iff in Hnd as [Hnotin Hnd].
    destruct (Hqueue r) as (Hlt & Hle & Hatt); [rewrite Q; left; reflexivity|].
    assert (E : forall i, attempts i (outs ++ [Fetch r]) =
                          attempts i outs + if (rq_id r =? i)%nat then 1 else 0).
    { intros i. rewrite attempts_app, attempts_fetch. reflexivity. }
    assert (Hrest : forall r', In r' rest ->
              rq_id r' < nextId c /\ retryCount r' <= 1 /\
              attempts (rq_id r') (outs ++ [Fetch r]) = retryCount r').
    { intros r' Hin.
      destruct (Hqueue r') as (H1 & H2 & H3); [rewrite Q; right; exact Hin|].
      repeat split; try assumption. rewrite E.
      destruct (Nat.eqb_spec (rq_id r) (rq_id r')) as [Heq|Hne];
        [|lia].
      exfalso. apply Hnotin. rewrite Heq. apply in_map, Hin. }
    split; [exact Hrest|]. split; [exact Hnd|]. split; [|split].
    + simpl. repeat split; try assumption.
      rewrite E, Nat.eqb_refl, Hatt. lia.
    + intros i. rewrite E.
      destruct (Nat.eqb_spec (rq_id r) i) as [<-|Hne];
        [rewrite Hatt; lia | rewrite Nat.add_0_r; apply Hmax].
    + simpl. intros i Hi. rewrite E.
      destruct (Nat.eqb_spec (rq_id r) i) as [<-|Hne]; [lia|].
      rewrite Nat.add_0_r. apply Hfresh, Hi.
Qed.

Lemma queue_ok_quiet (c : Client) (outs quiet : list Output) :
  dispatches quiet = 0 -> queue_ok c outs -> queue_ok c (outs ++ quiet).
Proof.
  intros Hq H r Hin. destruct (H r Hin) as (H1 & H2 & H3).
  repeat split; try assumption.
  rewrite attempts_app, (attempts_no_fetch _ quiet Hq). lia.
Qed.

Lemma history_ok_quiet (c : Client) (outs quiet : list Output) :
  dispatches quiet = 0 -> history_ok c outs -> history_ok c (outs ++ quiet).
Proof.
  intros Hq [Hmax Hfresh]. split; intros i.
  - rewrite attempts_app, (attempts_no_fetch _ quiet Hq), Nat.add_0_r.
    apply Hmax.
  - intros Hi.
    rewrite attempts_app, (attempts_no_fetch _ quiet Hq), Nat.add_0_r.
    apply Hfresh, Hi.
Qed.

Lemma continue_inv (c : Client) (outs quiet : list Output) :
  dispatches quiet = 0 ->
  queue_ok c outs -> List.NoDup (ids c) -> history_ok c outs ->
  dispatcher_inv (fst (continue c quiet)) (outs ++ snd (continue c quiet)).
Proof.
  intros Hq Hqueue Hnd Hhist. unfold continue.
  pose proof (loopTop_inv c (outs ++ quiet)
                (queue_ok_quiet _ _ _ Hq Hqueue) Hnd
                (history_ok_quiet _ _ _ Hq Hhist)) as H.
  destruct (loopTop c) as [c' outs']. simpl in *.
  rewrite app_assoc. exact H.
Qed.

Lemma NoDup_snoc (l : list nat) (x : nat) :
  ~ In x l -> List.NoDup l -> List.NoDup (l ++ [x]).
Proof.
  intros Hx Hl.
  apply (Permutation_NoDup (l := x :: l));
    [apply Permutation_cons_append | apply List.NoDup_cons; assumption].
Qed.

(** Every input keeps the invariant. *)
Lemma step_inv (c : Client) (i : Input) (outs : list Output) :
  dispatcher_inv c outs ->
  dispatcher_inv (fst (step c i)) (outs ++ snd (step c i)).
Proof.
  intros Hinv.
  pose proof Hinv as (Hqueue & Hnd & Hfl & Hhist).
  destruct i; simpl.
  - (* Enqueue *)
    rewrite app_nil_r. destruct Hhist as [Hmax Hfresh].
    assert (Hnew : ~ In (nextId c) (ids c)).
    { unfold ids. intros Hin. apply in_map_iff in Hin as (r & E & Hin).
      destruct (Hqueue r Hin) as (Hlt & _). lia. }
    split; [|split; [|split; [|split]]]; simpl.
    + intros r Hin. apply in_app_or in Hin as [Hin|[<-|[]]].
      * destruct (Hqueue r Hin) as (H1 & H2 & H3). simpl.
        repeat split; [lia|lia|exact H3].
      * simpl. repeat split; [lia|lia|]. apply Hfresh. lia.
    + unfold ids. simpl. rewrite map_app. simpl.
      apply NoDup_snoc; assumption.
    + unfold inflight_ok, ids in *. simpl. rewrite map_app. simpl.
      destruct (suspended c); try exact I;
        destruct Hfl as (H1 & H2 & H3 & H4);
        (repeat split; [lia| |assumption|assumption]);
        intros Hin; apply in_app_or in Hin as [Hin|[Hin|[]]];
        solve [contradiction | lia].
    + exact Hmax.
    + intros i Hi. apply Hfresh. lia.
  - (* MinuteTick *)
    rewrite app_nil_r. exact Hinv.
  - (* TimerFired *)
    destruct (suspended c) as [r|r|] eqn:S.
    + simpl. rewrite app_nil_r. exact Hinv.
    + unfold inflight_ok in Hfl. rewrite S in Hfl.
      destruct Hfl as (Hlt & Hnotin & Hzero & Hone).
      apply continue_inv; [reflexivity| | |exact Hhist].
      * intros r' [<-|Hin]; [|apply Hqueue, Hin].
        simpl. rewrite Hzero. repeat split; [exact Hlt|lia|exact Hone].
      * unfold ids. simpl. apply List.NoDup_cons; assumption.
    + apply loopTop_inv; assumption.
  - (* Responded *)
    destruct (suspended c) as [r|r|] eqn:S;
      [|simpl; rewrite app_nil_r; exact Hinv..].
    unfold inflight_ok in Hfl. rewrite S in Hfl.
    destruct Hfl as (Hlt & Hnotin & Hle & Hatt).
    destruct (status =? 429)%nat.
    + destruct (Nat.ltb_spec (retryCount r) 1).
      * simpl. apply inv_quiet; [reflexivity|].
        split; [exact Hqueue|]. split; [exact Hnd|]. split; [|exact Hhist].
        unfold inflight_ok. simpl.
        assert (retryCount r = 0) as Hz by lia. rewrite Hz in Hatt.
        repeat split; assumption.
      * apply continue_inv; [reflexivity|exact Hqueue|exact Hnd|exact Hhist].
    + destruct (negb (ok status)), bodyReads;
        first [ apply continue_inv;
                [reflexivity|exact Hqueue|exact Hnd|exact Hhist]
              | simpl; apply inv_quiet; [reflexivity|];
                apply (inv_polling c); auto ].
  - (* FetchFailed *)
    destruct (suspended c) as [r|r|] eqn:S;
      [|simpl; rewrite app_nil_r; exact Hinv..].
    simpl. apply inv_quiet; [reflexivity|].
    apply (inv_polling c); auto.
Qed.

Lemma run_inv (inputs : list Input) (c : Client) (outs : list Output) :
  dispatcher_inv c outs ->
  dispatcher_inv (fst (run c inputs)) (outs ++ snd (run c inputs)).
Proof.
  revert c outs. induction inputs as [|i inputs IH]; intros c outs H; simpl.
  - rewrite app_nil_r. exact H.
  - pose proof (step_inv c i outs H) as H1.
    destruct (step c i) as [c1 o1]. simpl in H1.
    pose proof (IH c1 (outs ++ o1) H1) as H2.
    destruct (run c1 inputs) as [c2 o2]. simpl in *.
    rewrite app_assoc. exact H2.
Qed.

Lemma newClient_inv : dispatcher_inv newClient [].
Proof.
  split; [intros r []|].
  split; [apply List.NoDup_nil|].
  split; [exact I|].
  split; intros; unfold attempts; simpl; [lia | reflexivity].
Qed.

Lemma dispatches_per_window_bounded_witness :
  existsb is_tick Runs.busy_window = false /\
  dispatches (snd (run newClient Runs.busy_window)) = 90 /\
  dispatches (snd (run (after ([Enqueue "/account"] ++ [MinuteTick]))
                       Runs.busy_window)) <= 90.
Proof.
  split; [reflexivity|].
  split; [vm_compute; reflexivity|].
  apply (proj1 (dispatches_per_window_bounded [Enqueue "/account"]
                  Runs.busy_window)).
  reflexivity.
Defined.

(** C5: a 429 answered to a request that has not been retried starts a
    1000 ms wait, after which the request, its [retryCount] raised, is put
    at the front of the queue and the loop resumes (so it is the next
    request dispatched as soon as the budget allows); a 429 answered to a
    request that has been retried rejects its promise with the rate-limit
    error without queueing it again; and in every run from the constructor
    no request is dispatched more than twice. *)
Theorem retry_once_on_429 :
  (forall c r bodyReads,
     suspended c = Fetching r -> retryCount r = 0 ->
     step c (Responded 429 bodyReads) =
     ({| requestQueue := requestQueue c;
         requestsPerMinute := requestsPerMinute c;
         suspended := RetryDelay r;
         nextId := nextId c |}, [Sleep 1000])) /\
  (forall c r,
     suspended c = RetryDelay r ->
     let requeued :=
       {| requestQueue := withRetry r :: requestQueue c;
          requestsPerMinute := requestsPerMinute c;
          suspended := Polling;
          nextId := nextId c |} in
     step c TimerFired = loopTop requeued /\
     (requestsPerMinute c < 90 ->
        snd (step c TimerFired) = [Fetch (withRetry r)] /\
        requestQueue (fst (step c TimerFired)) = requestQueue c) /\
     (90 <= requestsPerMinute c ->
        snd (step c TimerFired) = [Sleep 100] /\
        requestQueue (fst (step c TimerFired)) =
          withRetry r :: requestQueue c)) /\
  (forall c r bodyReads,
     suspended c = Fetching r -> 1 <= retryCount r ->
     step c (Responded 429 bodyReads) =
     (fst (loopTop (toPolling c)),
      Reject (rq_id r) RateLimitExceededAfterRetry
        :: snd (loopTop (toPolling c)))) /\
  (forall inputs id, attempts id (snd (run newClient inputs)) <= 2).
Proof.
  split; [|split; [|split]].
  - intros c r b Hs Hr. simpl. rewrite Hs. simpl. rewrite Hr. reflexivity.
  - intros c r Hs requeued.
    assert (E : step c TimerFired = loopTop requeued).
    { simpl. rewrite Hs. unfold continue.
      fold requeued. destruct (loopTop requeued). reflexivity. }
    split; [exact E|]. rewrite E. unfold loopTop, requeued. simpl.
    unfold maxRequestsPerMinute.
    split; intros H.
    + destruct (Nat.ltb_spec (requestsPerMinute c) 90); [|lia].
      split; reflexivity.
    + destruct (Nat.ltb_spec (requestsPerMinute c) 90); [lia|].
      split; reflexivity.
  - intros c r b Hs Hr. simpl. rewrite Hs. simpl.
    destruct (Nat.ltb_spec (retryCount r) 1); [lia|].
    unfold continue. destruct (loopTop (toPolling c)). reflexivity.
  - intros inputs id.
    pose proof (run_inv inputs newClient [] newClient_inv)
      as (_ & _ & _ & Hmax & _).
    simpl in Hmax. apply Hmax.
Qed.

Lemma retry_once_on_429_witness :
  (suspended Runs.first_attempt = Fetching Runs.the_request /\
   step Runs.first_attempt (Responded 429 true) =
     (Runs.delayed, [Sleep 1000])) /\
  (suspended Runs.delayed = RetryDelay Runs.the_request /\
   step Runs.delayed TimerFired =
     (Runs.second_attempt, [Fetch (withRetry Runs.the_request)])) /\
  (suspended Runs.second_attempt = Fetching (withRetry Runs.the_request) /\
   step Runs.second_attempt (Responded 429 true) =
     (toPolling Runs.second_attempt,
      [Reject 0 RateLimitExceededAfterRetry; Sleep 100])).
Proof.
  destruct retry_once_on_429 as (Hfirst & Hdelay & Hsecond & _).
  split; [|split].
  - split; [reflexivity|].
    exact (Hfirst Runs.first_attempt Runs.the_request true eq_refl eq_refl).
  - split; [reflexivity|].
    exact (proj1 (Hdelay Runs.delayed Runs.the_request eq_refl)).
  - split; [reflexivity|].
    exact (Hsecond Runs.second_attempt (withRetry Runs.the_request) true
             eq_refl (le_n 1)).
Defined.

End RestClientFacts.

Module FeedFacts.
Import Feed.

(** *** Reconnection *)

Lemma feed_run_app (s : Server) (e1 e2 : list Event) :
  run s (e1 ++ e2) =
  (fst (run (fst (run s e1)) e2),
   snd (run s e1) ++ snd (run (fst (run s e1)) e2)).
Proof.
  revert s. induction e1 as [|e e1 IH]; intros s; simpl.
  - destruct (run s e2); reflexivity.
  - destruct (react s e) as [s1 a1]. rewrite IH.
    destruct (run s1 e1) as [s2 a2]. simpl.
    rewrite app_assoc. reflexivity.
Qed.

Lemma scheduled_app (a1 a2 : list Action) :
  scheduled (a1 ++ a2) = scheduled a1 ++ scheduled a2.
Proof.
  induction a1 as [|a a1 IH]; simpl; [reflexivity|].
  destruct a; simpl; rewrite IH; reflexivity.
Qed.

(** One failed connection below the cap: the reconnection is scheduled
    after [1000 * 2^attempts] ms, and when the timer fires a new socket is
    opened. *)
Lemma failure_below_cap (s : Server) :
  live s ->
  reconnectAttempts (wsClient s) < maxReconnectAttempts ->
  let s' := fst (run s failure) in
  snd (run s failure) =
    [EmitDisconnected;
     ScheduleConnect (1000 * 2 ^ Z.of_nat (reconnectAttempts (wsClient s)));
     OpenSocket] /\
  live s' /\
  reconnectAttempts (wsClient s') = S (reconnectAttempts (wsClient s)) /\
  activeSubscriptions s' = activeSubscriptions s.
Proof.
  intros (Hex & Hsr & Htm & Hws) Hlt.
  unfold failure, run, react. rewrite Hex.
  assert (Hclose : onClose (wsClient s) =
            ({| ws := Some CLOSED; wallet := wallet (wsClient s);
                reconnectAttempts := S (reconnectAttempts (wsClient s));
                shouldReconnect := true; pingInterval := false |},
             [EmitDisconnected;
              ScheduleConnect
                (1000 * 2 ^ Z.of_nat (reconnectAttempts (wsClient s)))])).
  { unfold onClose, reconnect, cleanup, setWs.
    cbn [shouldReconnect reconnectAttempts ws wallet pingInterval].
    rewrite Hsr.
    destruct (Nat.leb_spec maxReconnectAttempts
                           (reconnectAttempts (wsClient s))); [lia|].
    reflexivity. }
  destruct Hws as [Hws|Hws]; rewrite Hws, Hclose; simpl;
    rewrite Hex, Htm; simpl; repeat split; auto.
Qed.

Lemma failures_below_cap (n : nat) (s : Server) :
  live s ->
  reconnectAttempts (wsClient s) + n <= maxReconnectAttempts ->
  let s' := fst (run s (failures n)) in
  scheduled (snd (run s (failures n))) =
    backoff (reconnectAttempts (wsClient s)) n /\
  live s' /\
  reconnectAttempts (wsClient s') = reconnectAttempts (wsClient s) + n /\
  activeSubscriptions s' = activeSubscriptions s.
Proof.
  revert s. induction n as [|n IH]; intros s Hlive Hle.
  - simpl. repeat split; auto; try apply Hlive; lia.
  - cbn [failures]. rewrite feed_run_app. cbn [fst snd].
    destruct (failure_below_cap s Hlive) as (Hacts & Hlive1 & Hatt1 & Hsubs1);
      [lia|].
    destruct (IH (fst (run s failure)) Hlive1) as (Hsch & Hlive2 & Hatt2 & Hsubs2);
      [lia|].
    rewrite scheduled_app, Hacts, Hsch, Hatt2, Hatt1, Hsubs2, Hsubs1.
    cbn [scheduled app backoff].
    repeat split; auto; try apply Hlive2; lia.
Qed.

(** An uninterrupted call is the guard and then the loops. *)
Lemma update_loops (s : Server) (masters : list string) :
  updateMasterSubscriptions s masters =
  if negb (isConnected (wsClient s)) then (s, []) else reconcile s masters.
Proof.
  unfold updateMasterSubscriptions.
  destruct (negb (isConnected (wsClient s))); reflexivity.
Qed.

(** The loops leave the client and the timer alone, and what they do is
    send or complain. *)
Lemma subscribeNew_connects (c : WsClient) (masters subs : list string) :
  List.filter connects (snd (subscribeNew c subs masters)) = [].
Proof.
  revert subs. induction masters as [|master rest IH]; intros subs; simpl;
    [reflexivity|].
  destruct (has subs master); [apply IH|].
  specialize (IH (subs ++ [master])).
  destruct (subscribeNew c (subs ++ [master]) rest) as [subs' acts].
  simpl in *. rewrite List.filter_app, IH. unfold subscribeToAccount.
  destruct (isConnected c); reflexivity.
Qed.

Lemma unsubscribeGone_connects (c : WsClient) (masters subs : list string) :
  List.filter connects (snd (unsubscribeGone c masters subs)) = [].
Proof.
  induction subs as [|master rest IH]; simpl; [reflexivity|].
  destruct (unsubscribeGone c masters rest) as [kept acts]. simpl in IH.
  destruct (has masters master); simpl; [exact IH|].
  rewrite List.filter_app, IH. unfold unsubscribeFromAccount.
  destruct (isConnected c); reflexivity.
Qed.

Lemma reconcile_connects (s : Server) (masters : list string) :
  List.filter connects (snd (reconcile s masters)) = [].
Proof.
  unfold reconcile.
  pose proof (subscribeNew_connects (wsClient s) (toSet [] masters)
                (activeSubscriptions s)) as H1.
  destruct (subscribeNew _ _ _) as [subs1 acts1].
  pose proof (unsubscribeGone_connects (wsClient s) (toSet [] masters) subs1)
    as H2.
  destruct (unsubscribeGone _ _ _) as [subs2 acts2].
  simpl in *. rewrite List.filter_app, H1, H2. reflexivity.
Qed.

Lemma reconcile_client (s : Server) (masters : list string) :
  wsClient (fst (reconcile s masters)) = wsClient s /\
  connectTimer (fst (reconcile s masters)) = connectTimer s.
Proof.
  unfold reconcile.
  destruct (subscribeNew _ _ _) as [subs1 acts1].
  destruct (unsubscribeGone _ _ _) as [subs2 acts2]. split; reflexivity.
Qed.

(** Once the feed is down for good, nothing reconnects. *)
Lemma react_dead (s : Server) (e : Event) :
  dead s ->
  dead (fst (react s e)) /\ List.filter connects (snd (react s e)) = [].
Proof.
  intros Hd. pose proof Hd as [Htm Hws]. unfold react.
  destruct (exited s); [split; [exact Hd | reflexivity]|].
  destruct e.
  - destruct Hws as [Hws|Hws]; rewrite Hws;
      (split; [exact Hd | reflexivity]).
  - destruct Hws as [Hws|Hws]; rewrite Hws;
      (split; [exact Hd | reflexivity]).
  - rewrite Htm. split; [exact Hd | reflexivity].
  - unfold updateMasterSubscriptions, isConnected.
    destruct Hws as [Hws|Hws]; rewrite Hws;
      (split; [exact Hd | reflexivity]).
  - simpl. split; [split; auto | reflexivity].
  - destruct Hws as [Hws|Hws]; rewrite Hws;
      (split; [exact Hd | reflexivity]).
  - unfold beginUpdate, isConnected.
    destruct Hws as [Hws|Hws]; rewrite Hws;
      (split; [exact Hd | reflexivity]).
  - unfold endUpdate. destruct (awaited s) as [|n];
      [split; [exact Hd | reflexivity]|].
    destruct answer as [e|masters]; [split; [exact Hd | reflexivity]|].
    pose proof (reconcile_client (setAwaited s n) masters) as (Hc & Ht).
    split; [unfold dead; rewrite Hc, Ht; exact Hd|].
    apply reconcile_connects.
Qed.

Lemma run_dead (events : list Event) (s : Server) :
  dead s -> List.filter connects (snd (run s events)) = [].
Proof.
  revert s. induction events as [|e events IH]; intros s Hd; simpl;
    [reflexivity|].
  destruct (react_dead s e Hd) as [Hd1 Hq].
  destruct (react s e) as [s1 a1]. simpl in Hd1, Hq.
  specialize (IH s1 Hd1).
  destruct (run s1 events) as [s2 a2].
  simpl in *. rewrite List.filter_app, Hq, IH. reflexivity.
Qed.

(** C6 (as amended): over a run of consecutive failed connections the
    reconnections 1 to 10 are scheduled after 1000, 2000, 4000, ..., 512000
    ms; at the eleventh failure the client logs and emits the error
    ["Max reconnect attempts reached"], schedules nothing, and from then
    on no event makes it connect again; the owner's listener logs the
    error and the process keeps running. *)
Theorem reconnect_backoff_then_terminal (s : Server) :
  live s ->
  reconnectAttempts (wsClient s) = 0 ->
  scheduled (snd (run s (failures 10))) =
    [1000; 2000; 4000; 8000; 16000; 32000; 64000; 128000; 256000; 512000]%Z /\
  let s10 := fst (run s (failures 10)) in
  let s11 := fst (react s10 SocketClosed) in
  snd (react s10 SocketClosed) =
    [EmitDisconnected;
     ConsoleError "Max reconnect attempts reached";
     EmitError "Max reconnect attempts reached";
     ConsoleError "[Server] WebSocket error: Max reconnect attempts reached"] /\
  connectTimer s11 = false /\
  exited s11 = None /\
  (forall events, List.filter connects (snd (run s11 events)) = []).
Proof.
  intros Hlive Hzero.
  destruct (failures_below_cap 10 s Hlive) as (Hsch & Hlive10 & Hatt & _);
    [rewrite Hzero; unfold maxReconnectAttempts; lia|].
  rewrite Hzero in Hsch, Hatt.
  split; [exact Hsch|]. cbv zeta.
  destruct Hlive10 as (Hex & Hsr & Htm & Hws).
  set (s10 := fst (run s (failures 10))) in *.
  assert (Hreact : react s10 SocketClosed =
    ({| wsClient := {| ws := Some CLOSED; wallet := wallet (wsClient s10);
                       reconnectAttempts := 10; shouldReconnect := true;
                       pingInterval := false |};
        activeSubscriptions := activeSubscriptions s10;
        connectTimer := false;
        exited := None;
        awaited := awaited s10 |},
     [EmitDisconnected;
      ConsoleError "Max reconnect attempts reached";
      EmitError "Max reconnect attempts reached";
      ConsoleError "[Server] WebSocket error: Max reconnect attempts reached"])).
  { unfold react. rewrite Hex.
    assert (Hclose : onClose (wsClient s10) =
      ({| ws := Some CLOSED; wallet := wallet (wsClient s10);
          reconnectAttempts := 10; shouldReconnect := true;
          pingInterval := false |},
       [EmitDisconnected;
        ConsoleError "Max reconnect attempts reached";
        EmitError "Max reconnect attempts reached"])).
    { unfold onClose, reconnect, cleanup, setWs.
      cbn [shouldReconnect reconnectAttempts ws wallet pingInterval].
      rewrite Hsr, Hatt. reflexivity. }
    destruct Hws as [Hws|Hws]; rewrite Hws, Hclose; unfold setClient;
      rewrite Htm, Hex; reflexivity. }
  rewrite Hreact. cbn [fst snd].
  split; [reflexivity|]. split; [reflexivity|]. split; [reflexivity|].
  intros events. apply run_dead. split; [reflexivity | left; reflexivity].
Qed.

Lemma initialServer_live : live initialServer.
Proof. repeat split; auto. Qed.

Lemma reconnect_backoff_then_terminal_witness :
  (live initialServer /\ reconnectAttempts (wsClient initialServer) = 0) /\
  scheduled (snd (run initialServer (failures 10))) =
    [1000; 2000; 4000; 8000; 16000; 32000; 64000; 128000; 256000; 512000]%Z /\
  List.filter connects
    (snd (run (fst (react (fst (run initialServer (failures 10)))
                          SocketClosed))
              [ReconnectTimer; Refresh ["M"]; SocketOpened ["M"]])) = [].
Proof.
  split; [split; [exact initialServer_live | reflexivity]|].
  destruct (reconnect_backoff_then_terminal initialServer
              initialServer_live eq_refl) as (Hsch & _ & _ & _ & Hquiet).
  split; [exact Hsch|].
  exact (Hquiet [ReconnectTimer; Refresh ["M"]; SocketOpened ["M"]]).
Defined.

(** Eleven consecutive failures from start-up leave the process running:
    the cap is not fatal to it. *)
Lemma cap_exceeded_process_keeps_running :
  ~ terminal_as_specified initialServer.
Proof.
  unfold terminal_as_specified. intros [_ H]. apply H.
  vm_compute. reflexivity.
Qed.

(** *** Subscriptions on open *)

Lemma subscribed_app (a1 a2 : list Action) :
  subscribed (a1 ++ a2) = subscribed a1 ++ subscribed a2.
Proof.
  induction a1 as [|a a1 IH]; simpl; [reflexivity|].
  destruct a as [|[]| | | | | |]; simpl; rewrite IH; reflexivity.
Qed.

Lemma has_false (set : list string) (x : string) :
  has set x = false -> ~ In x set.
Proof.
  unfold has. intros H Hin.
  assert (existsb (String.eqb x) set = true) as E.
  { apply existsb_exists. exists x. split; [exact Hin | apply String.eqb_refl]. }
  rewrite E in H. discriminate H.
Qed.

Lemma subscribeToAccount_subscribed (c : WsClient) (account : string) :
  forall m, In m (subscribed (subscribeToAccount c "account_trades" account)) ->
            m = account.
Proof.
  intros m. unfold subscribeToAccount.
  destruct (isConnected c); simpl; [intros [H|[]]; auto | intros []].
Qed.

(** The first loop never subscribes to a wallet that is in the set. *)
Lemma subscribeNew_skips_known (c : WsClient) (masters subs : list string)
    (m : string) :
  In m subs -> ~ In m (subscribed (snd (subscribeNew c subs masters))).
Proof.
  revert subs. induction masters as [|master rest IH]; intros subs Hin; simpl;
    [intros []|].
  destruct (has subs master) eqn:Hhas; [apply IH, Hin|].
  specialize (IH (subs ++ [master]) (in_or_app _ _ _ (or_introl Hin))).
  destruct (subscribeNew c (subs ++ [master]) rest) as [subs' acts].
  simpl in *. rewrite subscribed_app. intros H.
  apply in_app_or in H as [H|H]; [|contradiction].
  apply subscribeToAccount_subscribed in H. subst m.
  apply has_false in Hhas. contradiction.
Qed.

Lemma unsubscribeGone_subscribed (c : WsClient) (masters subs : list string) :
  subscribed (snd (unsubscribeGone c masters subs)) = [].
Proof.
  induction subs as [|master rest IH]; simpl; [reflexivity|].
  destruct (unsubscribeGone c masters rest) as [kept acts]. simpl in IH.
  destruct (has masters master); simpl; [exact IH|].
  rewrite subscribed_app, IH. unfold unsubscribeFromAccount.
  destruct (isConnected c); reflexivity.
Qed.

(** A reconciliation never subscribes to a wallet that is in the set. *)
Lemma update_skips_known (s : Server) (masters : list string) (m : string) :
  In m (activeSubscriptions s) ->
  ~ In m (subscribed (snd (updateMasterSubscriptions s masters))).
Proof.
  intros Hin. rewrite update_loops. unfold reconcile.
  destruct (negb (isConnected (wsClient s))); [intros []|].
  pose proof (subscribeNew_skips_known (wsClient s)
                (toSet [] masters) (activeSubscriptions s) m Hin) as Hnew.
  destruct (subscribeNew (wsClient s) (activeSubscriptions s)
              (toSet [] masters)) as [subs1 acts1].
  pose proof (unsubscribeGone_subscribed (wsClient s) (toSet [] masters) subs1)
    as Hgone.
  destruct (unsubscribeGone (wsClient s) (toSet [] masters) subs1)
    as [subs2 acts2].
  simpl in *. rewrite subscribed_app, Hgone, app_nil_r. exact Hnew.
Qed.

(** A call whose query is answered at once is its two steps with nothing
    in between. *)
Lemma update_in_steps (s : Server) (masters : list string) :
  isConnected (wsClient s) = true ->
  endUpdate (beginUpdate s) (inr masters) = updateMasterSubscriptions s masters.
Proof.
  intros Hc. unfold beginUpdate, updateMasterSubscriptions. rewrite Hc.
  reflexivity.
Qed.

(** On ['open'] the owner sends deltas only: a wallet that is in the
    SubscriptionSet is not subscribed again. *)
Lemma open_skips_known (s : Server) (masters : list string) (m : string) :
  wallet (wsClient s) = None ->
  In m (activeSubscriptions s) ->
  ~ In m (subscribed (snd (react s (SocketOpened masters)))).
Proof.
  intros Hw Hin. unfold react.
  destruct (exited s); [intros []|].
  destruct (ws (wsClient s)) as [[]|]; try (intros []).
  unfold afterConnected, onOpen. cbn [wallet]. rewrite Hw.
  match goal with
  | |- context [updateMasterSubscriptions ?s1 masters] =>
      pose proof (update_skips_known s1 masters m Hin) as Hskip;
      destruct (updateMasterSubscriptions s1 masters) as [s2 acts2]
  end.
  simpl in *. exact Hskip.
Qed.

(** C2: the feed opens with masters M1 and M2 active and both are
    subscribed; the session drops and is re-established; on the second
    open, with the same masters active and both still in the
    SubscriptionSet, no subscribe command is sent at all. *)
Theorem reconnect_does_not_replay_subscriptions :
  let masters := ["M1"; "M2"] in
  let first := react initialServer (SocketOpened masters) in
  let dropped := run (fst first) failure in
  let second := react (fst dropped) (SocketOpened masters) in
  subscribed (snd first) = ["M1"; "M2"] /\
  snd dropped = [EmitDisconnected; ScheduleConnect 1000; OpenSocket] /\
  isConnected (wsClient (fst second)) = true /\
  activeSubscriptions (fst second) = ["M1"; "M2"] /\
  subscribed (snd second) = [].
Proof. vm_compute. repeat split. Qed.

End FeedFacts.

(* ===================================================================== *)
(** ** More on the replication pipeline *)
(* ===================================================================== *)

Module PipelineFacts.
Import Js JsFacts Replication ReplicationFacts.
Local Open Scope js_scope.

Lemma orders_bind_cases {A B}
    (P : list (string * CreateMarketOrderParams) -> Prop)
    (m : M A) (f : A -> M B) :
  orders (trace m) = [] ->
  P [] ->
  (forall a, result m = Val a -> P (orders (trace (f a)))) ->
  P (orders (trace (bind m f))).
Proof.
  intros H H0 Hf. rewrite orders_bind by exact H.
  destruct (result m); auto.
Qed.

Lemma newClient_wallet env wallet apiKey client :
  result (newClient env wallet apiKey) = Val client ->
  uc_publicKey client = wallet.
Proof.
  unfold newClient. destruct (nonempty apiKey).
  - destruct (bs58_decode env apiKey); simpl; [discriminate|].
    intros H. injection H as <-. reflexivity.
  - intros H. injection H as <-. reflexivity.
Qed.



(** X2.  One pass over one relationship submits at most one order, and
    that order is placed for the relationship's own wallet, on the symbol
    of the fill as the feed spelled it, with slippage 0.5. *)
Theorem at_most_one_order (env : Env) (rel : CopyRelationship)
    (trade : Trade) :
  orders (trace (replicateToUser env rel trade)) = [] \/
  exists p,
    orders (trace (replicateToUser env rel trade)) = [(user_wallet rel, p)] /\
    om_symbol p = symbol trade /\
    om_slippage_percent p = "0.5".
Proof.
  rewrite replicateToUser_orders. unfold replicateToUser_body.
  apply orders_bind_cases;
    [destruct (_ && _); reflexivity | left; reflexivity | intros _ _].
  apply orders_bind_cases;
    [destruct (decryptApiKey env _); reflexivity | left; reflexivity
    | intros apiKey _].
  apply orders_bind_cases;
    [destruct (PACIFICA_API_URL env) as [u|];
      [destruct (nonempty u)|]; reflexivity
    | left; reflexivity | intros _ _].
  apply orders_bind_cases;
    [apply newClient_orders | left; reflexivity | intros client Hclient].
  apply orders_bind_cases;
    [apply baseAmount_orders | left; reflexivity | intros base _].
  apply orders_bind_cases; [reflexivity | left; reflexivity | intros _ _].
  apply orders_bind_cases;
    [destruct (_ <=? _)%float; reflexivity | left; reflexivity | intros _ _].
  apply orders_bind_cases;
    [apply readBalance_orders | left; reflexivity | intros available _].
  apply orders_bind_cases;
    [apply applyLeverageLimit_orders | left; reflexivity | intros amt _].
  apply orders_bind_cases;
    [apply formatAmount_orders | left; reflexivity | intros text _].
  apply orders_bind_cases;
    [destruct (_ <? _)%float; reflexivity | left; reflexivity | intros _ _].
  apply orders_bind_cases;
    [apply checkExposure_orders | left; reflexivity | intros _ _].
  apply orders_bind_cases;
    [rewrite lift_trace; reflexivity | left; reflexivity | intros orderSide _].
  right. rewrite trace_bind, orders_app, createMarketOrder_orders.
  rewrite (newClient_wallet _ _ _ _ Hclient).
  eexists.
  split;
    [ destruct (result (createMarketOrder env client _)) as [a| |e];
      simpl; try reflexivity;
      destruct (or_success a); reflexivity
    | split; reflexivity ].
Qed.

(** X3.  The side and the reduce-only flag of a submitted order follow the
    trade-side tag of the fill: opening long and closing short buy,
    closing long and opening short sell, and exactly the two closing tags
    are reduce-only.  No order is submitted for any other tag. *)
Theorem order_side_follows_tag (env : Env) (rel : CopyRelationship)
    (trade : Trade) (w : string) (p : CreateMarketOrderParams) :
  In (w, p) (orders (trace (replicateToUser env rel trade))) ->
  (side trade = "open_long" /\ om_side p = bid /\ om_reduce_only p = false) \/
  (side trade = "close_short" /\ om_side p = bid /\ om_reduce_only p = true) \/
  (side trade = "close_long" /\ om_side p = ask /\ om_reduce_only p = true) \/
  (side trade = "open_short" /\ om_side p = ask /\ om_reduce_only p = false).
Proof.
  intros Hin.
  apply submit_inv
    in Hin as (_ & _ & _ & _ & _ & _ & _ & _ & _ & _ & _ & Hside & Hred).
  rewrite Hred. clear Hred. unfold getSide in Hside.
  destruct (String.eqb_spec (side trade) "open_long") as [->|_].
  { injection Hside as <-. left. repeat split. }
  destruct (String.eqb_spec (side trade) "close_short") as [->|_].
  { injection Hside as <-. right. left. repeat split. }
  destruct (String.eqb_spec (side trade) "close_long") as [->|_].
  { injection Hside as <-. right. right. left. repeat split. }
  destruct (String.eqb_spec (side trade) "open_short") as [->|_].
  { injection Hside as <-. right. right. right. repeat split. }
  discriminate Hside.
Qed.

Lemma order_side_follows_tag_witness :
  let env := Scenarios.exchange 1000%float Scenarios.no_positions [] in
  let rel := Scenarios.plain multiplier 0.5%float in
  let p := {| om_symbol := "BTC"; om_amount := 0.001%float;
              om_formattedAmount := "0.001"; om_side := bid;
              om_slippage_percent := "0.5"; om_reduce_only := true |} in
  In ("U", p) (orders (trace (replicateToUser env rel Cases.fillCover))) /\
  side Cases.fillCover = "close_short" /\
  om_side p = bid /\ om_reduce_only p = true.
Proof.
  intros env rel p.
  assert (Hin : In ("U", p)
            (orders (trace (replicateToUser env rel Cases.fillCover))))
    by (vm_compute; left; reflexivity).
  split; [exact Hin|].
  destruct (order_side_follows_tag env rel Cases.fillCover "U" p Hin)
    as [(H & _)|[H|[(H & _)|(H & _)]]]; [discriminate H|exact H|..];
    discriminate H.
Defined.

Lemma readBalance_result env rel available :
  result (readBalance env rel) = Val available ->
  getAccountInfo env (user_wallet rel) (balanceReadIndex rel) =
  inr {| ai_success := true; ai_data := Some available |}.
Proof.
  unfold readBalance, readAccountInfo.
  destruct (getAccountInfo env (user_wallet rel) (balanceReadIndex rel))
    as [e|[[] [x|]]]; simpl; try discriminate.
  intros H. injection H as <-. reflexivity.
Qed.

(** *** A balance that cannot be read *)

Lemma insufficient_app (t1 t2 : list Event) :
  insufficient (t1 ++ t2) = insufficient t1 ++ insufficient t2.
Proof.
  induction t1 as [|e t1 IH]; simpl; [reflexivity|].
  destruct e as [[]| | | |]; simpl; rewrite IH; reflexivity.
Qed.

Lemma insufficient_bind {A B} (m : M A) (f : A -> M B) :
  insufficient (trace m) = [] ->
  insufficient (trace (bind m f)) =
  match result m with
  | Val a => insufficient (trace (f a))
  | _ => []
  end.
Proof.
  intros H. rewrite trace_bind, insufficient_app, H. simpl.
  destruct (result m); reflexivity.
Qed.

Lemma insufficient_bind_cases {A B} (m : M A) (f : A -> M B) :
  insufficient (trace m) = [] ->
  (forall a, result m = Val a -> insufficient (trace (f a)) = []) ->
  insufficient (trace (bind m f)) = [].
Proof.
  intros H Hf. rewrite insufficient_bind by exact H.
  destruct (result m); auto.
Qed.

(** NaN is below nothing. *)
Lemma nan_not_below (a c : float) :
  is_nan a = true -> PrimFloat.ltb a c = false.
Proof.
  unfold is_nan. rewrite FloatAxioms.eqb_spec, FloatAxioms.ltb_spec.
  destruct (Prim2SF a) as [s|s| |s m e]; simpl;
    try (destruct s; discriminate); try reflexivity.
  unfold SFeqb. simpl.
  rewrite Z.compare_refl, Pos.compare_cont_refl. destruct s; discriminate.
Qed.

Lemma insufficient_replicateToUser env rel trade :
  insufficient (trace (replicateToUser env rel trade)) =
  insufficient (trace (replicateToUser_body env rel trade)).
Proof.
  unfold replicateToUser.
  rewrite trace_call, trace_try_catch, insufficient_app.
  destruct (result (replicateToUser_body env rel trade));
    simpl; rewrite app_nil_r; reflexivity.
Qed.

(** X4.  The balance read fails closed on a failed read, and open on a
    balance that cannot be read.  No order is submitted unless the account
    read that precedes the checks is answered, reports [success] and
    carries a [data] (a rejected read, a body reporting failure and a body
    without data all end the pass).  But when that [data] has no usable
    [available_to_spend], the balance is NaN, and the pass is never refused
    for insufficient balance: [available < cost] is false whatever the
    cost. *)
Theorem failed_balance_read_never_orders (env : Env)
    (rel : CopyRelationship) (trade : Trade) :
  ((forall available,
      getAccountInfo env (user_wallet rel) (balanceReadIndex rel) <>
      inr {| ai_success := true; ai_data := Some available |}) ->
   orders (trace (replicateToUser env rel trade)) = []) /\
  (forall available,
     getAccountInfo env (user_wallet rel) (balanceReadIndex rel) =
       inr {| ai_success := true; ai_data := Some available |} ->
     is_nan available = true ->
     insufficient (trace (replicateToUser env rel trade)) = []).
Proof.
  split.
  - intros Hfail.
    destruct (nil_or_in (orders (trace (replicateToUser env rel trade))))
      as [H|[[w p] Hin]]; [exact H|].
    apply submit_inv in Hin as (_ & available & _ & _ & Hav & _).
    apply readBalance_result in Hav. destruct (Hfail available Hav).
  - intros available Hread Hnan.
    rewrite insufficient_replicateToUser. unfold replicateToUser_body.
    apply insufficient_bind_cases;
      [destruct (_ && _); reflexivity | intros _ _].
    apply insufficient_bind_cases;
      [destruct (decryptApiKey env _); reflexivity | intros apiKey _].
    apply insufficient_bind_cases;
      [destruct (PACIFICA_API_URL env) as [u|];
        [destruct (nonempty u)|]; reflexivity | intros _ _].
    apply insufficient_bind_cases;
      [unfold newClient; destruct (nonempty apiKey);
        [destruct (bs58_decode env apiKey)|]; reflexivity
      | intros client _].
    apply insufficient_bind_cases;
      [unfold baseAmount, readAccountInfo;
       destruct (sizing_method rel); try reflexivity;
       destruct (getAccountInfo env (user_wallet rel) 0) as [e|[[] [x|]]];
       reflexivity
      | intros base _].
    apply insufficient_bind_cases; [reflexivity | intros _ _].
    apply insufficient_bind_cases;
      [destruct (_ <=? _)%float; reflexivity | intros _ _].
    apply insufficient_bind_cases;
      [unfold readBalance, readAccountInfo; rewrite Hread; reflexivity
      | intros available' Hav].
    apply readBalance_result in Hav. rewrite Hread in Hav.
    injection Hav as <-.
    apply insufficient_bind_cases;
      [unfold applyLeverageLimit;
       destruct (truthy_opt (custom_leverage rel)); [|reflexivity];
       unfold when; destruct (_ <? _)%float;
       destruct (_ <=? _)%float; reflexivity
      | intros amt _].
    apply insufficient_bind_cases;
      [rewrite lift_trace; reflexivity | intros text _].
    rewrite (nan_not_below available _ Hnan).
    apply insufficient_bind_cases; [reflexivity | intros _ _].
    apply insufficient_bind_cases;
      [unfold checkExposure;
       destruct (truthy_opt (max_total_exposure rel)); [|reflexivity];
       destruct (publicRestClient env); [|reflexivity];
       destruct (getPositions env (user_wallet rel))
         as [e|[[] [[items|[|ps|]]|]]]; try reflexivity;
       simpl; destruct (_ <? _)%float; reflexivity
      | intros _ _].
    apply insufficient_bind_cases;
      [rewrite lift_trace; reflexivity | intros orderSide _].
    rewrite trace_bind, insufficient_app.
    assert (Hc : forall p, insufficient
                   (trace (createMarketOrder env client p)) = []).
    { intros p. unfold createMarketOrder.
      rewrite trace_bind, insufficient_app. simpl.
      destruct (_ && _); [rewrite lift_trace|]; reflexivity. }
    rewrite Hc. simpl.
    destruct (result (createMarketOrder env client _)) as [a| |e];
      try reflexivity.
    destruct (or_success a); reflexivity.
Qed.

Lemma failed_balance_read_never_orders_witness :
  orders (trace (replicateToUser
                   (Cases.exchangeWith Cases.refused true
                      Scenarios.no_positions [])
                   (Scenarios.plain multiplier 0.5%float)
                   Scenarios.fillBTC)) = [] /\
  (let env := Cases.exchangeWith Cases.unreadable true
                Scenarios.no_positions [] in
   let rel := Scenarios.plain multiplier 0.5%float in
   is_nan PrimFloat.nan = true /\
   insufficient (trace (replicateToUser env rel Scenarios.fillBTC)) = [] /\
   orders (trace (replicateToUser env rel Scenarios.fillBTC)) =
   [("U", {| om_symbol := "BTC"; om_amount := 0.001%float;
             om_formattedAmount := "0.001"; om_side := bid;
             om_slippage_percent := "0.5"; om_reduce_only := false |})]).
Proof.
  split.
  - apply failed_balance_read_never_orders. intros available H.
    discriminate H.
  - cbv zeta. split; [reflexivity|]. split; [|vm_compute; reflexivity].
    apply (proj2 (failed_balance_read_never_orders
                    (Cases.exchangeWith Cases.unreadable true
                       Scenarios.no_positions [])
                    (Scenarios.plain multiplier 0.5%float)
                    Scenarios.fillBTC) PrimFloat.nan);
      reflexivity.
Defined.

Lemma baseAmount_balance_percent env rel trade base :
  sizing_method rel = balance_percent ->
  result (baseAmount env rel trade) = Val base ->
  exists available,
    getAccountInfo env (user_wallet rel) 0 =
      inr {| ai_success := true; ai_data := Some available |} /\
    base = ((available * sizing_value rel / 100) / price trade)%float.
Proof.
  unfold baseAmount, readAccountInfo. intros ->.
  destruct (getAccountInfo env (user_wallet rel) 0) as [e|[[] [x|]]];
    simpl; try discriminate.
  intros H. injection H as <-. eauto.
Qed.

(** X5.  Under [balance_percent] the balance is read twice: the amount is
    sized from the first read, and the balance check compares the cost of
    the order with a second, later read.  An order is submitted only if
    both reads succeeded. *)
Theorem balance_percent_reads_twice (env : Env) (rel : CopyRelationship)
    (trade : Trade) (w : string) (p : CreateMarketOrderParams) :
  sizing_method rel = balance_percent ->
  In (w, p) (orders (trace (replicateToUser env rel trade))) ->
  exists first second,
    getAccountInfo env (user_wallet rel) 0 =
      inr {| ai_success := true; ai_data := Some first |} /\
    getAccountInfo env (user_wallet rel) 1 =
      inr {| ai_success := true; ai_data := Some second |} /\
    result (baseAmount env rel trade) =
      Val ((first * sizing_value rel / 100) / price trade)%float /\
    (second <? om_amount p * price trade)%float = false.
Proof.
  intros Hm Hin.
  apply submit_inv in Hin
    as (base & available & Hbase & _ & Hav & _ & _ & Hcost & _).
  destruct (baseAmount_balance_percent _ _ _ _ Hm Hbase) as (first & H0 & ->).
  apply readBalance_result in Hav.
  unfold balanceReadIndex in Hav. rewrite Hm in Hav.
  exists first, available. repeat split; assumption.
Qed.

Lemma balance_percent_reads_twice_witness :
  let env := Cases.exchangeWith Cases.drained true Scenarios.no_positions [] in
  let rel := Scenarios.plain balance_percent 1%float in
  let p := {| om_symbol := "BTC"; om_amount := 0.0002%float;
              om_formattedAmount := "0.0002"; om_side := bid;
              om_slippage_percent := "0.5"; om_reduce_only := false |} in
  In ("U", p) (orders (trace (replicateToUser env rel Scenarios.fillBTC))) /\
  exists first second,
    getAccountInfo env "U" 0 =
      inr {| ai_success := true; ai_data := Some first |} /\
    getAccountInfo env "U" 1 =
      inr {| ai_success := true; ai_data := Some second |} /\
    first = 1000%float /\ second = 40%float.
Proof.
  intros env rel p.
  assert (Hin : In ("U", p)
            (orders (trace (replicateToUser env rel Scenarios.fillBTC))))
    by (vm_compute; left; reflexivity).
  split; [exact Hin|].
  destruct (balance_percent_reads_twice env rel Scenarios.fillBTC "U" p
              eq_refl Hin) as (first & second & H0 & H1 & _).
  exists first, second. repeat split; try assumption.
  - injection H0 as <-. reflexivity.
  - injection H1 as <-. reflexivity.
Defined.

(** X6.  With an exposure limit configured, the exposure check fails
    closed on a missing public client and on a rejected positions read: in
    both cases no order is submitted. *)
Theorem exposure_check_fails_closed (env : Env) (rel : CopyRelationship)
    (trade : Trade) (limit : float) :
  max_total_exposure rel = Some limit ->
  truthy limit = true ->
  publicRestClient env = false \/
  (exists e, getPositions env (user_wallet rel) = inl e) ->
  orders (trace (replicateToUser env rel trade)) = [].
Proof.
  intros Hl Ht Hc.
  destruct (nil_or_in (orders (trace (replicateToUser env rel trade))))
    as [H|[[w p] Hin]]; [exact H|].
  apply submit_inv in Hin as (_ & _ & _ & _ & _ & _ & _ & _ & Hexp & _).
  unfold checkExposure in Hexp. rewrite Hl in Hexp. simpl in Hexp.
  rewrite Ht in Hexp.
  destruct (publicRestClient env).
  - destruct Hc as [Hc|[e Hc]]; [discriminate Hc|].
    rewrite Hc in Hexp. discriminate Hexp.
  - discriminate Hexp.
Qed.

Lemma exposure_check_fails_closed_witness :
  orders (trace (replicateToUser
                   (Cases.exchangeWith Cases.funded false
                      Scenarios.no_positions [])
                   (Scenarios.copier "U" "iv:tag:data" multiplier 0.5%float
                                     None (Some 100%float))
                   Scenarios.fillBTC)) = [] /\
  orders (trace (replicateToUser
                   (Cases.exchangeWith Cases.funded true
                      (inl (Error "HTTP 500")) [])
                   (Scenarios.copier "U" "iv:tag:data" multiplier 0.5%float
                                     None (Some 100%float))
                   Scenarios.fillBTC)) = [].
Proof.
  split.
  - apply (exposure_check_fails_closed _ _ _ 100%float);
      [reflexivity | reflexivity | left; reflexivity].
  - apply (exposure_check_fails_closed _ _ _ 100%float);
      [reflexivity | reflexivity | right; eexists; reflexivity].
Defined.

Lemma replicateTrade_orders env masterWallet trade :
  orders (trace (replicateTrade env masterWallet trade)) =
  match findAll env with
  | inr rows =>
      flat_map (fun rel => orders (trace (replicateToUser env rel trade)))
               (activeFor masterWallet rows)
  | inl _ => []
  end.
Proof.
  unfold replicateTrade. rewrite trace_call, trace_try_catch.
  destruct (findAll env) as [e|rows]; [reflexivity|].
  cbn [lift ret bind log emit trace result fst snd app].
  destruct (activeFor masterWallet rows) as [|rel rels] eqn:Hact;
    [reflexivity|].
  cbn [length Nat.eqb]. rewrite Promise_all_replicate.
  cbn [log emit bind trace result fst snd app].
  rewrite app_nil_r.
  change (EvLog MasterTrade
          :: EvGetMarketInfo (toUpperCase (symbol trade))
          :: EvLog (ReplicatingTo (S (length rels)))
          :: flat_map (fun rel => trace (replicateToUser env rel trade))
               (rel :: rels) ++ [EvLog ReplicationComplete])
    with ([EvLog MasterTrade;
           EvGetMarketInfo (toUpperCase (symbol trade));
           EvLog (ReplicatingTo (S (length rels)))]
          ++ flat_map (fun rel => trace (replicateToUser env rel trade))
               (rel :: rels) ++ [EvLog ReplicationComplete]).
  rewrite !orders_app. cbn [orders app]. rewrite app_nil_r.
  generalize (rel :: rels). intros l.
  induction l as [|r l IH]; [reflexivity|].
  cbn [flat_map]. rewrite orders_app, IH. reflexivity.
Qed.

(** X7.  A fill of a master leads to orders only for the relationships
    that follow that master and are active: every order submitted by
    [replicateTrade] is an order of the pass over such a relationship, in
    the wallet of that relationship.  If the relationship table cannot be
    read, nothing is submitted. *)
Theorem orders_only_for_active_followers (env : Env) (masterWallet : string)
    (trade : Trade) (w : string) (p : CreateMarketOrderParams) :
  In (w, p) (orders (trace (replicateTrade env masterWallet trade))) ->
  exists rows rel,
    findAll env = inr rows /\
    In rel rows /\
    master_wallet rel = masterWallet /\
    is_active rel = true /\
    w = user_wallet rel /\
    In (w, p) (orders (trace (replicateToUser env rel trade))).
Proof.
  rewrite replicateTrade_orders.
  destruct (findAll env) as [e|rows]; [intros []|].
  intros Hin. apply in_flat_map in Hin as (rel & Hrel & Hin).
  unfold activeFor in Hrel. apply filter_In in Hrel as (Hrow & Hb).
  apply andb_true_iff in Hb as (Hm & Ha).
  apply String.eqb_eq in Hm.
  exists rows, rel. repeat split; try assumption.
  apply submit_inv in Hin as (_ & _ & _ & _ & _ & _ & _ & _ & _ & Hw & _).
  exact Hw.
Qed.

Lemma orders_only_for_active_followers_witness :
  let rows := [Cases.follower "A" "M" true; Cases.follower "B" "M" false;
               Cases.follower "C" "N" true] in
  let env := Scenarios.exchange 1000%float Scenarios.no_positions rows in
  map fst (orders (trace (replicateTrade env "M" Scenarios.fillBTC))) = ["A"] /\
  exists rel, In rel rows /\ master_wallet rel = "M" /\
              is_active rel = true /\ user_wallet rel = "A".
Proof.
  intros rows env.
  split; [reflexivity|].
  set (p := {| om_symbol := "BTC"; om_amount := 0.001%float;
               om_formattedAmount := "0.001"; om_side := bid;
               om_slippage_percent := "0.5"; om_reduce_only := false |}).
  assert (Hin : In ("A", p)
            (orders (trace (replicateTrade env "M" Scenarios.fillBTC))))
    by (vm_compute; left; reflexivity).
  destruct (orders_only_for_active_followers env "M" Scenarios.fillBTC "A" p
              Hin)
    as (rows' & rel & Hrows & Hrel & Hm & Ha & Hw & _).
  injection Hrows as <-.
  exists rel. split; [exact Hrel|]. split; [exact Hm|].
  split; [exact Ha | symmetry; exact Hw].
Defined.

End PipelineFacts.

(* ===================================================================== *)
(** ** More on the subscription set and the reconnection *)
(* ===================================================================== *)

Module SubscriptionFacts.
Import Feed FeedFacts Commands.

Lemma has_In (set : list string) (x : string) :
  has set x = true <-> In x set.
Proof.
  unfold has. rewrite existsb_exists. split.
  - intros (y & Hin & Heq). apply String.eqb_eq in Heq. subst y. exact Hin.
  - intros Hin. exists x. split; [exact Hin | apply String.eqb_refl].
Qed.

Lemma has_not_In (set : list string) (x : string) :
  has set x = false <-> ~ In x set.
Proof.
  rewrite <- has_In. destruct (has set x); split; congruence.
Qed.

Lemma NoDup_add_last (l : list string) (x : string) :
  ~ In x l -> List.NoDup l -> List.NoDup (l ++ [x]).
Proof.
  intros Hx Hnd. induction Hnd as [|y l Hy Hnd IH]; simpl.
  - constructor; [intros []|constructor].
  - constructor.
    + rewrite in_app_iff. simpl. intros [H|[H|[]]]; [contradiction|].
      apply Hx. left. symmetry. exact H.
    + apply IH. intros H. apply Hx. right. exact H.
Qed.

(** [new Set(list)] *)

Lemma toSet_In (l seen : list string) (m : string) :
  In m (toSet seen l) <-> In m seen \/ In m l.
Proof.
  revert seen. induction l as [|x l IH]; intros seen; simpl.
  - tauto.
  - destruct (has seen x) eqn:Hx; rewrite IH.
    + apply has_In in Hx. split; [tauto|].
      intros [H|[<-|H]]; tauto.
    + rewrite in_app_iff. simpl. tauto.
Qed.

Lemma toSet_NoDup (l seen : list string) :
  List.NoDup seen -> List.NoDup (toSet seen l).
Proof.
  revert seen. induction l as [|x l IH]; intros seen Hnd; simpl; [exact Hnd|].
  destruct (has seen x) eqn:Hx; [apply IH, Hnd|].
  apply IH. apply has_not_In in Hx. apply NoDup_add_last; assumption.
Qed.

(** The two loops, one master at a time. *)

Lemma subscribeNew_known (c : WsClient) (subs rest : list string)
    (master : string) :
  has subs master = true ->
  subscribeNew c subs (master :: rest) = subscribeNew c subs rest.
Proof. intros H. simpl. rewrite H. reflexivity. Qed.

Lemma subscribeNew_new (c : WsClient) (subs rest : list string)
    (master : string) :
  has subs master = false ->
  subscribeNew c subs (master :: rest) =
  (fst (subscribeNew c (subs ++ [master]) rest),
   subscribeToAccount c "account_trades" master
     ++ snd (subscribeNew c (subs ++ [master]) rest)).
Proof.
  intros H. simpl. rewrite H.
  destruct (subscribeNew c (subs ++ [master]) rest); reflexivity.
Qed.

Lemma unsubscribeGone_cons (c : WsClient) (activeMasters rest : list string)
    (master : string) :
  unsubscribeGone c activeMasters (master :: rest) =
  if has activeMasters master
  then (master :: fst (unsubscribeGone c activeMasters rest),
        snd (unsubscribeGone c activeMasters rest))
  else (fst (unsubscribeGone c activeMasters rest),
        unsubscribeFromAccount c "account_trades" master
          ++ snd (unsubscribeGone c activeMasters rest)).
Proof.
  simpl. destruct (unsubscribeGone c activeMasters rest).
  destruct (has activeMasters master); reflexivity.
Qed.

Lemma update_connected (s : Server) (masters : list string) :
  isConnected (wsClient s) = true ->
  updateMasterSubscriptions s masters =
  let activeMasters := toSet [] masters in
  let r1 := subscribeNew (wsClient s) (activeSubscriptions s) activeMasters in
  let r2 := unsubscribeGone (wsClient s) activeMasters (fst r1) in
  ({| wsClient := wsClient s;
      activeSubscriptions := fst r2;
      connectTimer := connectTimer s;
      exited := exited s;
      awaited := awaited s |}, snd r1 ++ snd r2).
Proof.
  intros H. rewrite update_loops. unfold reconcile. rewrite H. simpl.
  destruct (subscribeNew _ _ _) as [subs1 acts1]. simpl.
  destruct (unsubscribeGone _ _ _) as [subs2 acts2]. reflexivity.
Qed.

(** The set after each loop. *)

Lemma subscribeNew_In (c : WsClient) (masters subs : list string) (m : string) :
  In m (fst (subscribeNew c subs masters)) <-> In m subs \/ In m masters.
Proof.
  revert subs. induction masters as [|x rest IH]; intros subs.
  - simpl. tauto.
  - destruct (has subs x) eqn:Hx.
    + rewrite subscribeNew_known by exact Hx. rewrite IH.
      apply has_In in Hx. simpl. split; [tauto|].
      intros [H|[<-|H]]; tauto.
    + rewrite subscribeNew_new by exact Hx. simpl. rewrite IH, in_app_iff.
      simpl. tauto.
Qed.

Lemma subscribeNew_NoDup (c : WsClient) (masters subs : list string) :
  List.NoDup subs -> List.NoDup (fst (subscribeNew c subs masters)).
Proof.
  revert subs. induction masters as [|x rest IH]; intros subs Hnd;
    [exact Hnd|].
  destruct (has subs x) eqn:Hx.
  - rewrite subscribeNew_known by exact Hx. apply IH, Hnd.
  - rewrite subscribeNew_new by exact Hx. simpl. apply IH.
    apply has_not_In in Hx. apply NoDup_add_last; assumption.
Qed.

Lemma unsubscribeGone_fst (c : WsClient) (activeMasters subs : list string) :
  fst (unsubscribeGone c activeMasters subs) =
  List.filter (has activeMasters) subs.
Proof.
  induction subs as [|x rest IH]; [reflexivity|].
  rewrite unsubscribeGone_cons. simpl.
  destruct (has activeMasters x); simpl; rewrite IH; reflexivity.
Qed.

(** The commands of each loop. *)

Lemma unsubscribed_app (a1 a2 : list Action) :
  unsubscribed (a1 ++ a2) = unsubscribed a1 ++ unsubscribed a2.
Proof.
  induction a1 as [|a a1 IH]; simpl; [reflexivity|].
  destruct a as [|[]| | | | | |]; simpl; rewrite IH; reflexivity.
Qed.

Lemma subscribeNew_subscribed (c : WsClient) (masters subs : list string)
    (m : string) :
  isConnected c = true ->
  (In m (subscribed (snd (subscribeNew c subs masters))) <->
   In m masters /\ ~ In m subs).
Proof.
  intros Hc. revert subs. induction masters as [|x rest IH]; intros subs.
  - simpl. tauto.
  - destruct (has subs x) eqn:Hx.
    + rewrite subscribeNew_known by exact Hx. rewrite IH.
      apply has_In in Hx. simpl. split; [tauto|].
      intros [[<-|H] Hn]; [contradiction | tauto].
    + rewrite subscribeNew_new by exact Hx.
      apply has_not_In in Hx. unfold subscribeToAccount. rewrite Hc.
      simpl. rewrite IH, in_app_iff. simpl. split.
      * intros [<-|[H Hn]]; [tauto|]. split; [tauto|]. tauto.
      * intros [[<-|H] Hn]; [tauto|].
        destruct (string_dec x m) as [->|Hne]; [tauto|].
        right. split; [exact H|]. intros [H'|[H'|[]]]; contradiction.
Qed.

Lemma subscribeNew_subscribed_NoDup (c : WsClient) (masters subs : list string) :
  List.NoDup (subscribed (snd (subscribeNew c subs masters))).
Proof.
  revert subs. induction masters as [|x rest IH]; intros subs;
    [constructor|].
  destruct (has subs x) eqn:Hx.
  - rewrite subscribeNew_known by exact Hx. apply IH.
  - rewrite subscribeNew_new by exact Hx. simpl snd.
    rewrite subscribed_app. unfold subscribeToAccount.
    destruct (isConnected c); simpl; [|apply IH].
    constructor; [|apply IH].
    apply subscribeNew_skips_known, in_or_app. right. left. reflexivity.
Qed.

Lemma subscribeNew_unsubscribed (c : WsClient) (masters subs : list string) :
  unsubscribed (snd (subscribeNew c subs masters)) = [].
Proof.
  revert subs. induction masters as [|x rest IH]; intros subs;
    [reflexivity|].
  destruct (has subs x) eqn:Hx.
  - rewrite subscribeNew_known by exact Hx. apply IH.
  - rewrite subscribeNew_new by exact Hx. simpl snd.
    rewrite unsubscribed_app, IH. unfold subscribeToAccount.
    destruct (isConnected c); reflexivity.
Qed.

Lemma unsubscribeGone_unsubscribed (c : WsClient)
    (activeMasters subs : list string) (m : string) :
  isConnected c = true ->
  (In m (unsubscribed (snd (unsubscribeGone c activeMasters subs))) <->
   In m subs /\ ~ In m activeMasters).
Proof.
  intros Hc. induction subs as [|x rest IH].
  - simpl. tauto.
  - rewrite unsubscribeGone_cons.
    destruct (has activeMasters x) eqn:Hx; simpl snd.
    + rewrite IH. apply has_In in Hx. simpl. split; [tauto|].
      intros [[<-|H] Hn]; [contradiction | tauto].
    + apply has_not_In in Hx. unfold unsubscribeFromAccount. rewrite Hc.
      simpl. rewrite IH. split; [intros [<-|H]; tauto|].
      intros [[<-|H] Hn]; tauto.
Qed.

(** The first loop is silent when every master is in the set, the second
    when every member of the set is a master. *)

Lemma subscribeNew_all_known (c : WsClient) (masters subs : list string) :
  (forall m, In m masters -> In m subs) ->
  subscribeNew c subs masters = (subs, []).
Proof.
  induction masters as [|x rest IH]; intros H; [reflexivity|].
  rewrite subscribeNew_known.
  - apply IH. intros m Hm. apply H. right. exact Hm.
  - apply has_In, H. left. reflexivity.
Qed.

Lemma unsubscribeGone_all_active (c : WsClient)
    (activeMasters subs : list string) :
  (forall m, In m subs -> In m activeMasters) ->
  unsubscribeGone c activeMasters subs = (subs, []).
Proof.
  induction subs as [|x rest IH]; intros H; [reflexivity|].
  rewrite unsubscribeGone_cons.
  assert (Hx : has activeMasters x = true)
    by (apply has_In, H; left; reflexivity).
  rewrite Hx, IH; [reflexivity|].
  intros m Hm. apply H. right. exact Hm.
Qed.

Lemma update_set (s : Server) (masters : list string) (m : string) :
  isConnected (wsClient s) = true ->
  (In m (activeSubscriptions (fst (updateMasterSubscriptions s masters)))
   <-> In m masters).
Proof.
  intros Hc. rewrite update_connected by exact Hc. simpl.
  rewrite unsubscribeGone_fst, filter_In, subscribeNew_In, has_In, toSet_In.
  simpl. tauto.
Qed.

(** X8.  A reconciliation made while the socket is open leaves the
    subscription set holding exactly the master wallets of the active
    relationships, each once. *)
Theorem reconcile_makes_set_exact (s : Server) (masters : list string) :
  isConnected (wsClient s) = true ->
  let s' := fst (updateMasterSubscriptions s masters) in
  (forall m, In m (activeSubscriptions s') <-> In m masters) /\
  (List.NoDup (activeSubscriptions s) -> List.NoDup (activeSubscriptions s')).
Proof.
  intros Hc s'. split.
  - intros m. apply update_set, Hc.
  - intros Hnd. subst s'. rewrite update_connected by exact Hc. simpl.
    rewrite unsubscribeGone_fst. apply List.NoDup_filter.
    apply subscribeNew_NoDup, Hnd.
Qed.

Lemma reconcile_makes_set_exact_witness :
  isConnected (wsClient (serving ["A"; "B"])) = true /\
  activeSubscriptions
    (fst (updateMasterSubscriptions (serving ["A"; "B"]) ["C"; "B"; "C"]))
  = ["B"; "C"] /\
  forall m,
    In m (activeSubscriptions
            (fst (updateMasterSubscriptions (serving ["A"; "B"])
                    ["C"; "B"; "C"])))
    <-> In m ["C"; "B"; "C"].
Proof.
  split; [reflexivity|]. split; [reflexivity|].
  exact (proj1 (reconcile_makes_set_exact (serving ["A"; "B"])
                  ["C"; "B"; "C"] eq_refl)).
Defined.

(** The loops one by one, whatever the socket. *)
Lemma reconcile_eq (s : Server) (masters : list string) :
  reconcile s masters =
  let activeMasters := toSet [] masters in
  let r1 := subscribeNew (wsClient s) (activeSubscriptions s) activeMasters in
  let r2 := unsubscribeGone (wsClient s) activeMasters (fst r1) in
  ({| wsClient := wsClient s;
      activeSubscriptions := fst r2;
      connectTimer := connectTimer s;
      exited := exited s;
      awaited := awaited s |}, snd r1 ++ snd r2).
Proof.
  unfold reconcile.
  destruct (subscribeNew _ _ _) as [subs1 acts1]. simpl.
  destruct (unsubscribeGone _ _ _) as [subs2 acts2]. reflexivity.
Qed.

Lemma reconcile_set (s : Server) (masters : list string) (m : string) :
  In m (activeSubscriptions (fst (reconcile s masters))) <-> In m masters.
Proof.
  rewrite reconcile_eq. simpl.
  rewrite unsubscribeGone_fst, filter_In, subscribeNew_In, has_In, toSet_In.
  simpl. tauto.
Qed.

(** On a socket that is not open the loops send nothing. *)
Lemma subscribeNew_quiet (c : WsClient) (masters subs : list string)
    (cmd : Command) :
  isConnected c = false -> ~ In (Send cmd) (snd (subscribeNew c subs masters)).
Proof.
  intros Hc. revert subs. induction masters as [|x rest IH]; intros subs;
    [intros []|].
  destruct (has subs x) eqn:Hx.
  - rewrite subscribeNew_known by exact Hx. apply IH.
  - rewrite subscribeNew_new by exact Hx. simpl snd.
    unfold subscribeToAccount. rewrite Hc. simpl.
    intros [H|H]; [discriminate H | exact (IH _ H)].
Qed.

Lemma unsubscribeGone_quiet (c : WsClient) (activeMasters subs : list string)
    (cmd : Command) :
  isConnected c = false ->
  ~ In (Send cmd) (snd (unsubscribeGone c activeMasters subs)).
Proof.
  intros Hc. induction subs as [|x rest IH]; [intros []|].
  rewrite unsubscribeGone_cons.
  destruct (has activeMasters x); simpl snd; [exact IH|].
  unfold unsubscribeFromAccount. rewrite Hc. simpl.
  intros [H|H]; [discriminate H | exact (IH H)].
Qed.

Lemma reconcile_quiet (s : Server) (masters : list string) (cmd : Command) :
  isConnected (wsClient s) = false ->
  ~ In (Send cmd) (snd (reconcile s masters)).
Proof.
  intros Hc. rewrite reconcile_eq. simpl. rewrite in_app_iff.
  intros [H|H];
    [exact (subscribeNew_quiet _ _ _ _ Hc H)
    | exact (unsubscribeGone_quiet _ _ _ _ Hc H)].
Qed.

Lemma subscribed_quiet (acts : list Action) :
  (forall cmd, ~ In (Send cmd) acts) ->
  subscribed acts = [] /\ unsubscribed acts = [].
Proof.
  induction acts as [|a acts IH]; intros H; [split; reflexivity|].
  assert (Hrest : forall cmd, ~ In (Send cmd) acts)
    by (intros cmd Hin; exact (H cmd (or_intror Hin))).
  destruct (IH Hrest) as [Hs Hu].
  destruct a as [|cmd| | | | | |]; simpl; try (split; assumption).
  destruct (H cmd (or_introl eq_refl)).
Qed.

(** What the ['close'] handler does, as the owner sees it, contains no
    command. *)
Lemma onClose_quiet (c : WsClient) (cmd : Command) :
  ~ In (Send cmd) (deliver (snd (onClose c))).
Proof.
  unfold onClose, reconnect.
  cbn [shouldReconnect cleanup setWs reconnectAttempts].
  destruct (shouldReconnect c);
    [destruct (maxReconnectAttempts <=? reconnectAttempts c)%nat|];
    simpl; intuition discriminate.
Qed.

Lemma onClose_closed (c : WsClient) :
  isConnected (fst (onClose c)) = false.
Proof.
  unfold onClose, reconnect, isConnected.
  cbn [shouldReconnect cleanup setWs reconnectAttempts].
  destruct (shouldReconnect c);
    [destruct (maxReconnectAttempts <=? reconnectAttempts c)%nat|];
    reflexivity.
Qed.

(** The run in which the socket closes while the query is awaited. *)
Lemma race_run (s : Server) (masters : list string) :
  isConnected (wsClient s) = true -> exited s = None ->
  run s [UpdateStarted; SocketClosed; QueryAnswered (inr masters)] =
  let close := onClose (wsClient s) in
  let s2 :=
    setClient (setAwaited s (S (awaited s))) (fst close)
      (connectTimer s || negb (is_nil (scheduled (snd close)))) in
  let r := reconcile (setAwaited s2 (awaited s)) masters in
  (fst r, deliver (snd close) ++ snd r).
Proof.
  intros Hc Hex.
  assert (Hopen : ws (wsClient s) = Some OPEN).
  { unfold isConnected in Hc.
    destruct (ws (wsClient s)) as [[| |]|]; try discriminate Hc.
    reflexivity. }
  assert (E1 : react s UpdateStarted = (setAwaited s (S (awaited s)), [])).
  { unfold react, beginUpdate. rewrite Hex, Hc. reflexivity. }
  assert (E2 : react (setAwaited s (S (awaited s))) SocketClosed =
               (setClient (setAwaited s (S (awaited s)))
                  (fst (onClose (wsClient s)))
                  (connectTimer s
                   || negb (is_nil (scheduled (snd (onClose (wsClient s)))))),
                deliver (snd (onClose (wsClient s))))).
  { unfold react. cbn [setAwaited exited wsClient connectTimer].
    rewrite Hex, Hopen. destruct (onClose (wsClient s)); reflexivity. }
  cbv zeta. cbn [run]. rewrite E1, E2.
  match goal with
  | |- context [react ?s2 (QueryAnswered _)] =>
      assert (E3 : react s2 (QueryAnswered (inr masters)) =
                   reconcile (setAwaited s2 (awaited s)) masters)
        by (unfold react; cbn [setClient setAwaited exited]; rewrite Hex;
            reflexivity)
  end.
  rewrite E3. destruct (reconcile _ masters) as [s4 acts4].
  cbn [fst snd app]. rewrite app_nil_r. reflexivity.
Qed.

(** X9.  When the query of a reconciliation is answered, the loops run on
    the socket as it is by then.  If it is open, the commands are the
    difference between the active masters and the set: a subscribe, sent
    once, for every active master that was not in the set, an unsubscribe
    for every member of the set that is no longer an active master, and
    nothing for a master that stays.  If it is not, no command is sent,
    and the set is made to hold the active masters all the same.  That
    case is reached when the socket closes while the query is awaited:
    the call passes the guard, the socket closes, the query answers; the
    masters that were new are then in the set without ever having been
    subscribed. *)
Theorem reconcile_sends_the_difference (s : Server) (masters : list string) :
  let acts := snd (reconcile s masters) in
  (isConnected (wsClient s) = true ->
     (forall m, In m (subscribed acts) <->
                In m masters /\ ~ In m (activeSubscriptions s)) /\
     (forall m, In m (unsubscribed acts) <->
                In m (activeSubscriptions s) /\ ~ In m masters) /\
     List.NoDup (subscribed acts)) /\
  (isConnected (wsClient s) = false ->
     subscribed acts = [] /\ unsubscribed acts = [] /\
     forall m, In m (activeSubscriptions (fst (reconcile s masters)))
               <-> In m masters) /\
  (isConnected (wsClient s) = true -> exited s = None ->
     let race :=
       run s [UpdateStarted; SocketClosed; QueryAnswered (inr masters)] in
     subscribed (snd race) = [] /\ unsubscribed (snd race) = [] /\
     forall m, In m (activeSubscriptions (fst race)) <-> In m masters).
Proof.
  intros acts. subst acts. split; [|split].
  - intros Hc. rewrite reconcile_eq. simpl.
    rewrite subscribed_app, unsubscribeGone_subscribed, app_nil_r.
    rewrite unsubscribed_app, subscribeNew_unsubscribed. simpl.
    split; [|split].
    + intros m. rewrite subscribeNew_subscribed by exact Hc.
      rewrite toSet_In. simpl. tauto.
    + intros m. rewrite unsubscribeGone_unsubscribed by exact Hc.
      rewrite subscribeNew_In, toSet_In. simpl. tauto.
    + apply subscribeNew_subscribed_NoDup.
  - intros Hc.
    destruct (subscribed_quiet (snd (reconcile s masters))
                (fun cmd => reconcile_quiet s masters cmd Hc)) as [Hs Hu].
    split; [exact Hs|]. split; [exact Hu|].
    intros m. apply reconcile_set.
  - intros Hc Hex race. subst race.
    rewrite (race_run s masters Hc Hex). cbv zeta.
    set (close := onClose (wsClient s)).
    set (s3 := setAwaited _ (awaited s)).
    assert (Hc3 : isConnected (wsClient s3) = false)
      by apply onClose_closed.
    destruct (subscribed_quiet (snd (reconcile s3 masters))
                (fun cmd => reconcile_quiet s3 masters cmd Hc3)) as [Hs Hu].
    destruct (subscribed_quiet (deliver (snd close))
                (fun cmd => onClose_quiet (wsClient s) cmd)) as [Hs1 Hu1].
    cbn [fst snd].
    rewrite subscribed_app, unsubscribed_app, Hs, Hu, Hs1, Hu1.
    split; [reflexivity|]. split; [reflexivity|].
    intros m. apply reconcile_set.
Qed.

Lemma reconcile_sends_the_difference_witness :
  let s := serving ["A"; "B"] in
  let acts := snd (reconcile s ["C"; "B"; "C"]) in
  let race :=
    run s [UpdateStarted; SocketClosed; QueryAnswered (inr ["C"; "B"; "C"])] in
  (isConnected (wsClient s) = true /\ exited s = None) /\
  (subscribed acts = ["C"] /\ unsubscribed acts = ["A"]) /\
  (In "C" (subscribed acts) <-> In "C" ["C"; "B"; "C"] /\ ~ In "C" ["A"; "B"]) /\
  (isConnected (wsClient (fst race)) = false /\
   activeSubscriptions (fst race) = ["B"; "C"] /\
   subscribed (snd race) = [] /\ unsubscribed (snd race) = []) /\
  subscribed
    (snd (run (fst race) [ReconnectTimer; SocketOpened ["C"; "B"; "C"]])) = [].
Proof.
  intros s acts race.
  destruct (reconcile_sends_the_difference s ["C"; "B"; "C"])
    as (Hopen & _ & Hrace).
  split; [split; reflexivity|]. split; [split; reflexivity|].
  split; [exact (proj1 (Hopen eq_refl) "C")|].
  split; [|reflexivity].
  destruct (Hrace eq_refl eq_refl) as (Hs & Hu & _).
  split; [reflexivity|]. split; [reflexivity|].
  split; [exact Hs | exact Hu].
Defined.

(** X10.  Reconciliation is idempotent: run again with the same active
    masters it sends no command and leaves the server as it is. *)
Theorem reconcile_idempotent (s : Server) (masters : list string) :
  isConnected (wsClient s) = true ->
  let s' := fst (updateMasterSubscriptions s masters) in
  updateMasterSubscriptions s' masters = (s', []).
Proof.
  intros Hc s'.
  assert (Hc' : isConnected (wsClient s') = true).
  { subst s'. rewrite update_connected by exact Hc. exact Hc. }
  assert (Hset : forall m, In m (activeSubscriptions s') <-> In m masters)
    by (intros m; apply update_set, Hc).
  rewrite (update_connected s') by exact Hc'. cbv zeta.
  rewrite subscribeNew_all_known.
  - simpl fst. simpl snd. rewrite unsubscribeGone_all_active.
    + destruct s'; reflexivity.
    + intros m Hm. apply toSet_In. right. apply Hset, Hm.
  - intros m Hm. apply toSet_In in Hm as [[]|Hm]. apply Hset, Hm.
Qed.

Lemma reconcile_idempotent_witness :
  let s' :=
    fst (updateMasterSubscriptions (serving ["A"; "B"]) ["C"; "B"; "C"]) in
  isConnected (wsClient (serving ["A"; "B"])) = true /\
  updateMasterSubscriptions s' ["C"; "B"; "C"] = (s', []).
Proof.
  intros s'. split; [reflexivity|].
  exact (reconcile_idempotent (serving ["A"; "B"]) ["C"; "B"; "C"] eq_refl).
Defined.

(** The server after an ['open']. *)
Lemma react_opened (s : Server) (masters : list string) :
  exited s = None ->
  ws (wsClient s) = Some CONNECTING ->
  let c1 := fst (afterConnected (onOpen (wsClient s))) in
  let s' := fst (react s (SocketOpened masters)) in
  wsClient s' = c1 /\ connectTimer s' = connectTimer s /\ exited s' = None /\
  forall m, In m (activeSubscriptions s') <-> In m masters.
Proof.
  intros Hex Hws c1 s'. subst s'. unfold react. rewrite Hex, Hws.
  change (afterConnected (onOpen (wsClient s)))
    with (c1, snd (afterConnected (onOpen (wsClient s)))).
  cbv iota beta.
  assert (Hc : isConnected (wsClient (setClient s c1 (connectTimer s))) = true)
    by reflexivity.
  pose proof (update_connected (setClient s c1 (connectTimer s)) masters Hc)
    as Hup.
  pose proof (fun m => update_set (setClient s c1 (connectTimer s)) masters m Hc)
    as Hset.
  destruct (updateMasterSubscriptions (setClient s c1 (connectTimer s)) masters)
    as [s2 acts2].
  injection Hup as -> _. simpl in Hset. simpl.
  repeat split; try assumption; apply Hset.
Qed.

(** X11.  A successful open resets the reconnection budget: whatever the
    number of attempts made before, the failures that follow an open are
    again answered with the delays 1000, 2000, 4000, ... ms, up to ten of
    them. *)
Theorem backoff_restarts_after_open (s : Server) (masters : list string)
    (n : nat) :
  live s ->
  ws (wsClient s) = Some CONNECTING ->
  n <= maxReconnectAttempts ->
  let opened := fst (react s (SocketOpened masters)) in
  isConnected (wsClient opened) = true /\
  reconnectAttempts (wsClient opened) = 0 /\
  scheduled (snd (run opened (failures n))) = backoff 0 n.
Proof.
  intros (Hex & Hsr & Htm & _) Hws Hn opened.
  destruct (react_opened s masters Hex Hws) as (Hc & Ht & He & _).
  fold opened in Hc, Ht, He.
  assert (Hlive : live opened).
  { unfold live. rewrite Hc, Ht, He. simpl. auto. }
  assert (Hatt : reconnectAttempts (wsClient opened) = 0)
    by (rewrite Hc; reflexivity).
  split; [rewrite Hc; reflexivity|]. split; [exact Hatt|].
  destruct (failures_below_cap n opened Hlive) as (Hsch & _).
  - rewrite Hatt. exact Hn.
  - rewrite Hsch, Hatt. reflexivity.
Qed.

Lemma backoff_restarts_after_open_witness :
  let s := fst (run initialServer (failures 3)) in
  let opened := fst (react s (SocketOpened ["M"])) in
  (live s /\ ws (wsClient s) = Some CONNECTING /\
   reconnectAttempts (wsClient s) = 3) /\
  scheduled (snd (run opened (failures 2))) = backoff 0 2.
Proof.
  intros s opened.
  assert (Hlive : live s) by (repeat split; auto).
  split; [split; [exact Hlive | split; reflexivity]|].
  apply (backoff_restarts_after_open s ["M"] 2 Hlive eq_refl).
  unfold maxReconnectAttempts. lia.
Defined.

(** X27.  Nothing is written to a socket that is not open: whenever the
    server, reacting to an event, sends a subscribe or unsubscribe command,
    the socket is open when the reaction ends (the commands are those of
    the ['open'] handler and of a reconciliation made while connected). *)
Theorem commands_only_on_open_socket (s : Server) (e : Event) (c : Command) :
  In (Send c) (snd (react s e)) ->
  isConnected (wsClient (fst (react s e))) = true.
Proof.
  unfold react. destruct (exited s) eqn:Hex; [intros []|].
  destruct e as [masters| | |masters| | | |answer].
  - destruct (ws (wsClient s)) as [[| |]|] eqn:Hws; try (intros []).
    intros _.
    destruct (react_opened s masters Hex Hws) as (Hc & _).
    unfold react in Hc. rewrite Hex, Hws in Hc. rewrite Hc. reflexivity.
  - destruct (ws (wsClient s)) as [[| |]|] eqn:Hws; try (intros []);
      unfold onClose, reconnect;
      cbn [shouldReconnect cleanup setWs reconnectAttempts];
      destruct (shouldReconnect (wsClient s));
      try destruct (maxReconnectAttempts <=? reconnectAttempts (wsClient s))%nat;
      simpl; intuition discriminate.
  - destruct (connectTimer s); simpl; intuition discriminate.
  - rewrite update_loops.
    destruct (isConnected (wsClient s)) eqn:Hc; [|intros []].
    intros _. simpl. rewrite (proj1 (reconcile_client s masters)). exact Hc.
  - simpl. intuition discriminate.
  - destruct (ws (wsClient s)) as [[| |]|] eqn:Hws;
      [intros _ | intros [] ..].
    unfold afterConnected, onOpen, beginUpdate, setClient. reflexivity.
  - intros [].
  - unfold endUpdate. destruct (awaited s) as [|n]; [intros []|].
    destruct answer as [err|masters]; [simpl; intuition discriminate|].
    intros Hin. rewrite (proj1 (reconcile_client (setAwaited s n) masters)).
    destruct (isConnected (wsClient (setAwaited s n))) eqn:Hc;
      [reflexivity|].
    destruct (reconcile_quiet (setAwaited s n) masters c Hc Hin).
Qed.

Lemma commands_only_on_open_socket_witness :
  In (Send (Subscribe "account_trades" "C"))
     (snd (react (serving ["A"]) (Refresh ["A"; "C"]))) /\
  isConnected (wsClient (fst (react (serving ["A"]) (Refresh ["A"; "C"]))))
  = true.
Proof.
  assert (H : In (Send (Subscribe "account_trades" "C"))
                 (snd (react (serving ["A"]) (Refresh ["A"; "C"]))))
    by (left; reflexivity).
  split; [exact H|].
  exact (commands_only_on_open_socket _ _ _ H).
Defined.

End SubscriptionFacts.

(* ===================================================================== *)
(** ** More on the execution client *)
(* ===================================================================== *)

Module CanonicalFacts.
Import Js RestClient RestClientFacts Canonical.

(** *** Assignment to a property *)

Lemma obj_get_replace (k k' : string) (v : json) (p : list (string * json)) :
  obj_get (replace_value k v p) k' =
  if String.eqb k k' then option_map (fun _ => v) (obj_get p k)
  else obj_get p k'.
Proof.
  induction p as [|[k0 w] rest IH]; simpl.
  - destruct (String.eqb k k'); reflexivity.
  - destruct (String.eqb_spec k0 k) as [->|Hne]; simpl.
    + destruct (String.eqb_spec k k'); reflexivity.
    + rewrite IH.
      destruct (String.eqb_spec k0 k') as [->|Hne'];
        destruct (String.eqb_spec k k') as [->|Hne'']; congruence.
Qed.

Lemma obj_get_insert_index (i : N) (k k' : string) (v : json)
    (p : list (string * json)) :
  obj_get p k = None ->
  obj_get (insert_index i k v p) k' =
  if String.eqb k k' then Some v else obj_get p k'.
Proof.
  induction p as [|[k0 w] rest IH]; simpl; [reflexivity|].
  destruct (String.eqb_spec k0 k) as [->|Hne]; [discriminate|].
  intros Hnone.
  destruct (array_index k0) as [j|]; [destruct (j <? i)%N|]; simpl;
    try reflexivity.
  rewrite (IH Hnone).
  destruct (String.eqb_spec k0 k') as [->|Hne'];
    destruct (String.eqb_spec k k') as [->|Hne'']; congruence.
Qed.

Lemma obj_get_app_last (k k' : string) (v : json) (p : list (string * json)) :
  obj_get p k = None ->
  obj_get (p ++ [(k, v)]) k' =
  if String.eqb k k' then Some v else obj_get p k'.
Proof.
  induction p as [|[k0 w] rest IH]; simpl.
  - destruct (String.eqb k k'); reflexivity.
  - destruct (String.eqb_spec k0 k) as [->|Hne]; [discriminate|].
    intros Hnone. rewrite (IH Hnone).
    destruct (String.eqb_spec k0 k') as [->|Hne'];
      destruct (String.eqb_spec k k') as [->|Hne'']; congruence.
Qed.

(** Reading after writing. *)
Lemma obj_get_set (k k' : string) (v : json) (p : list (string * json)) :
  String.eqb k "__proto__" = false ->
  obj_get (obj_set k v p) k' =
  if String.eqb k k' then Some v else obj_get p k'.
Proof.
  intros Hk. unfold obj_set. rewrite Hk.
  destruct (obj_get p k) as [w|] eqn:Hget.
  - rewrite obj_get_replace, Hget. reflexivity.
  - destruct (array_index k) as [i|].
    + apply obj_get_insert_index, Hget.
    + apply obj_get_app_last, Hget.
Qed.

Lemma keys_replace (k : string) (v : json) (p : list (string * json)) :
  keys (replace_value k v p) = keys p.
Proof.
  induction p as [|[k0 w] rest IH]; simpl; [reflexivity|].
  destruct (String.eqb k0 k); simpl; [reflexivity|].
  f_equal. exact IH.
Qed.

Lemma In_insert_index (i : N) (k : string) (v : json)
    (p : list (string * json)) (kv : string * json) :
  In kv (insert_index i k v p) <-> kv = (k, v) \/ In kv p.
Proof.
  induction p as [|[k0 w] rest IH]; simpl; [intuition congruence|].
  destruct (array_index k0) as [j|]; [destruct (j <? i)%N|]; simpl;
    rewrite ?IH; intuition congruence.
Qed.

Lemma In_replace (k : string) (v : json) (p : list (string * json))
    (kv : string * json) :
  In kv (replace_value k v p) -> kv = (k, v) \/ In kv p.
Proof.
  induction p as [|[k0 w] rest IH]; simpl; [tauto|].
  destruct (String.eqb_spec k0 k) as [->|Hne]; simpl; intuition.
Qed.

Lemma In_obj_set (k : string) (v : json) (p : list (string * json))
    (kv : string * json) :
  In kv (obj_set k v p) -> kv = (k, v) \/ In kv p.
Proof.
  unfold obj_set. destruct (String.eqb k "__proto__"); [tauto|].
  destruct (obj_get p k).
  - apply In_replace.
  - destruct (array_index k).
    + apply In_insert_index.
    + rewrite in_app_iff. simpl. intuition.
Qed.

Lemma NoDup_insert_index (i : N) (k : string) (v : json)
    (p : list (string * json)) :
  ~ In k (keys p) -> List.NoDup (keys p) ->
  List.NoDup (keys (insert_index i k v p)).
Proof.
  intros Hk Hnd.
  induction p as [|[k0 w] rest IH]; simpl.
  - constructor; [intros []|constructor].
  - assert (Hall : List.NoDup (k :: keys ((k0, w) :: rest)))
      by (constructor; assumption).
    destruct (array_index k0) as [j|]; [destruct (j <? i)%N|];
      try exact Hall.
    simpl in *. inversion Hnd as [|? ? Hk0 Hrest]; subst.
    constructor.
    + unfold keys. rewrite in_map_iff. intros ([k1 w1] & Heq & Hin).
      simpl in Heq. subst k1.
      apply In_insert_index in Hin as [Hin|Hin].
      * injection Hin as -> _. apply Hk. left. reflexivity.
      * apply Hk0. apply in_map_iff. exists (k0, w1). split; auto.
    + apply IH; [|exact Hrest]. intros H. apply Hk. right. exact H.
Qed.

Lemma NoDup_keys_last (k : string) (v : json) (p : list (string * json)) :
  ~ In k (keys p) -> List.NoDup (keys p) -> List.NoDup (keys (p ++ [(k, v)])).
Proof.
  intros Hk Hnd. induction p as [|[k0 w] rest IH]; simpl.
  - constructor; [intros []|constructor].
  - simpl in *. inversion Hnd as [|? ? Hk0 Hrest]; subst.
    constructor.
    + unfold keys. rewrite map_app, in_app_iff. simpl.
      intros [H|[H|[]]]; [contradiction|]. apply Hk. left. symmetry. exact H.
    + apply IH; [|exact Hrest]. intros H. apply Hk. right. exact H.
Qed.

(** An assignment keeps the keys distinct. *)
Lemma NoDup_obj_set (k : string) (v : json) (p : list (string * json)) :
  List.NoDup (keys p) -> List.NoDup (keys (obj_set k v p)).
Proof.
  intros Hnd. unfold obj_set.
  destruct (String.eqb k "__proto__"); [exact Hnd|].
  destruct (obj_get p k) eqn:Hget.
  - rewrite keys_replace. exact Hnd.
  - apply obj_get_None in Hget.
    destruct (array_index k).
    + apply NoDup_insert_index; assumption.
    + apply NoDup_keys_last; assumption.
Qed.

(** *** The object [sortKeys] builds *)

Section Rebuild.
Variable props : list (string * json).

Lemma rebuild_cons (x : string) (l : list string) (acc : list (string * json)) :
  rebuild props (x :: l) acc =
  rebuild props l match obj_get props x with
                  | Some v => obj_set x (sortKeys v) acc
                  | None => acc
                  end.
Proof. reflexivity. Qed.

Lemma rebuild_other (l : list string) (acc : list (string * json))
    (k : string) :
  ~ In k l -> obj_get (rebuild props l acc) k = obj_get acc k.
Proof.
  revert acc. induction l as [|x l IH]; intros acc Hk; [reflexivity|].
  simpl in Hk. rewrite rebuild_cons.
  rewrite IH by tauto.
  destruct (obj_get props x) as [vx|]; [|reflexivity].
  unfold obj_set. destruct (String.eqb x "__proto__") eqn:Hp; [reflexivity|].
  fold (obj_set x (sortKeys vx) acc) in *.
  assert (Hset := obj_get_set x k (sortKeys vx) acc Hp).
  unfold obj_set in Hset. rewrite Hp in Hset. rewrite Hset.
  destruct (String.eqb_spec x k); [tauto | reflexivity].
Qed.

Lemma rebuild_assigned (l : list string) (acc : list (string * json))
    (k : string) (v : json) :
  In k l -> String.eqb k "__proto__" = false ->
  obj_get props k = Some v ->
  obj_get (rebuild props l acc) k = Some (sortKeys v).
Proof.
  intros Hin Hp Hget. revert acc Hin.
  induction l as [|x l IH]; intros acc Hin; [destruct Hin|].
  rewrite rebuild_cons.
  destruct (in_dec string_dec k l) as [Hl|Hl]; [apply IH, Hl|].
  destruct Hin as [->|Hin]; [|contradiction].
  rewrite rebuild_other by exact Hl.
  rewrite Hget, obj_get_set by exact Hp.
  rewrite String.eqb_refl. reflexivity.
Qed.

Lemma rebuild_NoDup (l : list string) (acc : list (string * json)) :
  List.NoDup (keys acc) -> List.NoDup (keys (rebuild props l acc)).
Proof.
  revert acc. induction l as [|x l IH]; intros acc Hnd; [exact Hnd|].
  rewrite rebuild_cons. apply IH.
  destruct (obj_get props x); [apply NoDup_obj_set|]; exact Hnd.
Qed.

Lemma rebuild_In (l : list string) (acc : list (string * json))
    (kv : string * json) :
  In kv (rebuild props l acc) ->
  In kv acc \/
  exists v, obj_get props (fst kv) = Some v /\ snd kv = sortKeys v.
Proof.
  revert acc. induction l as [|x l IH]; intros acc Hin; [left; exact Hin|].
  rewrite rebuild_cons in Hin.
  apply IH in Hin as [Hin|Hin]; [|right; exact Hin].
  destruct (obj_get props x) as [vx|] eqn:Hx; [|left; exact Hin].
  apply In_obj_set in Hin as [->|Hin]; [|left; exact Hin].
  right. exists vx. split; [exact Hx | reflexivity].
Qed.

End Rebuild.

Lemma sortKeys_rebuild (props : list (string * json)) :
  sortKeys (JObject props) = JObject (rebuild props (sort (keys props)) []).
Proof. apply sortKeys_object. Qed.

Lemma In_sort (l : list string) (k : string) : In k (sort l) <-> In k l.
Proof.
  unfold sort. rewrite <- !list_elem_of_In.
  rewrite (merge_sort_Permutation str_le l). reflexivity.
Qed.

Lemma wf_values (props : list (string * json)) :
  (forall kv, In kv props -> wf_json (snd kv)) ->
  fold_right (fun kv P => wf_json (snd kv) /\ P) True props.
Proof.
  induction props as [|kv props IH]; simpl; [tauto|].
  intros H. split; [apply H; left; reflexivity|].
  apply IH. intros kv' Hin. apply H. right. exact Hin.
Qed.

Lemma proto_free_value (props : list (string * json)) (k : string) (v : json) :
  proto_free (JObject props) = true -> In (k, v) props ->
  String.eqb k "__proto__" = false /\ proto_free v = true.
Proof.
  simpl. rewrite forallb_forall. intros H Hin.
  specialize (H (k, v) Hin). simpl in H.
  apply andb_true_iff in H as [Hk Hv].
  split; [apply negb_true_iff, Hk | exact Hv].
Qed.

(** [sortKeys] changes the order of the properties only: its result is a
    well-formed value that binds the same keys to the same values as its
    argument, at every depth. *)
Lemma sortKeys_canonical (a : json) :
  wf_json a -> proto_free a = true ->
  wf_json (sortKeys a) /\ json_equiv (sortKeys a) a.
Proof.
  induction a as [ |b|n|s|items IH|props IH] using json_induction;
    intros Wa Pa; try (split; [exact I | constructor]).
  - (* arrays *)
    assert (H : fold_right (fun x P => wf_json x /\ P) True
                  (map sortKeys items) /\
                Forall2 json_equiv (map sortKeys items) items).
    { simpl in Wa, Pa. induction items as [|x items IHitems]; simpl.
      - split; [exact I | apply List.Forall2_nil].
      - destruct Wa as [Wx Wl]. simpl in Pa.
        apply andb_true_iff in Pa as [Px Pl].
        apply Forall_cons_1 in IH as [IHx IHl].
        destruct (IHx Wx Px) as [W1 E1].
        destruct (IHitems IHl Wl Pl) as [W2 E2].
        split; [split; assumption | apply List.Forall2_cons; assumption]. }
    destruct H as [W E]. split; [exact W | apply equiv_array, E].
  - (* objects *)
    rewrite sortKeys_rebuild.
    rewrite List.Forall_forall in IH.
    assert (Hsome : forall k v,
              obj_get props k = Some v ->
              obj_get (rebuild props (sort (keys props)) []) k
              = Some (sortKeys v)).
    { intros k v Hget.
      assert (Hin := obj_get_In _ _ _ Hget).
      apply rebuild_assigned; [| |exact Hget].
      - apply In_sort. unfold keys. apply in_map_iff.
        exists (k, v). split; [reflexivity | exact Hin].
      - exact (proj1 (proto_free_value _ _ _ Pa Hin)). }
    assert (Hnone : forall k,
              obj_get props k = None ->
              obj_get (rebuild props (sort (keys props)) []) k = None).
    { intros k Hget. rewrite rebuild_other; [reflexivity|].
      rewrite In_sort. apply obj_get_None, Hget. }
    split.
    + (* well-formed *)
      split; [apply NoDup_ListNoDup, rebuild_NoDup; constructor|].
      apply wf_values. intros [k v] Hin.
      apply rebuild_In in Hin as [[]|(v0 & Hget & ->)]. simpl in Hget.
      assert (Hin0 := obj_get_In _ _ _ Hget).
      apply (IH (k, v0) Hin0).
      * exact (wf_object_value _ _ _ Wa Hin0).
      * exact (proj2 (proto_free_value _ _ _ Pa Hin0)).
    + (* the same bindings *)
      apply equiv_object.
      * intros k. split; intros H.
        -- destruct (obj_get props k) as [v|] eqn:Hget; [|reflexivity].
           rewrite (Hsome k v Hget) in H. discriminate H.
        -- apply Hnone, H.
      * intros k v1 v2 H1 H2.
        rewrite (Hsome k v2 H2) in H1. injection H1 as <-.
        assert (Hin := obj_get_In _ _ _ H2).
        apply (IH (k, v2) Hin).
        -- exact (wf_object_value _ _ _ Wa Hin).
        -- exact (proj2 (proto_free_value _ _ _ Pa Hin)).
Qed.

(** X12.  [sortKeys] only reorders: for a message without duplicate keys
    and without a [__proto__] key, the canonical form is again such a
    value and binds, at every depth, the same keys to the same values
    (arrays keep their length and order).  What is signed is the content
    of the message. *)
Theorem sortKeys_keeps_content (a : json) :
  wf_json a -> proto_free a = true ->
  wf_json (sortKeys a) /\ json_equiv (sortKeys a) a.
Proof. apply sortKeys_canonical. Qed.

Lemma sortKeys_keeps_content_witness :
  (wf_json Messages.order_message /\
   proto_free Messages.order_message = true) /\
  wf_json (sortKeys Messages.order_message) /\
  json_equiv (sortKeys Messages.order_message) Messages.order_message.
Proof.
  assert (W : wf_json Messages.order_message) by apply order_messages_wf.
  split; [split; [exact W | reflexivity]|].
  exact (sortKeys_keeps_content Messages.order_message W eq_refl).
Defined.

(** X13.  [sortKeys] is idempotent on such messages: the canonical form
    of a canonical form is itself. *)
Theorem sortKeys_idempotent (a : json) :
  wf_json a -> proto_free a = true ->
  sortKeys (sortKeys a) = sortKeys a.
Proof.
  intros Wa Pa. destruct (sortKeys_canonical a Wa Pa) as [W E].
  apply sortKeys_equiv; assumption.
Qed.

Lemma sortKeys_idempotent_witness :
  sortKeys (sortKeys Messages.order_message_shuffled) =
  sortKeys Messages.order_message_shuffled.
Proof.
  apply sortKeys_idempotent; [apply order_messages_wf | reflexivity].
Defined.

End CanonicalFacts.

(* ===================================================================== *)
(** ** The dispatcher: settlement and order of dispatch *)
(* ===================================================================== *)

Module AccountingFacts.
Import RestClient RestClientFacts Accounting.

(** *** Every request is settled exactly once *)

Lemma waiting_count (id : nat) (c : Client) :
  waiting id c = count id (inflight c) + count id (requestQueue c).
Proof. unfold waiting, count. rewrite List.filter_app, length_app. reflexivity. Qed.

Lemma count_app (id : nat) (l1 l2 : list RateLimitedRequest) :
  count id (l1 ++ l2) = count id l1 + count id l2.
Proof. unfold count. rewrite List.filter_app, length_app. reflexivity. Qed.

Lemma settlements_app (id : nat) (o1 o2 : list Output) :
  settlements id (o1 ++ o2) = settlements id o1 + settlements id o2.
Proof.
  unfold settlements. rewrite List.filter_app, length_app. reflexivity.
Qed.

(** A round of the loop settles nothing and keeps every queued request
    waiting. *)
Lemma loopTop_account (id : nat) (c : Client) :
  settlements id (snd (loopTop c)) = 0 /\
  waiting id (fst (loopTop c)) = count id (requestQueue c).
Proof.
  unfold loopTop. destruct (requestQueue c) as [|r rest].
  - split; reflexivity.
  - destruct (requestsPerMinute c <? maxRequestsPerMinute)%nat.
    + split; [reflexivity|]. rewrite waiting_count. unfold count. simpl.
      destruct (rq_id r =? id)%nat; simpl; lia.
    + split; reflexivity.
Qed.

Lemma continue_account (id : nat) (c : Client) (outs : list Output) :
  settlements id (snd (continue c outs)) = settlements id outs /\
  waiting id (fst (continue c outs)) = count id (requestQueue c).
Proof.
  unfold continue. destruct (loopTop_account id c) as [H1 H2].
  destruct (loopTop c) as [c' outs']. simpl in *.
  rewrite settlements_app, H1. split; [lia | exact H2].
Qed.

(** The balance of one input: what it settles and what is waiting after
    it make up what was waiting before it, plus the request it enqueues. *)
Lemma step_account (id : nat) (c : Client) (i : Input) :
  settlements id (snd (step c i)) + waiting id (fst (step c i)) =
  waiting id c +
  match i with
  | Enqueue _ => if (nextId c =? id)%nat then 1 else 0
  | _ => 0
  end.
Proof.
  assert (Hcont : forall c' o,
            settlements id (snd (continue c' o))
            + waiting id (fst (continue c' o))
            = settlements id o + count id (requestQueue c')).
  { intros c' o. destruct (continue_account id c' o) as [-> ->].
    reflexivity. }
  assert (Hloop : forall c',
            settlements id (snd (loopTop c')) + waiting id (fst (loopTop c'))
            = count id (requestQueue c')).
  { intros c'. destruct (loopTop_account id c') as [-> ->]. reflexivity. }
  rewrite (waiting_count id c). unfold inflight.
  destruct i; cbn [step].
  - (* Enqueue *)
    cbn [fst snd]. rewrite waiting_count. unfold inflight.
    cbn [suspended requestQueue]. rewrite count_app.
    unfold settlements, count. simpl.
    destruct (nextId c =? id)%nat; simpl; lia.
  - (* MinuteTick *)
    cbn [fst snd]. rewrite waiting_count. unfold inflight.
    cbn [suspended requestQueue]. unfold settlements. simpl. lia.
  - (* TimerFired *)
    destruct (suspended c) as [r|r|] eqn:S.
    + cbn [fst snd]. rewrite waiting_count. unfold inflight. rewrite S.
      unfold settlements. simpl. lia.
    + rewrite Hcont. unfold settlements, count. simpl.
      destruct (rq_id r =? id)%nat; simpl; lia.
    + rewrite Hloop. unfold count. simpl. lia.
  - (* Responded *)
    destruct (suspended c) as [r|r|] eqn:S;
      [|cbn [fst snd]; rewrite waiting_count; unfold inflight; rewrite S;
        unfold settlements; simpl; lia..].
    assert (Hpoll : waiting id (toPolling c) = count id (requestQueue c))
      by (rewrite waiting_count; reflexivity).
    destruct (status =? 429)%nat.
    + destruct (retryCount r <? 1)%nat.
      * cbn [fst snd]. rewrite waiting_count. unfold inflight.
        cbn [suspended requestQueue]. unfold settlements. simpl. lia.
      * rewrite Hcont. unfold settlements, count. simpl.
        destruct (rq_id r =? id)%nat; simpl; lia.
    + destruct (negb (ok status)), bodyReads;
        rewrite ?Hcont; cbn [fst snd]; rewrite ?Hpoll;
        unfold settlements, count; simpl;
        destruct (rq_id r =? id)%nat; simpl; lia.
  - (* FetchFailed *)
    destruct (suspended c) as [r|r|] eqn:S;
      [|cbn [fst snd]; rewrite waiting_count; unfold inflight; rewrite S;
        unfold settlements; simpl; lia..].
    cbn [fst snd].
    assert (Hpoll : waiting id (toPolling c) = count id (requestQueue c))
      by (rewrite waiting_count; reflexivity).
    rewrite Hpoll. unfold settlements, count. simpl.
    destruct (rq_id r =? id)%nat; simpl; lia.
Qed.

Lemma step_nextId (c : Client) (i : Input) :
  nextId (fst (step c i)) =
  match i with
  | Enqueue _ => S (nextId c)
  | _ => nextId c
  end.
Proof.
  assert (Hloop : forall c', nextId (fst (loopTop c')) = nextId c').
  { intros c'. unfold loopTop. destruct (requestQueue c');
      [|destruct (_ <? _)%nat]; reflexivity. }
  assert (Hcont : forall c' o, nextId (fst (continue c' o)) = nextId c').
  { intros c' o. unfold continue. specialize (Hloop c').
    destruct (loopTop c'). exact Hloop. }
  destruct i; simpl; try reflexivity.
  - destruct (suspended c); rewrite ?Hcont, ?Hloop; reflexivity.
  - destruct (suspended c); try reflexivity.
    destruct (status =? 429)%nat; [destruct (_ <? 1)%nat|];
      rewrite ?Hcont; try reflexivity.
    destruct (negb (ok status)), bodyReads; rewrite ?Hcont; reflexivity.
  - destruct (suspended c); reflexivity.
Qed.

Lemma step_balanced (c : Client) (i : Input) (outs : list Output) :
  balanced c outs -> balanced (fst (step c i)) (outs ++ snd (step c i)).
Proof.
  intros H id. specialize (H id).
  rewrite settlements_app, step_nextId.
  pose proof (step_account id c i) as Hs.
  destruct i;
    try (rewrite Nat.add_0_r in Hs; lia).
  destruct (Nat.eqb_spec (nextId c) id) as [<-|Hne].
  - destruct (Nat.ltb_spec (nextId c) (nextId c)); [lia|].
    destruct (Nat.ltb_spec (nextId c) (S (nextId c))); lia.
  - destruct (Nat.ltb_spec id (nextId c)),
             (Nat.ltb_spec id (S (nextId c))); lia.
Qed.

Lemma run_balanced (inputs : list Input) (c : Client) (outs : list Output) :
  balanced c outs ->
  balanced (fst (run c inputs)) (outs ++ snd (run c inputs)).
Proof.
  revert c outs. induction inputs as [|i inputs IH]; intros c outs H; simpl.
  - rewrite app_nil_r. exact H.
  - pose proof (step_balanced c i outs H) as H1.
    destruct (step c i) as [c1 o1]. simpl in H1.
    pose proof (IH c1 (outs ++ o1) H1) as H2.
    destruct (run c1 inputs) as [c2 o2]. simpl in *.
    rewrite app_assoc. exact H2.
Qed.

Lemma newClient_balanced : balanced newClient [].
Proof. intros id. reflexivity. Qed.

(** X14.  No request is lost and none is settled twice: after any
    sequence of inputs, every request issued so far is either still
    waiting (in the queue or held by the dispatcher, once) or its promise
    has been settled exactly once, never both; identifiers not yet issued
    are neither waiting nor settled. *)
Theorem request_settled_exactly_once (inputs : list Input) (id : nat) :
  settlements id (snd (run newClient inputs)) + waiting id (after inputs) =
  if (id <? nextId (after inputs))%nat then 1 else 0.
Proof.
  exact (run_balanced inputs newClient [] newClient_balanced id).
Qed.

(** *** Nothing is dispatched after its settlement *)

Lemma loopTop_attempts (id : nat) (c : Client) :
  attempts id (snd (loopTop c)) <= waiting id (fst (loopTop c)).
Proof.
  unfold loopTop. destruct (requestQueue c) as [|r rest]; [unfold attempts; simpl; lia|].
  destruct (requestsPerMinute c <? maxRequestsPerMinute)%nat; [|unfold attempts; simpl; lia].
  cbn [fst snd]. rewrite attempts_fetch, waiting_count.
  unfold inflight, count. simpl.
  destruct (rq_id r =? id)%nat; unfold attempts; simpl; lia.
Qed.

Lemma continue_attempts (id : nat) (c : Client) (quiet : list Output) :
  dispatches quiet = 0 ->
  attempts id (snd (continue c quiet)) <= waiting id (fst (continue c quiet)).
Proof.
  intros Hq. unfold continue. pose proof (loopTop_attempts id c) as H.
  destruct (loopTop c) as [c' outs']. simpl in *.
  rewrite attempts_app, (attempts_no_fetch id quiet Hq). exact H.
Qed.

(** A request dispatched by an input is held by the dispatcher after it. *)
Lemma step_attempts (id : nat) (c : Client) (i : Input) :
  attempts id (snd (step c i)) <= waiting id (fst (step c i)).
Proof.
  destruct i; cbn [step]; try (unfold attempts; simpl; lia).
  - destruct (suspended c); [unfold attempts; simpl; lia| |apply loopTop_attempts].
    apply continue_attempts. reflexivity.
  - destruct (suspended c); try (unfold attempts; simpl; lia).
    destruct (status =? 429)%nat; [destruct (_ <? 1)%nat|];
      try (unfold attempts; simpl; lia); try (apply continue_attempts; reflexivity).
    destruct (negb (ok status)), bodyReads;
      try (unfold attempts; simpl; lia); apply continue_attempts; reflexivity.
  - destruct (suspended c); unfold attempts; simpl; lia.
Qed.

Lemma settled_stays_quiet (inputs : list Input) (c : Client)
    (outs : list Output) (id : nat) :
  balanced c outs -> 0 < settlements id outs ->
  attempts id (snd (run c inputs)) = 0.
Proof.
  revert c outs. induction inputs as [|i inputs IH]; intros c outs Hb Hs;
    simpl; [reflexivity|].
  pose proof (step_balanced c i outs Hb) as Hb1.
  pose proof (step_attempts id c i) as Ha.
  destruct (step c i) as [c1 o1]. simpl in *.
  assert (Hs1 : 0 < settlements id (outs ++ o1))
    by (rewrite settlements_app; lia).
  specialize (IH c1 (outs ++ o1) Hb1 Hs1).
  destruct (run c1 inputs) as [c2 o2]. simpl in *.
  rewrite attempts_app, IH.
  specialize (Hb1 id). destruct (id <? nextId c1)%nat; lia.
Qed.

(** X15.  Once the promise of a request has been settled (resolved or
    rejected), the request is never dispatched again, whatever happens
    later. *)
Theorem no_dispatch_after_settlement (before later : list Input) (id : nat) :
  0 < settlements id (snd (run newClient before)) ->
  attempts id (snd (run (after before) later)) = 0.
Proof.
  intros Hs. apply (settled_stays_quiet later _ (snd (run newClient before)));
    [|exact Hs].
  pose proof (run_balanced before newClient [] newClient_balanced) as H.
  exact H.
Qed.

Lemma no_dispatch_after_settlement_witness :
  0 < settlements 0 (snd (run newClient session)) /\
  attempts 0 (snd (run (after session)
                       [Enqueue "/d"; TimerFired; Responded 429 true;
                        TimerFired])) = 0.
Proof.
  assert (H : 0 < settlements 0 (snd (run newClient session)))
    by (vm_compute; lia).
  split; [exact H|].
  exact (no_dispatch_after_settlement session _ 0 H).
Defined.

(** *** First come, first dispatched *)

Lemma first_attempts_app (o1 o2 : list Output) :
  first_attempts (o1 ++ o2) = first_attempts o1 ++ first_attempts o2.
Proof. unfold first_attempts. apply flat_map_app. Qed.

Lemma fifo_ext (c c' : Client) (outs quiet : list Output) :
  requestQueue c' = requestQueue c -> nextId c' = nextId c ->
  first_attempts quiet = [] ->
  fifo c outs -> fifo c' (outs ++ quiet).
Proof.
  intros Eq En Hq (k & H1 & H2 & H3). exists k.
  unfold fresh in *. rewrite Eq, En, first_attempts_app, Hq, app_nil_r.
  auto.
Qed.

Lemma loopTop_fifo (c : Client) (outs : list Output) :
  fifo c outs -> fifo (fst (loopTop c)) (outs ++ snd (loopTop c)).
Proof.
  intros H. unfold loopTop.
  destruct (requestQueue c) as [|r rest] eqn:Q;
    [apply (fifo_ext c); auto|].
  destruct (requestsPerMinute c <? maxRequestsPerMinute)%nat;
    [|apply (fifo_ext c); auto].
  destruct H as (k & H1 & H2 & H3). unfold fresh in H2. rewrite Q in H2.
  cbn [fst snd]. unfold fifo, fresh. cbn [requestQueue nextId].
  rewrite first_attempts_app. simpl in *.
  destruct (retryCount r =? 0)%nat.
  - simpl in H2. exists (S k).
    destruct (nextId c - k) as [|n] eqn:E; [discriminate H2|].
    simpl in H2. injection H2 as Hid Hrest.
    rewrite H1, Hid, Hrest.
    replace (nextId c - S k) with n by lia.
    repeat split; [|lia].
    rewrite seq_S. reflexivity.
  - exists k. rewrite H1, app_nil_r. auto.
Qed.

Lemma continue_fifo (c : Client) (outs quiet : list Output) :
  first_attempts quiet = [] ->
  fifo c outs ->
  fifo (fst (continue c quiet)) (outs ++ snd (continue c quiet)).
Proof.
  intros Hq H. unfold continue.
  pose proof (loopTop_fifo c (outs ++ quiet)
                (fifo_ext c c outs quiet eq_refl eq_refl Hq H)) as H'.
  destruct (loopTop c) as [c' outs']. simpl in *.
  rewrite app_assoc. exact H'.
Qed.

Lemma step_fifo (c : Client) (i : Input) (outs : list Output) :
  fifo c outs -> fifo (fst (step c i)) (outs ++ snd (step c i)).
Proof.
  intros H. destruct i; cbn [step].
  - (* Enqueue *)
    destruct H as (k & H1 & H2 & H3). exists k.
    cbn [fst snd]. rewrite app_nil_r. unfold fresh in *.
    cbn [requestQueue nextId].
    rewrite List.filter_app, map_app, H2. simpl.
    repeat split; [exact H1| |lia].
    replace (S (nextId c) - k) with (S (nextId c - k)) by lia.
    rewrite seq_S. f_equal. f_equal. lia.
  - (* MinuteTick *)
    apply (fifo_ext c); auto.
  - (* TimerFired *)
    destruct (suspended c) as [r|r|].
    + apply (fifo_ext c); auto.
    + apply continue_fifo; [reflexivity|].
      destruct H as (k & H1 & H2 & H3). exists k. auto.
    + apply loopTop_fifo, H.
  - (* Responded *)
    destruct (suspended c) as [r|r|];
      try solve [apply (fifo_ext c); auto].
    destruct (status =? 429)%nat; [destruct (_ <? 1)%nat|];
      try solve [ apply (fifo_ext c); auto
                | apply continue_fifo; [reflexivity | exact H] ].
    destruct (negb (ok status)), bodyReads;
      solve [ apply (fifo_ext c); auto
            | apply continue_fifo; [reflexivity | exact H] ].
  - (* FetchFailed *)
    destruct (suspended c) as [r|r|]; apply (fifo_ext c); auto.
Qed.

Lemma run_fifo (inputs : list Input) (c : Client) (outs : list Output) :
  fifo c outs -> fifo (fst (run c inputs)) (outs ++ snd (run c inputs)).
Proof.
  revert c outs. induction inputs as [|i inputs IH]; intros c outs H; simpl.
  - rewrite app_nil_r. exact H.
  - pose proof (step_fifo c i outs H) as H1.
    destruct (step c i) as [c1 o1]. simpl in H1.
    pose proof (IH c1 (outs ++ o1) H1) as H2.
    destruct (run c1 inputs) as [c2 o2]. simpl in *.
    rewrite app_assoc. exact H2.
Qed.

(** X16.  First come, first dispatched: the requests are dispatched for
    the first time in exactly the order in which they were enqueued, none
    skipped, and the requests not yet dispatched wait in the queue in that
    order (a retry goes back to the front and does not change this). *)
Theorem first_come_first_dispatched (inputs : list Input) :
  exists k,
    first_attempts (snd (run newClient inputs)) = seq 0 k /\
    fresh (after inputs) = seq k (nextId (after inputs) - k) /\
    k <= nextId (after inputs).
Proof.
  apply (run_fifo inputs newClient []).
  exists 0. repeat split. lia.
Qed.

(** *** A retry goes first *)

Lemma fetched_app (o1 o2 : list Output) :
  fetched (o1 ++ o2) = fetched o1 ++ fetched o2.
Proof. unfold fetched. apply flat_map_app. Qed.

Lemma loopTop_due (r : RateLimitedRequest) (c : Client)
    (rest : list RateLimitedRequest) :
  requestQueue c = withRetry r :: rest ->
  (fetched (snd (loopTop c)) = [] /\ due r (fst (loopTop c))) \/
  fetched (snd (loopTop c)) = [withRetry r].
Proof.
  intros Q. unfold loopTop. rewrite Q.
  destruct (requestsPerMinute c <? maxRequestsPerMinute)%nat.
  - right. reflexivity.
  - left. split; [reflexivity|]. right. simpl. eauto.
Qed.

Lemma step_due (r : RateLimitedRequest) (c : Client) (i : Input) :
  due r c ->
  (fetched (snd (step c i)) = [] /\ due r (fst (step c i))) \/
  fetched (snd (step c i)) = [withRetry r].
Proof.
  intros [S|(S & rest & Q)]; destruct i; cbn [step].
  - left. split; [reflexivity|]. left. exact S.
  - left. split; [reflexivity|]. left. exact S.
  - rewrite S. unfold continue.
    match goal with
    | |- context [loopTop ?c'] =>
        destruct (loopTop_due r c' (requestQueue c) eq_refl) as [[H1 H2]|H];
        destruct (loopTop c') as [c2 o2]
    end; simpl in *; auto.
  - rewrite S. left. split; [reflexivity|]. left. exact S.
  - rewrite S. left. split; [reflexivity|]. left. exact S.
  - left. split; [reflexivity|]. right. split; [exact S|].
    cbn [fst requestQueue]. rewrite Q. simpl. eauto.
  - left. split; [reflexivity|]. right. split; [exact S|].
    cbn [fst requestQueue]. eauto.
  - rewrite S. destruct (loopTop_due r c rest Q) as [[H1 H2]|H]; auto.
  - rewrite S. left. split; [reflexivity|]. right. split; [exact S|]. eauto.
  - rewrite S. left. split; [reflexivity|]. right. split; [exact S|]. eauto.
Qed.

Lemma run_due (inputs : list Input) (r : RateLimitedRequest) (c : Client) :
  due r c ->
  forall first, hd_error (fetched (snd (run c inputs))) = Some first ->
                first = withRetry r.
Proof.
  revert c. induction inputs as [|i inputs IH]; intros c Hdue first; simpl;
    [discriminate|].
  destruct (step_due r c i Hdue) as [[H1 H2]|H];
    destruct (step c i) as [c1 o1]; simpl in *;
    specialize (IH c1);
    destruct (run c1 inputs) as [c2 o2]; simpl in *;
    rewrite fetched_app.
  - rewrite H1. simpl. apply IH, H2.
  - rewrite H. simpl. intros E. injection E as <-. reflexivity.
Qed.

(** X28.  A retry goes first: once a request has been answered 429 for
    the first time, the next request the dispatcher sends, whenever that
    is and whatever is enqueued in between, is the retry of that request. *)
Theorem retry_goes_first (c : Client) (r : RateLimitedRequest)
    (inputs : list Input) (first : RateLimitedRequest) :
  suspended c = RetryDelay r ->
  hd_error (fetched (snd (run c inputs))) = Some first ->
  first = withRetry r.
Proof.
  intros S. apply run_due. left. exact S.
Qed.

Lemma retry_goes_first_witness :
  suspended Runs.delayed = RetryDelay Runs.the_request /\
  fetched (snd (run Runs.delayed
                    [Enqueue "/x"; MinuteTick; TimerFired; Responded 200 true;
                     TimerFired]))
  = [withRetry Runs.the_request;
     {| rq_id := 1; rq_url := "/x"; retryCount := 0 |}].
Proof.
  split; [reflexivity|].
  assert (H := retry_goes_first Runs.delayed Runs.the_request
                 [Enqueue "/x"; MinuteTick; TimerFired; Responded 200 true;
                  TimerFired]).
  destruct (fetched _) as [|first rest] eqn:E in H |- *;
    [discriminate E|].
  rewrite (H first eq_refl eq_refl). vm_compute in E.
  injection E as _ <-. reflexivity.
Defined.

End AccountingFacts.

(* ===================================================================== *)
(** ** The write operations: what is signed is what is sent *)
(* ===================================================================== *)

Module OrdersFacts.
Import Js RestClient Orders.

Ltac covered :=
  unfold covers;
  split; [reflexivity|]; split; [reflexivity|];
  lazymatch goal with
  | |- match ?x with _ => _ end =>
      let y := eval simpl in x in change x with y
  end;
  lazy beta iota;
  let k := fresh "k" in
  let v := fresh "v" in
  intros k v; cbn [obj_get];
  repeat match goal with
         | |- (if String.eqb ?s k then _ else _) = Some _ -> _ =>
             let H := fresh "H" in
             destruct (String.eqb_spec s k) as [<-|_];
             [intros H; injection H as <-; reflexivity|]
         end;
  let H := fresh "H" in intros H; discriminate H.

Lemma marketOrder_covered account agent signature timestamp p :
  covers (marketOrderBody account agent signature timestamp p)
         (marketOrderMessage timestamp (mo_symbol p) (mo_amount p) (mo_side p)
            (or_string (mo_slippage_percent p) "0.5")
            (or_false (mo_reduce_only p))).
Proof. unfold marketOrderBody, marketOrderMessage. covered. Qed.

Lemma limitOrder_covered account agent signature timestamp p :
  covers (limitOrderBody account agent signature timestamp p)
         (limitOrderMessage timestamp p).
Proof. unfold limitOrderBody, limitOrderMessage. covered. Qed.

Lemma cancelOrder_covered account agent signature timestamp orderId :
  covers (cancelOrderBody account agent signature timestamp orderId)
         (cancelOrderMessage timestamp orderId).
Proof. unfold cancelOrderBody, cancelOrderMessage. covered. Qed.

Section Methods.
Variable nacl_sign_detached : list Byte.byte -> list Byte.byte -> list Byte.byte.
Variable bs58_encode : list Byte.byte -> string.
Variable publicKeyOf : list Byte.byte -> list Byte.byte.
Variable c : Credentials.
Variable timestamp : Z.

Lemma post_inv path message body rq :
  post nacl_sign_detached bs58_encode publicKeyOf c path message body = inr rq ->
  exists account key signature,
    publicKey c = Some account /\ account <> EmptyString /\
    privateKey c = Some key /\
    sign nacl_sign_detached bs58_encode (Some key) message = inr signature /\
    rq = {| r_url := String.append (apiUrl c) path;
            r_method := "POST";
            r_body := Some (JSON_stringify
                              (body account (bs58_encode (publicKeyOf key))
                                    signature)) |}.
Proof.
  unfold post, requiresAuth, unauthenticated.
  destruct (publicKey c) as [account|]; [|intros H; discriminate H].
  destruct (privateKey c) as [key|]; [|intros H; discriminate H].
  destruct (String.eqb_spec account EmptyString) as [->|Hne];
    [intros H; discriminate H|].
  simpl. intros H. injection H as <-.
  exists account, key. eexists. repeat split. exact Hne.
Qed.

End Methods.

(** X17.  What is signed is what is sent.  Whenever one of the three
    write operations (market order, limit order, cancel) hands a request
    to the queue, the client holds both keys, the request is a POST whose
    body carries the signature of the operation's message under the
    private key, and the body repeats the timestamp, the expiry window and
    every data field of that signed message with the same values,
    defaults included. *)
Theorem signed_fields_are_sent
    (nacl_sign_detached : list Byte.byte -> list Byte.byte -> list Byte.byte)
    (bs58_encode : list Byte.byte -> string)
    (publicKeyOf : list Byte.byte -> list Byte.byte)
    (c : Credentials) (timestamp : Z) (rq : Request) :
  let signed message body :=
    exists account key signature,
      publicKey c = Some account /\ privateKey c = Some key /\
      sign nacl_sign_detached bs58_encode (Some key) message = inr signature /\
      r_method rq = "POST" /\
      r_body rq =
        Some (JSON_stringify
                (body account (bs58_encode (publicKeyOf key)) signature)) /\
      covers (body account (bs58_encode (publicKeyOf key)) signature) message
  in
  (forall p,
     createMarketOrder nacl_sign_detached bs58_encode publicKeyOf c timestamp p
       = inr rq ->
     signed (marketOrderMessage timestamp (mo_symbol p) (mo_amount p)
               (mo_side p) (or_string (mo_slippage_percent p) "0.5")
               (or_false (mo_reduce_only p)))
            (fun account agent signature =>
               marketOrderBody account agent signature timestamp p)) /\
  (forall p,
     createLimitOrder nacl_sign_detached bs58_encode publicKeyOf c timestamp p
       = inr rq ->
     signed (limitOrderMessage timestamp p)
            (fun account agent signature =>
               limitOrderBody account agent signature timestamp p)) /\
  (forall orderId,
     cancelOrder nacl_sign_detached bs58_encode publicKeyOf c timestamp orderId
       = inr rq ->
     signed (cancelOrderMessage timestamp orderId)
            (fun account agent signature =>
               cancelOrderBody account agent signature timestamp orderId)).
Proof.
  intros signed. subst signed. cbv beta.
  split; [|split].
  - intros p H. apply post_inv in H
      as (account & key & signature & Ha & _ & Hk & Hs & ->).
    exists account, key, signature.
    repeat split; try assumption. apply marketOrder_covered.
  - intros p H. apply post_inv in H
      as (account & key & signature & Ha & _ & Hk & Hs & ->).
    exists account, key, signature.
    repeat split; try assumption. apply limitOrder_covered.
  - intros orderId H. apply post_inv in H
      as (account & key & signature & Ha & _ & Hk & Hs & ->).
    exists account, key, signature.
    repeat split; try assumption. apply cancelOrder_covered.
Qed.

Lemma signed_fields_are_sent_witness :
  exists rq,
    createMarketOrder Messages.toy_signature Messages.toy_encode
                      (fun key => key) trader 1700000000000 sampleOrder
      = inr rq /\
    exists signature,
      r_body rq =
        Some (JSON_stringify
                (marketOrderBody "W"
                   (Messages.toy_encode [Byte.x01; Byte.x02]) signature
                   1700000000000 sampleOrder)) /\
      covers (marketOrderBody "W"
                (Messages.toy_encode [Byte.x01; Byte.x02]) signature
                1700000000000 sampleOrder)
             (marketOrderMessage 1700000000000 "BTC" "0.001" "bid" "0.5" false).
Proof.
  eexists. split; [reflexivity|].
  match goal with
  | |- context [r_body ?rq] =>
      destruct (proj1 (signed_fields_are_sent
                         Messages.toy_signature Messages.toy_encode
                         (fun key => key) trader 1700000000000 rq)
                      sampleOrder eq_refl)
        as (account & key & signature & Ha & Hk & _ & _ & Hb & Hc)
  end.
  injection Ha as <-. injection Hk as <-.
  exists signature. split; [exact Hb | exact Hc].
Defined.

End OrdersFacts.

(* ===================================================================== *)
(** ** The messages of the feed: which fills are emitted *)
(* ===================================================================== *)

Module InboundFacts.
Import Js RestClient Inbound.

Lemma equals_eq (v : option json) (s : string) :
  equals v s = true -> v = Some (JString s).
Proof.
  destruct v as [[ | | |t| | ]|]; simpl; try discriminate.
  intros H. apply String.eqb_eq in H. subst t. reflexivity.
Qed.

Lemma trades_app (o1 o2 : list Emission) :
  trades (o1 ++ o2) = trades o1 ++ trades o2.
Proof.
  induction o1 as [|[t|e] o1 IH]; simpl; rewrite ?IH; reflexivity.
Qed.

Lemma errors_app (o1 o2 : list Emission) :
  errors (o1 ++ o2) = errors o1 ++ errors o2.
Proof.
  induction o1 as [|[t|e] o1 IH]; simpl; rewrite ?IH; reflexivity.
Qed.

Section Handler.
Variable Date_now : nat -> Z.

Lemma forEach_cons (i : nat) (trade : json) (rest : list json) :
  notNull trade = true ->
  forEach Date_now i (trade :: rest) =
  (if isFill trade
   then EmitTrade (parsedTrade Date_now i trade)
          :: fst (forEach Date_now (S i) rest)
   else fst (forEach Date_now (S i) rest),
   snd (forEach Date_now (S i) rest)).
Proof.
  intros H. destruct trade; try discriminate H; cbn [forEach];
    destruct (forEach Date_now (S i) rest) as [emitted thrown];
    cbn [fst snd]; destruct (isFill _); reflexivity.
Qed.

(** The loop emits trades only, each for a record that is a fill. *)
Lemma forEach_emits (data : list json) :
  forall i,
    errors (fst (forEach Date_now i data)) = [] /\
    forall t, In t (trades (fst (forEach Date_now i data))) ->
      exists j record,
        nth_error data j = Some record /\ isFill record = true /\
        t = parsedTrade Date_now (i + j) record.
Proof.
  induction data as [|trade rest IH]; intros i.
  - split; [reflexivity | intros t []].
  - destruct (notNull trade) eqn:Hn.
    + rewrite forEach_cons by exact Hn. destruct (IH (S i)) as [He Ht].
      cbn [fst]. destruct (isFill trade) eqn:Hf; simpl; (split; [exact He|]).
      * intros t [<-|Hin].
        -- exists 0, trade. rewrite Nat.add_0_r. auto.
        -- destruct (Ht t Hin) as (j & record & H1 & H2 & H3).
           exists (S j), record. rewrite Nat.add_succ_r. auto.
      * intros t Hin.
        destruct (Ht t Hin) as (j & record & H1 & H2 & H3).
        exists (S j), record. rewrite Nat.add_succ_r. auto.
    + destruct trade; try discriminate Hn. simpl.
      split; [reflexivity | intros t []].
Qed.

(** Over records none of which is [null] the loop runs to its end and
    emits the fills in order. *)
Lemma forEach_complete (data : list json) :
  forall i,
    forallb notNull data = true ->
    snd (forEach Date_now i data) = None /\
    map content (trades (fst (forEach Date_now i data))) =
    map recordContent (List.filter isFill data).
Proof.
  induction data as [|trade rest IH]; intros i H; [split; reflexivity|].
  simpl in H. apply andb_true_iff in H as [Hn Hrest].
  rewrite forEach_cons by exact Hn. destruct (IH (S i) Hrest) as [H1 H2].
  cbn [fst snd]. split; [exact H1|].
  simpl. destruct (isFill trade); simpl; rewrite H2; reflexivity.
Qed.

(** A [null] record ends the loop: the fills before it were emitted, the
    records after it are not looked at. *)
Lemma forEach_aborted (before after : list json) :
  forall i,
    forallb notNull before = true ->
    snd (forEach Date_now i (before ++ JNull :: after))
      = Some (nullRead "te") /\
    map content (trades (fst (forEach Date_now i (before ++ JNull :: after)))) =
    map recordContent (List.filter isFill before).
Proof.
  induction before as [|trade rest IH]; intros i H; [split; reflexivity|].
  simpl in H. apply andb_true_iff in H as [Hn Hrest].
  rewrite <- app_comm_cons, forEach_cons by exact Hn.
  destruct (IH (S i) Hrest) as [H1 H2].
  cbn [fst snd]. split; [exact H1|].
  simpl. destruct (isFill trade); simpl; rewrite H2; reflexivity.
Qed.

(** The handler on a message of the [account_trades] channel whose data
    is an array. *)
Lemma onMessage_trades (message : json) (records : list json) :
  get message "channel" = Some (JString "account_trades") ->
  get message "data" = Some (JArray records) ->
  onMessage Date_now (inr message) =
  fst (forEach Date_now 0 records) ++
  match snd (forEach Date_now 0 records) with
  | Some e => [EmitError e]
  | None => []
  end.
Proof.
  intros Hc Hd. destruct message; try discriminate Hc.
  unfold onMessage. rewrite Hc, Hd. simpl.
  destruct (forEach Date_now 0 records); reflexivity.
Qed.

End Handler.

(** X18.  Only fills are emitted.  Every ['trade'] event the client emits
    while handling a message stems from a record of an [account_trades]
    message whose event type is [fulfill_maker] or [fulfill_taker], and
    carries the fields of that record; no other message (a pong, another
    channel, text that does not parse) and no other record leads to a
    ['trade'] event. *)
Theorem only_fills_are_emitted (Date_now : nat -> Z) (parsed : exn + json)
    (t : ParsedTrade) :
  In t (trades (onMessage Date_now parsed)) ->
  exists message records i record,
    parsed = inr message /\
    get message "channel" = Some (JString "account_trades") /\
    get message "data" = Some (JArray records) /\
    nth_error records i = Some record /\
    isFill record = true /\
    t = parsedTrade Date_now i record.
Proof.
  destruct parsed as [e|message]; [intros []|].
  destruct message as [ |b|n|s|items|props]; try (intros []).
  unfold onMessage.
  destruct (equals (get (JObject props) "channel") "pong"); [intros []|].
  destruct (equals (get (JObject props) "channel") "account_trades") eqn:Hc;
    [|intros []].
  apply equals_eq in Hc. cbn [andb].
  destruct (truthy_value (get (JObject props) "data")); [|intros []].
  unfold handleTradeMessage.
  destruct (get (JObject props) "data") as [[ | | | |records| ]|] eqn:Hd;
    try (intros []).
  destruct (forEach_emits Date_now records 0) as [_ Ht].
  destruct (forEach Date_now 0 records) as [emitted thrown]. simpl in Ht.
  rewrite trades_app.
  assert (Hnone : trades match thrown with
                         | Some e => [EmitError e]
                         | None => []
                         end = []) by (destruct thrown; reflexivity).
  rewrite Hnone, app_nil_r. intros Hin.
  destruct (Ht t Hin) as (j & record & H1 & H2 & H3).
  exists (JObject props), records, j, record. repeat split; assumption.
Qed.

Lemma only_fills_are_emitted_witness :
  let records :=
    [record "fulfill_taker" "BTC" "open_long" "0.002" "50000" "M";
     record "order_placed" "BTC" "open_long" "1" "50000" "M";
     record "fulfill_maker" "SOL" "close_long" "76.25" "2" "N"] in
  map pt_trader (trades (onMessage clock (inr (tradesMessage records))))
    = [Some (JString "M"); Some (JString "N")] /\
  forall t,
    In t (trades (onMessage clock (inr (tradesMessage records)))) ->
    exists i record,
      nth_error records i = Some record /\ isFill record = true /\
      t = parsedTrade clock i record.
Proof.
  intros records. split; [reflexivity|].
  intros t Hin.
  destruct (only_fills_are_emitted clock _ t Hin)
    as (message & records' & i & record & Hm & _ & Hd & Hn & Hf & Ht).
  injection Hm as <-. injection Hd as <-.
  exists i, record. auto.
Defined.

(** X19.  No fill is lost or reordered: for an [account_trades] message
    whose data is an array without [null] entries, the client emits one
    ['trade'] event for every maker or taker fill, in the order of the
    records and with the fields of the record, and no ['error']. *)
Theorem fills_emitted_in_order (Date_now : nat -> Z) (message : json)
    (records : list json) :
  get message "channel" = Some (JString "account_trades") ->
  get message "data" = Some (JArray records) ->
  forallb notNull records = true ->
  let out := onMessage Date_now (inr message) in
  map content (trades out) = map recordContent (List.filter isFill records) /\
  errors out = [].
Proof.
  intros Hc Hd Hn out. subst out.
  rewrite (onMessage_trades Date_now message records Hc Hd).
  destruct (forEach_complete Date_now records 0 Hn) as [H1 H2].
  destruct (forEach_emits Date_now records 0) as [He _].
  rewrite H1, app_nil_r. split; assumption.
Qed.

Lemma fills_emitted_in_order_witness :
  let records :=
    [record "fulfill_taker" "BTC" "open_long" "0.002" "50000" "M";
     record "order_placed" "BTC" "open_long" "1" "50000" "M";
     record "fulfill_maker" "SOL" "close_long" "76.25" "2" "N"] in
  let out := onMessage clock (inr (tradesMessage records)) in
  map content (trades out) = map recordContent (List.filter isFill records) /\
  errors out = [].
Proof.
  intros records.
  exact (fills_emitted_in_order clock (tradesMessage records) records
           eq_refl eq_refl eq_refl).
Defined.

(** X20.  A [null] entry among the records ends the handling of the
    message: the fills before it are emitted, one ['error'] follows, and
    the fills after it are dropped. *)
Theorem null_record_drops_the_rest (Date_now : nat -> Z) (message : json)
    (before after : list json) :
  get message "channel" = Some (JString "account_trades") ->
  get message "data" = Some (JArray (before ++ JNull :: after)) ->
  forallb notNull before = true ->
  let out := onMessage Date_now (inr message) in
  map content (trades out) = map recordContent (List.filter isFill before) /\
  errors out = [nullRead "te"].
Proof.
  intros Hc Hd Hn out. subst out.
  rewrite (onMessage_trades Date_now message _ Hc Hd).
  destruct (forEach_aborted Date_now before after 0 Hn) as [H1 H2].
  destruct (forEach_emits Date_now (before ++ JNull :: after) 0) as [He _].
  rewrite H1, trades_app, errors_app, He, app_nil_r. split; [exact H2|].
  reflexivity.
Qed.

Lemma null_record_drops_the_rest_witness :
  let first := record "fulfill_taker" "BTC" "open_long" "0.002" "50000" "M" in
  let last := record "fulfill_maker" "SOL" "close_long" "76.25" "2" "N" in
  let out := onMessage clock (inr (tradesMessage ([first] ++ JNull :: [last]))) in
  map content (trades out) = [recordContent first] /\
  errors out = [nullRead "te"].
Proof.
  intros first last.
  exact (null_record_drops_the_rest clock
           (tradesMessage ([first] ++ JNull :: [last])) [first] [last]
           eq_refl eq_refl eq_refl).
Defined.

End InboundFacts.

(* ===================================================================== *)
(** ** The market data cache *)
(* ===================================================================== *)

Module MarketInfoFacts.
Import Js RestClient Inbound InboundFacts MarketInfo.

(** The second part of a call either fails, leaving the cache as it was,
    or stores the market it returns under the symbol. *)
Lemma complete_cases (cache : gmap string json) (fetched : exn + Response)
    (symbol : string) :
  (exists logs, complete cache fetched symbol = (None, cache, logs)) \/
  (exists market logs,
     complete cache fetched symbol =
       (Some market, <[symbol := market]> cache, logs) /\
     get market "symbol" = Some (JString symbol)).
Proof.
  unfold complete.
  destruct fetched as [e|response]; [left; eauto|].
  destruct (negb (RestClient.ok (status response))); [left; eauto|].
  destruct (body response) as [e|result]; [left; eauto|].
  destruct (unwrap result) as [ | | | |markets| ];
    try solve [left; eauto].
  destruct (find markets symbol) as [e|[market|]] eqn:Hf;
    try solve [left; eauto].
  assert (Hsym : get market "symbol" = Some (JString symbol)).
  { clear -Hf. induction markets as [|m rest IH]; [discriminate Hf|].
    simpl in Hf.
    destruct m; try discriminate Hf;
      match type of Hf with
      | (if equals ?g symbol then _ else _) = _ =>
          destruct (equals g symbol) eqn:He;
          [injection Hf as <-; apply equals_eq, He | apply IH, Hf]
      end. }
  assert (Ht : truthy_value (Some market) = true).
  { destruct market; try discriminate Hsym. reflexivity. }
  rewrite Ht. right. eauto.
Qed.

(** One call: a hit answers from the cache; a miss asks the API, and
    either fails, leaving the cache as it was, or stores the market it
    returns under the symbol. *)
Lemma getMarketInfo_cases (cache : gmap string json) (fetched : exn + Response)
    (symbol : string) :
  (exists market,
     cache !! symbol = Some market /\
     getMarketInfo cache fetched symbol = (Some market, cache, [])) \/
  (cache !! symbol = None /\
   exists logs,
     getMarketInfo cache fetched symbol = (None, cache, Fetching :: logs)) \/
  (cache !! symbol = None /\
   exists market logs,
     getMarketInfo cache fetched symbol =
       (Some market, <[symbol := market]> cache, Fetching :: logs) /\
     get market "symbol" = Some (JString symbol)).
Proof.
  unfold getMarketInfo.
  destruct (cache !! symbol) as [market|] eqn:Hc; [left; eauto|].
  right.
  destruct (complete_cases cache fetched symbol)
    as [(logs & ->)|(market & logs & -> & Hs)].
  - left. split; [reflexivity|]. eauto.
  - right. split; [reflexivity|]. eauto.
Qed.

(** *** Calls that overlap *)

Lemma In_delete (i : nat) (l : list string) (x : string) :
  In x (delete i l) -> In x l.
Proof.
  revert i. induction l as [|y l IH]; intros i; [destruct i; intros []|].
  destruct i as [|i]; simpl.
  - intros H. right. exact H.
  - intros [H|H]; [left; exact H | right; exact (IH i H)].
Qed.

Lemma lookup_In (i : nat) (l : list string) (x : string) :
  l !! i = Some x -> In x l.
Proof.
  revert i. induction l as [|y l IH]; intros i; [destruct i; discriminate|].
  destruct i as [|i]; simpl.
  - intros H. injection H as ->. left. reflexivity.
  - intros H. right. exact (IH i H).
Qed.

(** A symbol that is cached and not asked for stays so, with its entry,
    and a call for it is a hit. *)
Lemma step_final (s : Session) (x : Step) (symbol : string) (market : json) :
  marketInfoCache s !! symbol = Some market ->
  ~ In symbol (inflight s) ->
  marketInfoCache (fst (step s x)) !! symbol = Some market /\
  ~ In symbol (inflight (fst (step s x))) /\
  (x = Call symbol -> snd (step s x) = Hit market).
Proof.
  intros Hc Hn. destruct x as [symbol'|i fetched]; simpl.
  - destruct (marketInfoCache s !! symbol') as [m|] eqn:Hc'; simpl.
    + split; [exact Hc|]. split; [exact Hn|].
      intros E. injection E as ->. congruence.
    + split; [exact Hc|]. split.
      * rewrite in_app_iff. intros [H|[H|[]]]; [exact (Hn H)|].
        subst symbol'. congruence.
      * intros E. injection E as ->. congruence.
  - destruct (inflight s !! i) as [symbol'|] eqn:Hi; simpl.
    + assert (Hne : symbol' <> symbol).
      { intros ->. apply Hn. exact (lookup_In _ _ _ Hi). }
      split; [|split; [|discriminate]].
      * destruct (complete_cases (marketInfoCache s) fetched symbol')
          as [(logs & ->)|(m & logs & -> & _)]; simpl; [exact Hc|].
        rewrite lookup_insert_ne by exact Hne. exact Hc.
      * intros H. apply Hn. exact (In_delete _ _ _ H).
    + split; [exact Hc|]. split; [exact Hn | discriminate].
Qed.

Lemma steps_final (l : list Step) :
  forall (s : Session) (symbol : string) (market : json),
    marketInfoCache s !! symbol = Some market ->
    ~ In symbol (inflight s) ->
    marketInfoCache (fst (steps s l)) !! symbol = Some market /\
    Forall2 (fun x o => x = Call symbol -> o = Hit market)
            l (snd (steps s l)).
Proof.
  induction l as [|x rest IH]; intros s symbol market Hc Hn; simpl.
  - split; [exact Hc | apply List.Forall2_nil].
  - destruct (step_final s x symbol market Hc Hn) as (Hc1 & Hn1 & Hhit).
    destruct (step s x) as [s1 o]. simpl in Hc1, Hn1, Hhit.
    destruct (IH s1 symbol market Hc1 Hn1) as [Hc2 Hall].
    destruct (steps s1 rest) as [s2 os]. simpl in *.
    split; [exact Hc2|]. apply List.Forall2_cons; assumption.
Qed.

(** X21.  When calls overlap, a market in the cache is final only once no
    request for its symbol is in flight.  From a state in which a symbol
    is cached and no suspended call is for that symbol, whatever calls
    start and whatever requests settle afterwards, and whatever the API
    answers, the entry stays as it is and every call for the symbol is
    answered with it from the cache, without asking the API.  But a
    request that was sent before the entry was stored is not stopped by
    it: two calls for SOL that both miss both ask, the first answer is
    cached and returned, also to a third call, and the second answer then
    replaces it. *)
Theorem cached_market_is_final (s : Session) (symbol : string)
    (market : json) (l : list Step) :
  (marketInfoCache s !! symbol = Some market ->
   ~ In symbol (inflight s) ->
   marketInfoCache (fst (steps s l)) !! symbol = Some market /\
   Forall2 (fun x o => x = Call symbol -> o = Hit market)
           l (snd (steps s l))) /\
  snd (steps fresh [Call "SOL"; Call "SOL"; Settle 0 listing; Call "SOL";
                    Settle 0 relisting; Call "SOL"]) =
  [Asked; Asked; Returned "SOL" (Some (sol "0.01")); Hit (sol "0.01");
   Returned "SOL" (Some (sol "0.1")); Hit (sol "0.1")].
Proof.
  split; [apply steps_final | vm_compute; reflexivity].
Qed.

Lemma cached_market_is_final_witness :
  let s := fst (steps fresh [Call "SOL"; Settle 0 listing]) in
  let later := [Call "BTC"; Call "SOL"; Settle 0 relisting; Call "SOL"] in
  marketInfoCache s !! "SOL" = Some (sol "0.01") /\
  ~ In "SOL" (inflight s) /\
  marketInfoCache (fst (steps s later)) !! "SOL" = Some (sol "0.01") /\
  snd (steps s later) =
  [Asked; Hit (sol "0.01"); Returned "BTC" None; Hit (sol "0.01")].
Proof.
  intros s later.
  assert (Hc : marketInfoCache s !! "SOL" = Some (sol "0.01"))
    by (vm_compute; reflexivity).
  assert (Hn : ~ In "SOL" (inflight s)) by (intros []).
  split; [exact Hc|]. split; [exact Hn|].
  split; [|vm_compute; reflexivity].
  exact (proj1 (proj1 (cached_market_is_final s "SOL" (sol "0.01") later)
                  Hc Hn)).
Defined.



Lemma getMarketInfo_keyed (cache : gmap string json)
    (fetched : exn + Response) (symbol : string) :
  keyed cache ->
  keyed (getMarketInfo cache fetched symbol).1.2 /\
  forall market,
    (getMarketInfo cache fetched symbol).1.1 = Some market ->
    get market "symbol" = Some (JString symbol).
Proof.
  intros Hk.
  destruct (getMarketInfo_cases cache fetched symbol)
    as [(m & Hm & ->)|[(_ & logs & ->)|(_ & m & logs & -> & Hs)]]; simpl.
  - split; [exact Hk|]. intros market H. injection H as <-.
    apply Hk, Hm.
  - split; [exact Hk|]. intros market H. discriminate H.
  - split.
    + intros k v. destruct (decide (symbol = k)) as [<-|Hne].
      * rewrite lookup_insert_eq. intros H. injection H as <-. exact Hs.
      * rewrite lookup_insert_ne by exact Hne. apply Hk.
    + intros market H. injection H as <-. exact Hs.
Qed.

(** X23.  Whatever the calls made since start-up and whatever the API
    answered, a market returned for a symbol is an entry whose [symbol]
    field is exactly that symbol, be it fetched or taken from the cache. *)
Theorem returned_market_has_the_symbol
    (l : list (string * (exn + Response))) :
  Forall2 (fun call r =>
             forall market, r.1 = Some market ->
                            get market "symbol" = Some (JString call.1))
          l (snd (calls ∅ l)).
Proof.
  assert (H : forall cache, keyed cache ->
            Forall2 (fun call r =>
                       forall market, r.1 = Some market ->
                         get market "symbol" = Some (JString call.1))
                    l (snd (calls cache l))).
  { induction l as [|[s fetched] rest IH]; intros cache Hk;
      [apply List.Forall2_nil|].
    simpl. destruct (getMarketInfo_keyed cache fetched s Hk) as [Hk1 Hm].
    destruct (getMarketInfo cache fetched s) as [[market cache1] logs].
    simpl in *. specialize (IH cache1 Hk1).
    destruct (calls cache1 rest) as [cache2 results]. simpl in *.
    apply List.Forall2_cons; [exact Hm | exact IH]. }
  apply H. intros k v Hl. rewrite lookup_empty in Hl. discriminate Hl.
Qed.

End MarketInfoFacts.

(* ===================================================================== *)
(** ** The relationship routes: what they let into the table *)
(* ===================================================================== *)

Module RoutesFacts.
Import Js JsFacts Replication Routes.

(** *** Comparisons with numbers *)

Lemma not_leb_ltb (a b : float) :
  is_nan a = false -> is_nan b = false ->
  PrimFloat.leb a b = false -> PrimFloat.ltb b a = true.
Proof.
  intros Ha Hb. rewrite FloatAxioms.ltb_spec, FloatAxioms.leb_spec.
  unfold SFltb, SFleb.
  destruct (SFcompare (Prim2SF a) (Prim2SF b)) as [c|] eqn:E.
  - rewrite (SFcompare_antisym _ _ _ E).
    destruct c; simpl; intros H; try reflexivity; discriminate H.
  - apply SFcompare_None in E as [E|E];
      [apply is_nan_false in Ha | apply is_nan_false in Hb]; contradiction.
Qed.

Lemma SFeqb_refl (y : spec_float) : y <> S754_nan -> SFeqb y y = true.
Proof.
  unfold SFeqb. destruct y as [s|s| |s m e]; simpl; intros H;
    try reflexivity; try (destruct s; reflexivity); try congruence.
  rewrite Z.compare_refl, Pos.compare_cont_refl. destruct s; reflexivity.
Qed.

(** A number above zero is truthy. *)
Lemma positive_truthy (x : float) :
  PrimFloat.ltb 0 x = true -> truthy x = true.
Proof.
  intros H. unfold truthy, is_nan.
  assert (Hn : PrimFloat.eqb x x = true).
  { rewrite FloatAxioms.eqb_spec. apply SFeqb_refl. intros E.
    rewrite FloatAxioms.ltb_spec, E in H. discriminate H. }
  rewrite Hn. simpl.
  destruct (PrimFloat.eqb x 0) eqn:Hz; [|reflexivity].
  rewrite FloatAxioms.eqb_spec in Hz.
  rewrite FloatAxioms.ltb_spec in H.
  change (Prim2SF 0) with (S754_zero false) in *.
  destruct (Prim2SF x) as [s|s| |s m e]; try discriminate H;
    try (destruct s; discriminate Hz).
Qed.

(** A number not below a positive bound is above zero. *)
Lemma above_bound_positive (lo x : float) :
  PrimFloat.ltb 0 lo = true -> PrimFloat.leb lo x = true ->
  PrimFloat.ltb 0 x = true.
Proof.
  rewrite !FloatAxioms.ltb_spec, FloatAxioms.leb_spec.
  change (Prim2SF 0) with (S754_zero false).
  unfold SFltb, SFleb.
  destruct (Prim2SF lo) as [s|s| |s m e], (Prim2SF x) as [s'|s'| |s' m' e'];
    simpl; try discriminate;
    destruct s; try discriminate; destruct s'; try discriminate;
    reflexivity.
Qed.

Lemma notPositive_false (x : float) :
  notPositive x = false -> PrimFloat.ltb 0 x = true.
Proof.
  unfold notPositive. intros H. apply orb_false_iff in H as [Hn Hle].
  apply not_leb_ltb; [exact Hn | reflexivity | exact Hle].
Qed.

Lemma outside_false (lo hi x : float) :
  is_nan lo = false -> is_nan hi = false ->
  outside lo hi x = false -> within lo hi x = true.
Proof.
  unfold outside, within. intros Hlo Hhi H.
  apply orb_false_iff in H as [H Hgt]. apply orb_false_iff in H as [Hn Hlt].
  rewrite (not_ltb_leb x lo Hn Hlo Hlt), (not_ltb_leb hi x Hhi Hn Hgt).
  reflexivity.
Qed.

(** *** The checks *)

Lemma sizing_in_range (method : SizingMethod) (value : float) :
  sizingError method value = None -> is_nan value = false ->
  in_range method value = true.
Proof.
  unfold sizingError, in_range, within. intros H Hn.
  destruct method; try reflexivity.
  - destruct (value <? 0.01)%float eqn:H1; [discriminate H|].
    destruct (2 <? value)%float eqn:H2; [discriminate H|].
    rewrite (not_ltb_leb value 0.01%float Hn eq_refl H1).
    rewrite (not_ltb_leb 2%float value eq_refl Hn H2). reflexivity.
  - destruct (value <? 10)%float eqn:H1; [discriminate H|].
    exact (not_ltb_leb value 10%float Hn eq_refl H1).
  - destruct (value <? 1)%float eqn:H1; [discriminate H|].
    destruct (100 <? value)%float eqn:H2; [discriminate H|].
    rewrite (not_ltb_leb value 1%float Hn eq_refl H1).
    rewrite (not_ltb_leb 100%float value eq_refl Hn H2). reflexivity.
Qed.

Lemma badMultiplier_none (parseFloat : string -> float)
    (l : list (string * RawValue)) :
  badMultiplier parseFloat l = None ->
  forall k mult, In (k, mult) l ->
                 within 0.01 1 (parsed parseFloat mult) = true.
Proof.
  intros Hbad k mult Hin.
  induction l as [|[k' mult'] rest IH]; [destruct Hin|].
  simpl in Hbad.
  destruct (outside 0.01 1 (parsed parseFloat mult')) eqn:Ho;
    [discriminate Hbad|].
  destruct Hin as [E|Hin]; [|exact (IH Hbad Hin)].
  injection E as -> ->. apply outside_false; [reflexivity..|exact Ho].
Qed.

(** A number that parses into the range is in the range. *)
Lemma parsed_number (parseFloat : string -> float) (x : float) :
  within 0.01 1 (parsed parseFloat (RawNumber x)) = true ->
  within 0.01 1 x = true.
Proof.
  unfold parsed. destruct (x =? 0)%float; [discriminate | trivial].
Qed.

Lemma numbers_In (l : list (string * RawValue)) :
  forall (l' : list (string * float)) (k : string) (x : float),
    numbers l = Some l' -> In (k, x) l' -> In (k, RawNumber x) l.
Proof.
  induction l as [|[k' [y|s|text]] rest IH]; intros l' k x; simpl;
    try discriminate.
  - intros H. injection H as <-. intros [].
  - destruct (numbers rest) as [rest'|]; [|discriminate].
    intros H. injection H as <-. intros [E|Hin].
    + injection E as -> ->. left. reflexivity.
    + right. exact (IH rest' k x eq_refl Hin).
Qed.

(** A row that passed the checks and holds numbers only is a relationship
    with valid limits. *)
Lemma relationshipOf_limits (parseFloat : string -> float) (row : Row)
    (r : CopyRelationship) :
  relationshipOf row = Some r ->
  row_limits_checked parseFloat row -> limits_valid r.
Proof.
  unfold relationshipOf. intros H (Hc & Hl & He & Hm).
  destruct (row_symbol_multipliers row) as [l|] eqn:El.
  - destruct (numbers l) as [l'|] eqn:En; [|discriminate H].
    injection H as <-. unfold limits_valid. cbn.
    split; [exact Hc|]. split; [exact Hl|]. split; [exact He|].
    intros m k x E Hk. injection E as <-.
    apply elem_of_list_to_map_2 in Hk. apply list_elem_of_In in Hk.
    apply (parsed_number parseFloat), (Hm l k); [reflexivity|].
    exact (numbers_In l l' k x En Hk).
  - injection H as <-. unfold limits_valid. cbn.
    split; [exact Hc|]. split; [exact Hl|]. split; [exact He|].
    intros m k x E. discriminate E.
Qed.

Section CheckedOnce.
Variable parseFloat : string -> float.
Variable trim : string -> string.
Variable bs58_decode : string -> exn + list Byte.byte.
Variable findOne : string -> exn + option bool.
Variable encryptApiKey : string -> exn + string.
Variable create : Row -> exn + unit.

Lemma capError_none (cap : option float) (c : float) :
  capError cap = None -> cap = Some c -> (0 <? c)%float = true.
Proof.
  intros H ->. simpl in H.
  destruct (notPositive c) eqn:E; [discriminate H|].
  apply notPositive_false, E.
Qed.

Lemma leverageError_none (leverage : option float) (l : float) :
  leverageError leverage = None -> leverage = Some l -> within 1 50 l = true.
Proof.
  intros H ->. simpl in H.
  destruct (outside 1 50 l) eqn:E; [discriminate H|].
  apply outside_false; [reflexivity..|exact E].
Qed.

Lemma exposureError_none (exposure : option float) (e : float) :
  exposureError exposure = None -> exposure = Some e -> (0 <? e)%float = true.
Proof.
  intros H ->. simpl in H.
  destruct (notPositive e) eqn:E; [discriminate H|].
  apply notPositive_false, E.
Qed.

Lemma multipliersError_none (m : option Multipliers)
    (l : list (string * RawValue)) (k : string) (mult : RawValue) :
  multipliersError parseFloat m = None -> storedMultipliers m = Some l ->
  In (k, mult) l -> within 0.01 1 (parsed parseFloat mult) = true.
Proof.
  destruct m as [[|l0]|]; simpl; try discriminate.
  destruct (badMultiplier parseFloat l0) eqn:E; [discriminate|].
  intros _ H. injection H as <-. apply badMultiplier_none, E.
Qed.

(** A key passes when, trimmed, it decodes to 64 bytes. *)
Lemma isValidSolanaPrivateKey_inv (key : string) :
  isValidSolanaPrivateKey trim bs58_decode key = true ->
  exists bytes, bs58_decode (trim key) = inr bytes /\ length bytes = 64.
Proof.
  unfold isValidSolanaPrivateKey, isValidBase58.
  destruct (String.eqb key EmptyString); [discriminate|].
  destruct (bs58_decode (trim key)) as [e|bytes]; [discriminate|].
  simpl. intros H. apply Nat.eqb_eq in H. eauto.
Qed.

(** What a 201 implies, check by check. *)
Lemma createRelationship_inv (body : CreateBody) (row : Row) :
  createRelationship parseFloat trim bs58_decode findOne encryptApiKey create
    body = Created row ->
  exists method encrypted,
    methodOf (if missing (cb_sizing_method body) then "multiplier"
              else default EmptyString (cb_sizing_method body)) = Some method /\
    sizingError method (default 0.5%float (cb_sizing_value body)) = None /\
    capError (cb_max_position_cap body) = None /\
    isValidSolanaPrivateKey trim bs58_decode
      (default EmptyString (cb_api_key body)) = true /\
    leverageError (cb_custom_leverage body) = None /\
    exposureError (cb_max_total_exposure body) = None /\
    multipliersError parseFloat (cb_symbol_multipliers body) = None /\
    findOne (default EmptyString (cb_user_wallet body)) = inr (Some true) /\
    encryptApiKey (default EmptyString (cb_api_key body)) = inr encrypted /\
    missing (cb_user_wallet body) = false /\
    missing (cb_api_key body) = false /\
    missing (cb_master_wallet body) = false /\
    row = {|
      row_user_wallet := default EmptyString (cb_user_wallet body);
      row_encrypted_api_key := encrypted;
      row_master_wallet := default EmptyString (cb_master_wallet body);
      row_sizing_method := method;
      row_sizing_value := default 0.5%float (cb_sizing_value body);
      row_max_position_cap := cb_max_position_cap body;
      row_symbols := default [] (cb_symbols body);
      row_is_active := true;
      row_custom_leverage := cb_custom_leverage body;
      row_max_total_exposure := cb_max_total_exposure body;
      row_symbol_multipliers := storedMultipliers (cb_symbol_multipliers body)
    |}.
Proof.
  unfold createRelationship.
  destruct (missing (cb_user_wallet body)) eqn:H1; [discriminate|].
  destruct (missing (cb_api_key body)) eqn:H2; [discriminate|].
  destruct (missing (cb_master_wallet body)) eqn:H3; [discriminate|].
  cbn [orb].
  destruct (methodOf _) as [method|] eqn:Hm; [|discriminate].
  destruct (sizingError method _) eqn:Hs; [discriminate|].
  destruct (capError _) eqn:Hc; [destruct (cb_max_position_cap body);
    simpl in Hc; [destruct (notPositive _)|]; try discriminate Hc;
    injection Hc as <-; discriminate|].
  destruct (isValidSolanaPrivateKey _ _ _) eqn:Hk; [|discriminate]. cbn [negb].
  destruct (leverageError _) eqn:Hl; [destruct (cb_custom_leverage body);
    simpl in Hl; [destruct (outside _ _ _)|]; try discriminate Hl;
    injection Hl as <-; discriminate|].
  destruct (exposureError _) eqn:He; [destruct (cb_max_total_exposure body);
    simpl in He; [destruct (notPositive _)|]; try discriminate He;
    injection He as <-; discriminate|].
  destruct (multipliersError _ _) eqn:Hx;
    [destruct (cb_symbol_multipliers body) as [[|l]|]; simpl in Hx;
     [|destruct (badMultiplier parseFloat l)|]; try discriminate Hx;
     injection Hx as <-; discriminate|].
  destruct (findOne _) as [e|[[]|]] eqn:Hf; try discriminate.
  destruct (encryptApiKey _) as [e|encrypted] eqn:Hen; [discriminate|].
  destruct (create _); [discriminate|].
  intros H. injection H as <-.
  exists method, encrypted. repeat split; assumption.
Qed.

End CheckedOnce.



(** *** PATCH *)

Lemma patchNumber_inv (field : Field float) (bad : float -> bool)
    (error : string) (assign : Row -> option float -> Row) (r r' : Row) :
  patchNumber field bad error assign r = inr r' ->
  r' = r \/ r' = assign r None \/
  exists x, bad x = false /\ r' = assign r (Some x).
Proof.
  unfold patchNumber. destruct field as [| |x].
  - intros H. injection H as <-. auto.
  - intros H. injection H as <-. auto.
  - destruct (bad x) eqn:E; [discriminate|].
    intros H. injection H as <-. eauto.
Qed.

Lemma patchMethod_inv (name : option string) (r r' : Row) :
  patchMethod name r = inr r' ->
  exists m, r' = set_sizing_method r m.
Proof.
  unfold patchMethod. destruct name as [n|].
  - destruct (methodOf n) as [m|] eqn:E; [|discriminate].
    intros H. injection H as <-. eauto.
  - intros H. injection H as <-. exists (row_sizing_method r).
    destruct r; reflexivity.
Qed.

Lemma patchValue_inv (value : option float) (r r' : Row) :
  patchValue value r = inr r' ->
  exists x, r' = set_sizing_value r x /\
    forall v, value = Some v ->
              x = v /\ sizingError (row_sizing_method r) v = None.
Proof.
  unfold patchValue. destruct value as [v|].
  - destruct (sizingError (row_sizing_method r) v) eqn:E; [discriminate|].
    intros H. injection H as <-. exists v. split; [reflexivity|].
    intros v' H'. injection H' as <-. split; [reflexivity | exact E].
  - intros H. injection H as <-. exists (row_sizing_value r).
    split; [destruct r; reflexivity | discriminate].
Qed.

Lemma patchMultipliers_inv (parseFloat : string -> float)
    (field : Field Multipliers) (r r' : Row) :
  patchMultipliers parseFloat field r = inr r' ->
  exists m, r' = set_symbol_multipliers r m /\
    (field = Undefined /\ m = row_symbol_multipliers r \/
     field = Null /\ m = None \/
     exists l, field = Given (Entries l) /\
               badMultiplier parseFloat l = None /\ m = Some l).
Proof.
  unfold patchMultipliers. destruct field as [| |[|l]]; try discriminate.
  - intros H. injection H as <-. exists (row_symbol_multipliers r).
    split; [destruct r; reflexivity | auto].
  - intros H. injection H as <-. exists None. auto.
  - destruct (badMultiplier parseFloat l) eqn:E; [discriminate|].
    intros H. injection H as <-. exists (Some l).
    split; [reflexivity|]. right. right. eauto.
Qed.

(** A stage that refuses answers 400. *)
Lemma patchNumber_refuses field bad error assign r reply :
  patchNumber field bad error assign r = inl reply -> reply = BadRequest error.
Proof.
  unfold patchNumber. destruct field as [| |x]; try discriminate.
  destruct (bad x); [|discriminate]. intros H. injection H as <-. reflexivity.
Qed.

Lemma patchMethod_refuses name r reply :
  patchMethod name r = inl reply -> exists e, reply = BadRequest e.
Proof.
  unfold patchMethod. destruct name as [n|]; [|discriminate].
  destruct (methodOf n); [discriminate|].
  intros H. injection H as <-. eauto.
Qed.

Lemma patchValue_refuses value r reply :
  patchValue value r = inl reply -> exists e, reply = BadRequest e.
Proof.
  unfold patchValue. destruct value as [v|]; [|discriminate].
  destruct (sizingError _ v); [|discriminate].
  intros H. injection H as <-. eauto.
Qed.

Lemma patchMultipliers_refuses parseFloat field r reply :
  patchMultipliers parseFloat field r = inl reply ->
  exists e, reply = BadRequest e.
Proof.
  unfold patchMultipliers. destruct field as [| |[|l]]; try discriminate.
  - intros H. injection H as <-. eauto.
  - destruct (badMultiplier parseFloat l); [|discriminate].
    intros H. injection H as <-. eauto.
Qed.

Section Patch.
Variable parseFloat : string -> float.
Variable save : Row -> exn + unit.

(** The row a successful PATCH saves, stage by stage. *)
Lemma patchRelationship_inv (rel : Row) (body : PatchBody) (row : Row) :
  patchRelationship parseFloat save (inr (Some rel)) body = Updated row ->
  exists r1 r2 r3 r4 r5 r6,
    r1 = match pb_is_active body with
         | Some b => set_is_active rel b
         | None => rel
         end /\
    patchMethod (pb_sizing_method body) r1 = inr r2 /\
    patchValue (pb_sizing_value body) r2 = inr r3 /\
    patchNumber (pb_max_position_cap body) notPositive
      "max_position_cap must be greater than 0" set_max_position_cap r3
      = inr r4 /\
    patchNumber (pb_custom_leverage body) (outside 1 50)
      "custom_leverage must be between 1 and 50" set_custom_leverage
      (match pb_symbols body with
       | Some l => set_symbols r4 l
       | None => r4
       end) = inr r5 /\
    patchNumber (pb_max_total_exposure body) notPositive
      "max_total_exposure must be greater than 0" set_max_total_exposure r5
      = inr r6 /\
    patchMultipliers parseFloat (pb_symbol_multipliers body) r6 = inr row.
Proof.
  unfold patchRelationship.
  destruct (patchMethod _ _) as [reply|r2] eqn:S2;
    [apply patchMethod_refuses in S2 as [e ->]; discriminate|].
  destruct (patchValue _ _) as [reply|r3] eqn:S3;
    [apply patchValue_refuses in S3 as [e ->]; discriminate|].
  destruct (patchNumber (pb_max_position_cap body) _ _ _ _)
    as [reply|r4] eqn:S4;
    [apply patchNumber_refuses in S4 as ->; discriminate|].
  destruct (patchNumber (pb_custom_leverage body) _ _ _ _)
    as [reply|r5] eqn:S5;
    [apply patchNumber_refuses in S5 as ->; discriminate|].
  destruct (patchNumber (pb_max_total_exposure body) _ _ _ _)
    as [reply|r6] eqn:S6;
    [apply patchNumber_refuses in S6 as ->; discriminate|].
  destruct (patchMultipliers _ _ _) as [reply|r7] eqn:S7;
    [apply patchMultipliers_refuses in S7 as [e ->]; discriminate|].
  destruct (save r7); [discriminate|].
  intros H. injection H as <-.
  eexists _, r2, r3, r4, r5, r6. repeat split; eassumption.
Qed.

End Patch.

Lemma patchNumber_core field bad error assign r r' :
  (forall r0 v, core (assign r0 v) = core r0) ->
  patchNumber field bad error assign r = inr r' -> core r' = core r.
Proof.
  intros Hassign H.
  apply patchNumber_inv in H as [->|[->|(x & _ & ->)]];
    [reflexivity | apply Hassign..].
Qed.

Lemma row_limits_checked_same parseFloat (r r' : Row) :
  row_max_position_cap r' = row_max_position_cap r ->
  row_custom_leverage r' = row_custom_leverage r ->
  row_max_total_exposure r' = row_max_total_exposure r ->
  row_symbol_multipliers r' = row_symbol_multipliers r ->
  row_limits_checked parseFloat r -> row_limits_checked parseFloat r'.
Proof.
  unfold row_limits_checked. intros -> -> -> ->. auto.
Qed.

Lemma patch_cap_valid parseFloat field r r' :
  patchNumber field notPositive "max_position_cap must be greater than 0"
    set_max_position_cap r = inr r' ->
  row_limits_checked parseFloat r -> row_limits_checked parseFloat r'.
Proof.
  intros H (Hc & Hl & He & Hm).
  apply patchNumber_inv in H as [->|[->|(x & Hx & ->)]];
    unfold row_limits_checked; cbn; repeat split; auto; try discriminate.
  intros c E. injection E as <-. apply notPositive_false, Hx.
Qed.

Lemma patch_leverage_valid parseFloat field r r' :
  patchNumber field (outside 1 50) "custom_leverage must be between 1 and 50"
    set_custom_leverage r = inr r' ->
  row_limits_checked parseFloat r -> row_limits_checked parseFloat r'.
Proof.
  intros H (Hc & Hl & He & Hm).
  apply patchNumber_inv in H as [->|[->|(x & Hx & ->)]];
    unfold row_limits_checked; cbn; repeat split; auto; try discriminate.
  intros c E. injection E as <-.
  apply outside_false; [reflexivity..|exact Hx].
Qed.

Lemma patch_exposure_valid parseFloat field r r' :
  patchNumber field notPositive "max_total_exposure must be greater than 0"
    set_max_total_exposure r = inr r' ->
  row_limits_checked parseFloat r -> row_limits_checked parseFloat r'.
Proof.
  intros H (Hc & Hl & He & Hm).
  apply patchNumber_inv in H as [->|[->|(x & Hx & ->)]];
    unfold row_limits_checked; cbn; repeat split; auto; try discriminate.
  intros c E. injection E as <-. apply notPositive_false, Hx.
Qed.

Lemma patch_multipliers_valid parseFloat field r r' :
  patchMultipliers parseFloat field r = inr r' ->
  row_limits_checked parseFloat r -> row_limits_checked parseFloat r'.
Proof.
  intros H (Hc & Hl & He & Hm).
  apply patchMultipliers_inv in H as (m0 & -> & H).
  unfold row_limits_checked. cbn. repeat split; auto.
  intros l k mult Hrow.
  destruct H as [(_ & H)|[(_ & H)|(l0 & _ & Hbad & H)]]; rewrite H in Hrow.
  - apply Hm, Hrow.
  - discriminate Hrow.
  - injection Hrow as <-. apply badMultiplier_none, Hbad.
Qed.



(** X26.  Limits that are in their ranges are never mistaken for
    [not configured]: the pipeline tests the position cap, the leverage
    and the exposure limit of a relationship for truthiness, and a symbol
    multiplier likewise; for a relationship whose limits are valid (as the
    two routes leave them) each configured limit passes that test, so the
    cap is applied, the leverage clamp and the exposure check are entered,
    and a listed symbol is scaled by its multiplier. *)
Theorem valid_limits_are_enforced (r : CopyRelationship) :
  limits_valid r ->
  truthy_opt (custom_leverage r) = defined (custom_leverage r) /\
  truthy_opt (max_total_exposure r) = defined (max_total_exposure r) /\
  (forall price a,
     applyPositionCap r price a =
     match max_position_cap r with
     | Some cap => Math_min a (cap / price)%float
     | None => a
     end) /\
  (forall sym a,
     applySymbolMultiplier r sym a =
     match symbol_multipliers r with
     | Some m => match m !! sym with
                 | Some k => (a * k)%float
                 | None => a
                 end
     | None => a
     end).
Proof.
  intros (Hc & Hl & He & Hm).
  assert (Hw : forall lo hi x,
            PrimFloat.ltb 0 lo = true -> within lo hi x = true ->
            truthy x = true).
  { intros lo hi x Hlo H. unfold within in H.
    apply andb_true_iff in H as [H _].
    apply positive_truthy, (above_bound_positive lo); assumption. }
  split; [|split; [|split]].
  - destruct (custom_leverage r) as [l|] eqn:E; [|reflexivity].
    simpl. apply (Hw 1%float 50%float); [reflexivity | apply Hl; reflexivity].
  - destruct (max_total_exposure r) as [e|] eqn:E; [|reflexivity].
    simpl. apply positive_truthy, He. reflexivity.
  - intros price a. unfold applyPositionCap.
    destruct (max_position_cap r) as [c|] eqn:E; [|reflexivity].
    rewrite (positive_truthy c (Hc c eq_refl)). reflexivity.
  - intros sym a. unfold applySymbolMultiplier.
    destruct (symbol_multipliers r) as [m|] eqn:E; [|reflexivity].
    destruct (m !! sym) as [k|] eqn:Ek; [|reflexivity].
    rewrite (Hw 0.01%float 1%float k eq_refl (Hm m sym k eq_refl Ek)).
    reflexivity.
Qed.

Lemma valid_limits_are_enforced_witness :
  let r := Scenarios.copier "U" "iv:tag:data" multiplier 0.5%float
                            (Some 10%float) (Some 100%float) in
  limits_valid r /\
  truthy_opt (custom_leverage r) = true /\
  truthy_opt (max_total_exposure r) = true.
Proof.
  intros r.
  assert (Hr : limits_valid r).
  { repeat split; intros; try discriminate.
    - match goal with H : custom_leverage r = Some _ |- _ =>
        injection H as <- end. reflexivity.
    - match goal with H : max_total_exposure r = Some _ |- _ =>
        injection H as <- end. reflexivity. }
  split; [exact Hr|].
  destruct (valid_limits_are_enforced r Hr) as (H1 & H2 & _).
  split; [exact H1 | exact H2].
Defined.

End RoutesFacts.
